(** * Smith-Waterman local alignment: the CPU and the CUDA wavefront variant

    A shallow embedding of [cpuSmithWaterman.cpp] and [smithWaterman.cu].

    Conventions of the embedding.
    - [int] scores are integers in [Z]; every [int] addition of the source is
      [int_add], the sum reduced to the 32-bit two's complement range.
    - [long] is the 64-bit type of LP64 platforms ([long_add]).
    - [std::string] is [list ascii]; [std::vector<int>] and
      [std::vector<unsigned char>] are [list Z], read with [!!!] and written
      with [<[ _ := _ ]>].  Every index the fill loops compute lies inside
      the vectors (lemma [at_lt]), so the out-of-range behaviour of the list
      operations is never reached there.
    - The lengths, the cell count [(len1+1) * (len2+1)] and the index
      [i * (len2+1) + j] are [int]s in both sources.  The functions of the
      modules [Cpu] and [Gpu] are the loops of the source for lengths whose
      cell count is within [int] ([fits]): there the [int]s hold the natural
      numbers the definitions compute with (lemmas [int_length_exact],
      [cell_count_exact], [index_exact]).  What the sources do with their
      [int] sizes for all lengths, beyond that range too, is
      [CpuProgram.smithWaterman] and [GpuProgram.align], which the two
      [main]s call.
    - [while] loops are fixpoints on a fuel argument and return [None] when
      the fuel runs out; lemmas [tb_loop_total] and [print_blocks_total] show
      that the fuel the callers pass always suffices.
    - A kernel launch runs one thread body per thread of the grid; the order
      in which the thread bodies take effect is a parameter (a scheduler),
      constrained only to run every thread of the grid once. *)

From Stdlib Require Import ZArith List Ascii String Lia Permutation.
From Stdlib Require Import Numbers.DecimalString.
From stdpp Require Import base list.
Import ListNotations.

#[local] Open Scope Z_scope.

(** ** Machine integers *)

Definition INT_MIN : Z := -2147483648.
Definition INT_MAX : Z := 2147483647.
Definition LONG_MAX : Z := 9223372036854775807.

Definition wrap_int (z : Z) : Z := (z + 2 ^ 31) mod 2 ^ 32 - 2 ^ 31.
Definition wrap_long (z : Z) : Z := (z + 2 ^ 63) mod 2 ^ 64 - 2 ^ 63.

Definition int_add (a b : Z) : Z := wrap_int (a + b).
Definition int_mul (a b : Z) : Z := wrap_int (a * b).
Definition long_add (a b : Z) : Z := wrap_long (a + b).

(** ** Strings *)

Definition str (s : string) : list ascii := list_ascii_of_string s.

#[local] Instance ascii_inhabited : Inhabited ascii := populate zero.

Definition char_eqb (a b : ascii) : bool := Ascii.eqb a b.

(** The value of a [char] seen through [static_cast<unsigned char>]. *)
Definition uchar (c : ascii) : Z := Z.of_N (N_of_ascii c).

(** [std::toupper] in the "C" locale (the programs never call [setlocale]). *)
Definition toupper (c : Z) : Z :=
  if (97 <=? c) && (c <=? 122) then c - 32 else c.

Definition GAP_DASH : ascii := "-"%char.
Definition GAP_DOT : ascii := "."%char.

(** ** The score and direction matrices *)

Record Matrix : Type := mkMatrix { score : list Z; dir : list Z }.

(** Row-major index [i * (len2+1) + j], for a matrix whose cell count is
    within [int]: the [int] the source computes is then this number (lemma
    [index_exact]). *)
Definition at_ (len2 i j : nat) : nat := (i * (len2 + 1) + j)%nat.

(** The two vectors as lines 86-87 build them, for a cell count within
    [int] (lemma [cell_count_exact]); for the count the source hands to the
    vector constructor in general see [cell_count]. *)
Definition alloc (len1 len2 : nat) : Matrix :=
  {| score := replicate ((len1 + 1) * (len2 + 1)) 0;
     dir := replicate ((len1 + 1) * (len2 + 1)) 0 |}.

(** ** [cpuSmithWaterman.cpp] *)

Module Cpu.

Section Fill.
Variables (seq1 seq2 : list ascii) (len2 : nat).
Variables (matchScore mismatchScore gapScore : Z).

(** Body of the inner loop, lines 92-116. *)
Definition fill_cell (M : Matrix) (i j : nat) : Matrix :=
  let up := int_add (score M !!! at_ len2 (i - 1) j) gapScore in
  let left := int_add (score M !!! at_ len2 i (j - 1)) gapScore in
  let diagScore :=
    int_add (score M !!! at_ len2 (i - 1) (j - 1))
            (if char_eqb (seq1 !!! (i - 1)%nat) (seq2 !!! (j - 1)%nat)
             then matchScore else mismatchScore) in
  let localMaxScore := 0 in
  let direction := 0 in
  let '(localMaxScore, direction) :=
    if diagScore >? localMaxScore then (diagScore, 1)
    else (localMaxScore, direction) in
  let '(localMaxScore, direction) :=
    if up >? localMaxScore then (up, 2)
    else (localMaxScore, direction) in
  let '(localMaxScore, direction) :=
    if left >? localMaxScore then (left, 3)
    else (localMaxScore, direction) in
  {| score := <[at_ len2 i j := localMaxScore]> (score M);
     dir := <[at_ len2 i j := direction]> (dir M) |}.

Definition fill_row (M : Matrix) (i : nat) : Matrix :=
  foldl (fun M j => fill_cell M i j) M (seq 1 len2).

(** The fill loops, lines 90-118. *)
Definition fill (len1 : nat) (M : Matrix) : Matrix :=
  foldl fill_row M (seq 1 len1).
End Fill.

(** The scan for the maximum, lines 121-132: [(maxScore, max_i, max_j)]. *)
Definition locate_row (len2 : nat) (sc : list Z) (acc : Z * nat * nat) (i : nat)
  : Z * nat * nat :=
  foldl (fun '(maxScore, max_i, max_j) j =>
           let val := sc !!! at_ len2 i j in
           if val >? maxScore then (val, i, j) else (maxScore, max_i, max_j))
        acc (seq 1 len2).

Definition locate (len1 len2 : nat) (sc : list Z) : Z * nat * nat :=
  foldl (locate_row len2 sc) (0, 0%nat, 0%nat) (seq 1 len1).

(** State of the traceback loop, lines 135-165. *)
Record tb_state : Type :=
  mkTb { ti : nat; tj : nat; align1 : list ascii; align2 : list ascii }.

(** One pass through the loop body: [Stay] is a [break] taken before any
    move, [Move s stop] is a move to state [s], after which the loop is left
    ([stop = true], the score test of line 161) or entered again. *)
Inductive tb_outcome : Type :=
  | Stay
  | Move (s : tb_state) (stop : bool).

Section Traceback.
Variables (seq1 seq2 : list ascii) (len2 : nat) (M : Matrix).

Definition tb_body (s : tb_state) : tb_outcome :=
  let d := dir M !!! at_ len2 (ti s) (tj s) in
  if d =? 0 then Stay
  else
    let moved :=
      if d =? 1 then
        Some (mkTb (ti s - 1) (tj s - 1)
                   (align1 s ++ [seq1 !!! (ti s - 1)%nat])
                   (align2 s ++ [seq2 !!! (tj s - 1)%nat]))
      else if d =? 2 then
        Some (mkTb (ti s - 1) (tj s)
                   (align1 s ++ [seq1 !!! (ti s - 1)%nat])
                   (align2 s ++ [GAP_DASH]))
      else if d =? 3 then
        Some (mkTb (ti s) (tj s - 1)
                   (align1 s ++ [GAP_DASH])
                   (align2 s ++ [seq2 !!! (tj s - 1)%nat]))
      else None in
    match moved with
    | None => Stay
    | Some s' => Move s' (score M !!! at_ len2 (ti s') (tj s') =? 0)
    end.

Definition tb_cond (s : tb_state) : bool :=
  (0 <? ti s)%nat && (0 <? tj s)%nat.

(** The [while] loop; [None] when the fuel does not suffice. *)
Fixpoint tb_loop (fuel : nat) (s : tb_state) : option tb_state :=
  if tb_cond s then
    match fuel with
    | O => None
    | S fuel' =>
        match tb_body s with
        | Stay => Some s
        | Move s' true => Some s'
        | Move s' false => tb_loop fuel' s'
        end
    end
  else Some s.

End Traceback.

(** Lines 172-177. *)
Definition dots (a : list ascii) : list ascii :=
  map (fun c => if char_eqb c GAP_DASH then GAP_DOT else c) a.

(** Lines 120-177, from the filled matrix to [(align1, align2, maxScore)]. *)
Definition finish (seq1 seq2 : list ascii) (M : Matrix)
  : option (list ascii * list ascii * Z) :=
  let len1 := length seq1 in
  let len2 := length seq2 in
  let '(maxScore, max_i, max_j) := locate len1 len2 (score M) in
  match tb_loop seq1 seq2 len2 M (max_i + max_j) (mkTb max_i max_j [] []) with
  | None => None
  | Some s => Some (dots (rev (align1 s)), dots (rev (align2 s)), maxScore)
  end.

Definition fill_matrix (seq1 seq2 : list ascii) (matchScore mismatchScore gapScore : Z)
  : Matrix :=
  let len1 := length seq1 in
  let len2 := length seq2 in
  fill seq1 seq2 len2 matchScore mismatchScore gapScore len1 (alloc len1 len2).

Definition smithWaterman (seq1 seq2 : list ascii)
    (matchScore mismatchScore gapScore : Z)
  : option (list ascii * list ascii * Z) :=
  finish seq1 seq2 (fill_matrix seq1 seq2 matchScore mismatchScore gapScore).

(** [gcgChecksum], lines 181-189. *)
Definition gcgChecksum (s : list ascii) : Z :=
  let check :=
    foldl (fun check i =>
             let c := toupper (uchar (s !!! i)) in
             long_add check (int_mul (wrap_int (Z.of_nat (i mod 57) + 1)) c))
          0 (seq 0 (length s)) in
  wrap_int (Z.rem check 10000).

(** [determineSequenceType], lines 192-205; the loop over [allAligned]. *)
Fixpoint scan_type (allAligned : list ascii) (maybeDNA : bool) : bool :=
  match allAligned with
  | [] => maybeDNA
  | c :: rest =>
      if char_eqb c GAP_DOT then scan_type rest maybeDNA
      else
        let u := toupper (uchar c) in
        if negb (u =? 65) && negb (u =? 67) && negb (u =? 71) &&
           negb (u =? 84) && negb (u =? 85) && negb (u =? 78)
        then false
        else scan_type rest maybeDNA
  end.

Definition determineSequenceType (align1 align2 : list ascii) : ascii :=
  let allAligned := align1 ++ align2 in
  let maybeDNA := scan_type allAligned true in
  if maybeDNA then "N"%char else "P"%char.

(** *** Formatted output *)

(** [name.c_str()] read by [printf]: the characters before the first NUL. *)
Fixpoint c_str (s : list ascii) : list ascii :=
  match s with
  | [] => []
  | c :: rest => if char_eqb c zero then [] else c :: c_str rest
  end.

Definition spaces (n : nat) : list ascii := replicate n " "%char.

(** [%d] *)
Definition printf_d (z : Z) : list ascii :=
  str (NilEmpty.string_of_int (Z.to_int z)).

(** [%4d]: right-justified in a field of at least four characters. *)
Definition printf_4d (z : Z) : list ascii :=
  spaces (4 - length (printf_d z)) ++ printf_d z.

(** [%s] *)
Definition printf_s (s : list ascii) : list ascii := c_str s.

(** [%-12s]: the [-] flag left-justifies in a field of at least twelve
    characters. *)
Definition printf_m12s (s : list ascii) : list ascii :=
  c_str s ++ spaces (12 - length (c_str s)).

Definition nl : list ascii := ["010"%char].

(** The loop over [k], lines 237-244: the residues of columns
    [start .. end_ - 1] with a space after every tenth, except the last. *)
Definition residues (al : list ascii) (start end_ : nat) : list ascii :=
  fst (foldl (fun '(out, count) k =>
                let out := out ++ [al !!! k] in
                let count := (count + 1)%nat in
                if ((count mod 10 =? 0) && (k <? end_ - 1))%nat
                then (out ++ [" "%char], count)
                else (out, count))
             ([], 0%nat) (seq start (end_ - start))).

(** One residue line without its line end: lines 235-244 and 247-255. *)
Definition residue_line (name al : list ascii) (start end_ : nat) : list ascii :=
  printf_m12s name ++ residues al start end_.

Definition colsPerLine : nat := 50.

(** The loop over [start], lines 232-257. *)
Fixpoint print_blocks (fuel : nat) (name1 name2 align1 align2 : list ascii)
    (alignLen start : nat) : option (list ascii) :=
  if (start <? alignLen)%nat then
    match fuel with
    | O => None
    | S fuel' =>
        let end_ := (if start + colsPerLine <? alignLen
                     then start + colsPerLine else alignLen)%nat in
        let block :=
          residue_line name1 align1 start end_ ++ nl ++
          residue_line name2 align2 start end_ ++ nl ++ nl in
        match print_blocks fuel' name1 name2 align1 align2 alignLen
                           (start + colsPerLine) with
        | None => None
        | Some rest => Some (block ++ rest)
        end
    end
  else Some [].

(** The pairwise checksum, line 216. *)
Definition globalCheck (check1 check2 : Z) : Z :=
  wrap_int (Z.rem (long_add check1 check2) 10000).

(** The header, lines 211-228. *)
Definition print_header (name1 name2 align1 align2 : list ascii) (maxScore : Z)
  : list ascii :=
  let alignLen := Z.of_nat (length align1) in
  let check1 := gcgChecksum align1 in
  let check2 := gcgChecksum align2 in
  let globalCheck := globalCheck check1 check2 in
  let typeChar := determineSequenceType align1 align2 in
  str "Alignment score: " ++ printf_d maxScore ++ nl ++ nl ++
  str "PileUp" ++ nl ++ nl ++
  str "   MSF:   " ++ printf_d alignLen ++ str "  Type: " ++ [typeChar] ++
    str "    Check:  " ++ printf_4d globalCheck ++ str "   .." ++ nl ++ nl ++
  str " Name: " ++ printf_s name1 ++ str " oo  Len:   " ++ printf_d alignLen ++
    str "  Check:  " ++ printf_4d check1 ++ str "  Weight:  10.0" ++ nl ++
  str " Name: " ++ printf_s name2 ++ str " oo  Len:   " ++ printf_d alignLen ++
    str "  Check:  " ++ printf_4d check2 ++ str "  Weight:  10.0" ++ nl ++ nl ++
  str "//" ++ nl ++ nl.

(** [printMSFAlignment], lines 208-258: everything written to the standard
    output. *)
Definition printMSFAlignment (name1 name2 align1 align2 : list ascii)
    (maxScore : Z) : option (list ascii) :=
  let alignLen := length align1 in
  match print_blocks alignLen name1 name2 align1 align2 alignLen 0 with
  | None => None
  | Some blocks =>
      Some (print_header name1 name2 align1 align2 maxScore ++ blocks)
  end.

End Cpu.

(** ** [smithWaterman.cu] *)

Module Gpu.

Definition threadsPerBlock : nat := 256.

Section Kernel.
Variables (seq1 seq2 : list ascii) (len1 len2 : nat).
Variables (diag start_i end_i : nat).
Variables (matchScore mismatchScore gapScore : Z).

(** The thread body of [sw_kernel], lines 14-39, for the thread
    [threadIdx] of block [blockIdx]. *)
Definition sw_kernel (blockIdx blockDim threadIdx : nat) (M : Matrix) : Matrix :=
  let idx := (blockIdx * blockDim + threadIdx)%nat in
  let i := (start_i + idx)%nat in
  if (end_i <? i)%nat then M
  else
    let j := (diag - i)%nat in
    let up := int_add (score M !!! at_ len2 (i - 1) j) gapScore in
    let left := int_add (score M !!! at_ len2 i (j - 1)) gapScore in
    let diagScore :=
      int_add (score M !!! at_ len2 (i - 1) (j - 1))
              (if char_eqb (seq1 !!! (i - 1)%nat) (seq2 !!! (j - 1)%nat)
               then matchScore else mismatchScore) in
    let maxScore := 0 in
    let direction := 0 in
    let '(maxScore, direction) :=
      if diagScore >? maxScore then (diagScore, 1)
      else (maxScore, direction) in
    let '(maxScore, direction) :=
      if up >? maxScore then (up, 2)
      else (maxScore, direction) in
    let '(maxScore, direction) :=
      if left >? maxScore then (left, 3)
      else (maxScore, direction) in
    {| score := <[at_ len2 i j := maxScore]> (score M);
       dir := <[at_ len2 i j := direction]> (dir M) |}.
End Kernel.

(** The threads of a launch [<<<blocks, blockDim>>>], as
    [(blockIdx, threadIdx)]. *)
Definition grid (blocks blockDim : nat) : list (nat * nat) :=
  b ← seq 0 blocks; t ← seq 0 blockDim; [(b, t)].

(** A scheduler gives, for the launch on anti-diagonal [diag] with the given
    grid, the order in which the thread bodies take effect.  It is fair when
    that order runs each thread of the grid exactly once. *)
Definition scheduler : Type := nat -> nat -> nat -> list (nat * nat).

Definition fair (sched : scheduler) : Prop :=
  forall diag blocks blockDim,
    sched diag blocks blockDim ≡ₚ grid blocks blockDim.

Definition in_order : scheduler := fun _ blocks blockDim => grid blocks blockDim.
Definition reversed : scheduler :=
  fun _ blocks blockDim => rev (grid blocks blockDim).

(** A launch followed by [cudaDeviceSynchronize]. *)
Definition launch (order : list (nat * nat)) (blockDim : nat)
    (kernel : nat -> nat -> nat -> Matrix -> Matrix) (M : Matrix) : Matrix :=
  foldl (fun M '(b, t) => kernel b blockDim t M) M order.

Section Fill.
Variables (sched : scheduler).
Variables (seq1 seq2 : list ascii) (len1 len2 : nat).
Variables (matchScore mismatchScore gapScore : Z).

(** Body of the loop over the anti-diagonals, lines 179-187. *)
Definition diag_step (M : Matrix) (diag : nat) : Matrix :=
  let start_i :=
    (if len2 + 1 <? diag then diag - (len2 + 1) + 1 else 1)%nat in
  let start_i := (if start_i <? 1 then 1 else start_i)%nat in
  let end_i := (if diag - 1 <? len1 then diag - 1 else len1)%nat in
  let end_i := (if len1 <? end_i then len1 else end_i)%nat in
  if ((len1 <? start_i) || (end_i <? start_i))%nat then M
  else
    let totalCells := (end_i - start_i + 1)%nat in
    let blocks := ((totalCells + threadsPerBlock - 1) / threadsPerBlock)%nat in
    launch (sched diag blocks threadsPerBlock) threadsPerBlock
           (sw_kernel seq1 seq2 len2 diag start_i end_i
                      matchScore mismatchScore gapScore) M.

(** Lines 176-188. *)
Definition fill (M : Matrix) : Matrix :=
  let maxDiag := (len1 + len2)%nat in
  foldl diag_step M (seq 2 (maxDiag - 1)).
End Fill.

(** The matrices copied back to the host, lines 152-194. *)
Definition fill_matrix (sched : scheduler) (seq1 seq2 : list ascii)
    (matchScore mismatchScore gapScore : Z) : Matrix :=
  let len1 := length seq1 in
  let len2 := length seq2 in
  fill sched seq1 seq2 len1 len2 matchScore mismatchScore gapScore
       (alloc len1 len2).

(** Lines 196-252 of [main] repeat lines 120-177 of the CPU [smithWaterman]
    statement for statement. *)
Definition align (sched : scheduler) (seq1 seq2 : list ascii)
    (matchScore mismatchScore gapScore : Z)
  : option (list ascii * list ascii * Z) :=
  Cpu.finish seq1 seq2
    (fill_matrix sched seq1 seq2 matchScore mismatchScore gapScore).

End Gpu.

(** ** The command line programs *)

(** ** Lengths and cell counts as [int] *)

(** [int len = seq.length()]: the conversion of the length to [int]. *)
Definition int_length (s : list ascii) : Z := wrap_int (Z.of_nat (length s)).

(** [(len1+1) * (len2+1)] as the source computes it, in [int]: the count
    handed to the vector constructors (cpuSmithWaterman.cpp lines 86-87,
    smithWaterman.cu lines 191-192). *)
Definition cell_count (len1 len2 : Z) : Z :=
  int_mul (int_add len1 1) (int_add len2 1).

(** [i * (len2+1) + j] as the source computes it, in [int]. *)
Definition int_index (len2 i j : Z) : Z :=
  int_add (int_mul i (int_add len2 1)) j.

(** The lengths for which the cell count is within [int]. *)
Definition fits (len1 len2 : nat) : Prop :=
  (Z.of_nat len1 + 1) * (Z.of_nat len2 + 1) <= INT_MAX.

(** What a call leaves.  [Throws]: a vector constructor is handed a negative
    count, which as a [size_t] is more than a vector can hold, and throws
    [std::length_error]; nothing in the sources catches it.  [Undefined]: the
    source does not determine what happens: a cell index is outside its
    vector or device buffer, the counter of a loop runs past [INT_MAX], or a
    CUDA runtime call is handed a negative size and its error is not looked
    at. *)
Inductive call (A : Type) : Type :=
  | Returns (a : A)
  | Throws
  | Undefined.
Arguments Returns {A} a.
Arguments Throws {A}.
Arguments Undefined {A}.

Module CpuProgram.

(** [std::string::find_last_of]: the last position holding a symbol accepted
    by [p]; [None] is [npos]. *)
Fixpoint find_last_from (p : ascii -> bool) (s : list ascii) (i : nat)
    (found : option nat) : option nat :=
  match s with
  | [] => found
  | c :: rest => find_last_from p rest (S i) (if p c then Some i else found)
  end.

Definition find_last_of (p : ascii -> bool) (s : list ascii) : option nat :=
  find_last_from p s 0 None.

(** [std::string::find]: the first position holding the symbol. *)
Fixpoint find_from (x : ascii) (s : list ascii) (i : nat) : option nat :=
  match s with
  | [] => None
  | c :: rest => if char_eqb c x then Some i else find_from x rest (S i)
  end.

Definition find (x : ascii) (s : list ascii) : option nat := find_from x s 0.

(** [std::string::substr (pos, n)] and [substr (pos)], for [pos] within the
    string, as at every call of the source. *)
Definition substr (s : list ascii) (pos n : nat) : list ascii :=
  take n (drop pos s).

Definition substr_from (s : list ascii) (pos : nat) : list ascii := drop pos s.

Definition SLASH : ascii := "/"%char.
Definition BACKSLASH : ascii := "092"%char.
Definition DOT : ascii := "."%char.
Definition UNDERSCORE : ascii := "_"%char.
Definition GT : ascii := ">"%char.
Definition NEWLINE : ascii := "010"%char.

(** [extractBaseName], lines 12-23. *)
Definition extractBaseName (filepath : list ascii) : list ascii :=
  let lastSlash :=
    find_last_of (fun c => char_eqb c SLASH || char_eqb c BACKSLASH) filepath in
  let start := match lastSlash with None => 0%nat | Some k => (k + 1)%nat end in
  let lastDot := find_last_of (fun c => char_eqb c DOT) filepath in
  let end_ :=
    match lastDot with
    | None => length filepath
    | Some d => if (d <=? start)%nat then length filepath else d
    end in
  substr filepath start (end_ - start).

(** [stripPrefix], lines 26-32. *)
Definition stripPrefix (name : list ascii) : list ascii :=
  match find UNDERSCORE name with
  | Some pos => if (0 <? pos)%nat then substr_from name (pos + 1) else name
  | None => name
  end.

(** [isspace] in the "C" locale: space, and the controls 9 to 13. *)
Definition isspace (c : Z) : bool := (c =? 32) || ((9 <=? c) && (c <=? 13)).

(** The lines [std::getline] reads from a stream holding [content]: the
    text between line feeds, and the text after the last line feed when
    there is some; [cur] is the line being read. *)
Fixpoint getlines (cur content : list ascii) : list (list ascii) :=
  match content with
  | [] => match cur with [] => [] | _ => [cur] end
  | c :: rest =>
      if char_eqb c NEWLINE then cur :: getlines [] rest
      else getlines (cur ++ [c]) rest
  end.

(** The loop of lines 49-53 from position [pos] on: the symbols up to the
    first white space. *)
Fixpoint header_name (line : list ascii) (name : list ascii) : list ascii :=
  match line with
  | [] => name
  | c :: rest =>
      if isspace (uchar c) then name else header_name rest (name ++ [c])
  end.

Definition is_header (line : list ascii) : bool :=
  match line with
  | c :: _ => char_eqb c GT
  | [] => false
  end.

(** The loop of lines 57-64 over the lines left in the stream. *)
Fixpoint read_sequence (lines : list (list ascii)) (seq : list ascii)
  : list ascii :=
  match lines with
  | [] => seq
  | line :: rest =>
      if is_header line then seq
      else
        read_sequence rest
          (foldl (fun seq c => if isspace (uchar c) then seq else seq ++ [c])
                 seq line)
  end.

(** [readFastaFile], lines 35-69, on the content of the file, [None] for a
    file that cannot be opened: [None] is the result [false], [Some (name,
    seq)] the result [true] with the two strings it leaves. *)
Definition readFastaFile (file : option (list ascii))
  : option (list ascii * list ascii) :=
  match file with
  | None => None
  | Some content =>
      match getlines [] content with
      | [] => Some ([], [])
      | line :: rest =>
          let name := if is_header line then header_name (drop 1 line) [] else [] in
          Some (name, read_sequence rest [])
      end
  end.

(** The conversion of an [int] in the range of [unsigned char] to [char]. *)
Definition to_char (z : Z) : ascii := ascii_of_N (Z.to_N z).

(** [toUpperCase], lines 72-76. *)
Definition toUpperCase (seq : list ascii) : list ascii :=
  map (fun c => to_char (toupper (uchar c))) seq.

(** [smithWaterman], lines 79-178, with its sizes as the [int]s of lines
    82-87.  A negative cell count makes the constructor of line 86 throw.
    A loop whose bound is [INT_MAX] runs its counter past it.  Otherwise the
    loops run over the first [len1] and [len2] symbols; when a length is
    below 1 no loop body runs, and when the cell count is the exact product
    every index is inside the vectors.  In the case left, the count has
    wrapped around to fewer cells than the loops visit. *)
Definition smithWaterman (seq1 seq2 : list ascii)
    (matchScore mismatchScore gapScore : Z)
  : option (call (list ascii * list ascii * Z)) :=
  let len1 := int_length seq1 in
  let len2 := int_length seq2 in
  if cell_count len1 len2 <? 0 then Some Throws
  else if (len1 =? INT_MAX) || ((1 <=? len1) && (len2 =? INT_MAX))
  then Some Undefined
  else if ((len1 + 1) * (len2 + 1) <=? INT_MAX) || (len1 <? 1) || (len2 <? 1)
  then
    match Cpu.smithWaterman (take (Z.to_nat len1) seq1) (take (Z.to_nat len2) seq2)
                            matchScore mismatchScore gapScore with
    | None => None
    | Some r => Some (Returns r)
    end
  else Some Undefined.

(** What a run that returns from [main] leaves: the exit status, the
    standard output, and the error message written to the standard error
    stream (the timing line that a successful run writes there is left
    out). *)
Record outcome : Type :=
  mkOutcome { status : Z; stdout : list ascii; message : list ascii }.

(** [main], lines 260-333, with the files of the system as a function from
    paths to contents.  An exception that leaves [smithWaterman] leaves
    [main] too. *)
Definition main (files : list ascii -> option (list ascii))
    (argv : list (list ascii)) : option (call outcome) :=
  if (length argv <? 3)%nat then
    Some (Returns (mkOutcome 1 []
            (str "Usage: " ++ argv !!! 0%nat ++
             str " <seq1.fasta> <seq2.fasta>" ++ [NEWLINE])))
  else
    let file1 := argv !!! 1%nat in
    let file2 := argv !!! 2%nat in
    match readFastaFile (files file1), readFastaFile (files file2) with
    | Some (name1, seq1), Some (name2, seq2) =>
        let name1 := match name1 with [] => extractBaseName file1 | _ => name1 end in
        let name2 := match name2 with [] => extractBaseName file2 | _ => name2 end in
        let name1 := stripPrefix name1 in
        let name2 := stripPrefix name2 in
        let seq1 := toUpperCase seq1 in
        let seq2 := toUpperCase seq2 in
        match seq1, seq2 with
        | _ :: _, _ :: _ =>
            match smithWaterman seq1 seq2 2 (-1) (-1) with
            | None => None
            | Some Throws => Some Throws
            | Some Undefined => Some Undefined
            | Some (Returns (align1, align2, maxScore)) =>
                match Cpu.printMSFAlignment name1 name2 align1 align2 maxScore with
                | None => None
                | Some out => Some (Returns (mkOutcome 0 out []))
                end
            end
        | _, _ =>
            Some (Returns (mkOutcome 1 []
                    (str "Error: one of the sequences is empty." ++ [NEWLINE])))
        end
    | _, _ =>
        Some (Returns (mkOutcome 1 []
                (str "Error: unable to open or parse input FASTA file(s)." ++
                 [NEWLINE])))
    end.

End CpuProgram.

Module GpuProgram.

(** Lines 144-252 of [main], from the uppercased sequences to the alignment,
    with the sizes as the [int]s of lines 144-145.  A negative length
    reaches [cudaMalloc] and [cudaMemcpy] as a size.  With lengths that are
    not negative the kernel computes its indices in [int] (lines 19-21 and
    38-39), while the device buffers are sized in [size_t] (lines 156-157):
    when the index of the last cell, the exact product minus 1, is beyond
    [int], a thread indexes outside the buffers.  When [maxDiag] is
    [INT_MAX] the counter of the loop of line 178 runs past it.  When the
    [int] cell count is negative, the vector constructor of line 191 throws.
    Otherwise every [int] holds the number it stands for, and the loops run
    over the first [len1] and [len2] symbols. *)
Definition align (sched : Gpu.scheduler) (seq1 seq2 : list ascii)
    (matchScore mismatchScore gapScore : Z)
  : option (call (list ascii * list ascii * Z)) :=
  let len1 := int_length seq1 in
  let len2 := int_length seq2 in
  if (len1 <? 0) || (len2 <? 0) then Some Undefined
  else if INT_MAX <? (len1 + 1) * (len2 + 1) - 1 then Some Undefined
  else if len1 + len2 =? INT_MAX then Some Undefined
  else if cell_count len1 len2 <? 0 then Some Throws
  else
    match Gpu.align sched (take (Z.to_nat len1) seq1) (take (Z.to_nat len2) seq2)
                    matchScore mismatchScore gapScore with
    | None => None
    | Some r => Some (Returns r)
    end.

(** [main] of [smithWaterman.cu], lines 56-328.  It reads the two files with
    the statements of [readFastaFile] written out twice (lines 65-113),
    names and uppercases as the CPU [main] does (lines 115-150), fills the
    matrices on the device and traces back (lines 152-252), and prints the
    report with the statements of [printMSFAlignment] (lines 254-320). *)
Definition main (sched : Gpu.scheduler)
    (files : list ascii -> option (list ascii))
    (argv : list (list ascii)) : option (call CpuProgram.outcome) :=
  if (length argv <? 3)%nat then
    Some (Returns (CpuProgram.mkOutcome 1 []
            (str "Usage: " ++ argv !!! 0%nat ++
             str " <seq1.fasta> <seq2.fasta>" ++ [CpuProgram.NEWLINE])))
  else
    let file1 := argv !!! 1%nat in
    let file2 := argv !!! 2%nat in
    match CpuProgram.readFastaFile (files file1),
          CpuProgram.readFastaFile (files file2) with
    | Some (name1, seq1), Some (name2, seq2) =>
        let name1 :=
          match name1 with [] => CpuProgram.extractBaseName file1 | _ => name1 end in
        let name2 :=
          match name2 with [] => CpuProgram.extractBaseName file2 | _ => name2 end in
        let name1 := CpuProgram.stripPrefix name1 in
        let name2 := CpuProgram.stripPrefix name2 in
        let seq1 := CpuProgram.toUpperCase seq1 in
        let seq2 := CpuProgram.toUpperCase seq2 in
        if (int_length seq1 =? 0) || (int_length seq2 =? 0) then
          Some (Returns (CpuProgram.mkOutcome 1 []
                  (str "Error: one of the sequences is empty." ++
                   [CpuProgram.NEWLINE])))
        else
          match align sched seq1 seq2 2 (-1) (-1) with
          | None => None
          | Some Throws => Some Throws
          | Some Undefined => Some Undefined
          | Some (Returns (align1, align2, maxScore)) =>
              match Cpu.printMSFAlignment name1 name2 align1 align2 maxScore with
              | None => None
              | Some out => Some (Returns (CpuProgram.mkOutcome 0 out []))
              end
          end
    | _, _ =>
        Some (Returns (CpuProgram.mkOutcome 1 []
                (str "Error: unable to open input FASTA file(s)." ++
                 [CpuProgram.NEWLINE])))
    end.

End GpuProgram.

(** * Specification *)

(** ** The update rule and the recurrence *)

(** The three comparisons of the update, on the candidate scores. *)
Definition cell_rule (diagScore up left : Z) : Z * Z :=
  let r := if diagScore >? 0 then (diagScore, 1) else (0, 0) in
  let r := if up >? fst r then (up, 2) else r in
  if left >? fst r then (left, 3) else r.

Section RecurrenceDefs.
Variables (seq1 seq2 : list ascii) (len1 len2 : nat).
Variables (matchScore mismatchScore gapScore : Z).

Definition subst_score (i j : nat) : Z :=
  if char_eqb (seq1 !!! (i - 1)%nat) (seq2 !!! (j - 1)%nat)
  then matchScore else mismatchScore.

Definition cand_diag (M : Matrix) (i j : nat) : Z :=
  int_add (score M !!! at_ len2 (i - 1) (j - 1)) (subst_score i j).
Definition cand_up (M : Matrix) (i j : nat) : Z :=
  int_add (score M !!! at_ len2 (i - 1) j) gapScore.
Definition cand_left (M : Matrix) (i j : nat) : Z :=
  int_add (score M !!! at_ len2 i (j - 1)) gapScore.

Definition new_cell (M : Matrix) (i j : nat) : Z * Z :=
  cell_rule (cand_diag M i j) (cand_up M i j) (cand_left M i j).

(** What one update does to the matrices. *)
Definition write_cell (M : Matrix) (i j : nat) : Matrix :=
  {| score := <[at_ len2 i j := fst (new_cell M i j)]> (score M);
     dir := <[at_ len2 i j := snd (new_cell M i j)]> (dir M) |}.

Definition interior (a b : nat) : Prop :=
  (1 <= a <= len1)%nat /\ (1 <= b <= len2)%nat.

(** The recurrence holds at cell [(a, b)] of [M]. *)
Definition rec_at (M : Matrix) (a b : nat) : Prop :=
  score M !!! at_ len2 a b = fst (new_cell M a b) /\
  dir M !!! at_ len2 a b = snd (new_cell M a b).

(** [M] has the right size, a zero border, and satisfies the recurrence
    on the cells of [D], a set of interior cells closed under taking
    predecessors. *)
Record Inv (D : nat -> nat -> Prop) (M : Matrix) : Prop := mkInv {
  inv_len_score : length (score M) = ((len1 + 1) * (len2 + 1))%nat;
  inv_len_dir : length (dir M) = ((len1 + 1) * (len2 + 1))%nat;
  inv_border : forall a b, (a <= len1)%nat -> (b <= len2)%nat ->
    a = 0%nat \/ b = 0%nat ->
    score M !!! at_ len2 a b = 0 /\ dir M !!! at_ len2 a b = 0;
  inv_rec : forall a b, interior a b -> D a b -> rec_at M a b;
  inv_closed : forall a b, interior a b -> D a b ->
    (interior (a - 1) b -> D (a - 1)%nat b) /\
    (interior a (b - 1) -> D a (b - 1)%nat) /\
    (interior (a - 1) (b - 1) -> D (a - 1)%nat (b - 1)%nat)
}.

Definition Filled (M : Matrix) : Prop := Inv (fun _ _ => True) M.
End RecurrenceDefs.

(** Cells below anti-diagonal [d], and those of [d] whose thread is in [P]. *)
Definition wave (d start_i : nat) (P : list (nat * nat)) (a b : nat) : Prop :=
  (a + b < d)%nat \/
  ((a + b = d)%nat /\
   exists bi t, (bi, t) ∈ P /\
     a = (start_i + (bi * Gpu.threadsPerBlock + t))%nat).

(** ** The update in the words of the specification *)

Definition DIR_NONE : Z := 0.
Definition DIR_DIAG : Z := 1.
Definition DIR_UP : Z := 2.
Definition DIR_LEFT : Z := 3.

(** The update in the words of the specification: the best score is
    [max(0, diag, up, left)]; the direction is the first of DIAG, UP, LEFT
    whose candidate equals the best score, and NONE when the best score
    is 0. *)
Definition spec_best (diag up left : Z) : Z :=
  Z.max 0 (Z.max diag (Z.max up left)).

Definition spec_direction (diag up left : Z) : Z :=
  let best := spec_best diag up left in
  if best =? 0 then DIR_NONE
  else if diag =? best then DIR_DIAG
  else if up =? best then DIR_UP
  else DIR_LEFT.

(** One update in the words of the specification: the cell [(i, j)] receives
    [max(0, diag, up, left)] and the direction chosen by [spec_direction],
    the candidates being read from the matrix before the update. *)
Definition spec_update (seq1 seq2 : list ascii) (len2 : nat)
    (matchScore mismatchScore gapScore : Z) (M : Matrix) (i j : nat) : Matrix :=
  let cell a b := score M !!! at_ len2 a b in
  let diag :=
    int_add (cell (i - 1)%nat (j - 1)%nat)
            (if char_eqb (seq1 !!! (i - 1)%nat) (seq2 !!! (j - 1)%nat)
             then matchScore else mismatchScore) in
  let up := int_add (cell (i - 1)%nat j) gapScore in
  let left := int_add (cell i (j - 1)%nat) gapScore in
  {| score := <[at_ len2 i j := spec_best diag up left]> (score M);
     dir := <[at_ len2 i j := spec_direction diag up left]> (dir M) |}.

(** The largest amount one update can add to a predecessor's score. *)
Definition max_gain (matchScore mismatchScore gapScore : Z) : Z :=
  Z.max 0 (Z.max matchScore (Z.max mismatchScore gapScore)).

(** ** The checksum in the words of the specification *)

Definition Zsum (l : list Z) : Z := foldr Z.add 0 l.

(** The checksum in the words of the specification: the sum over the
    positions [i] of [s] of [((i mod 57) + 1)] times the integer value of
    the uppercased symbol [s[i]], modulo 10000. *)
Definition spec_term (s : list ascii) (i : nat) : Z :=
  (Z.of_nat (i mod 57) + 1) * toupper (uchar (s !!! i)).

Definition spec_checksum (s : list ascii) : Z :=
  Zsum (map (spec_term s) (seq 0 (length s))) mod 10000.

(** ** The best cell *)

(** Row-major order on coordinates. *)
Definition before (a b a' b' : nat) : Prop :=
  (a < a')%nat \/ (a = a' /\ (b < b')%nat).

Section ScanDefs.
Variables (len2 : nat) (sc : list Z).

(** What the scan knows after the cells of [P]: the running maximum is 0
    and nothing positive was seen, or it is positive, is the score of
    [(mi, mj)], bounds every cell seen, and is strictly above every cell
    seen before [(mi, mj)]. *)
Definition scanned (P : nat -> nat -> Prop) (acc : Z * nat * nat) : Prop :=
  let '(mx, mi, mj) := acc in
  (forall a b, P a b -> sc !!! at_ len2 a b <= mx) /\
  ((mx = 0 /\ mi = 0%nat /\ mj = 0%nat) \/
   (0 < mx /\ P mi mj /\ sc !!! at_ len2 mi mj = mx /\
    forall a b, P a b -> before a b mi mj -> sc !!! at_ len2 a b < mx)).
End ScanDefs.

(** The returned coordinate is an interior cell holding the maximum over the
    interior cells, and the first such cell in row-major order. *)
Definition first_maximum (len1 len2 : nat) (sc : list Z) (mi mj : nat) : Prop :=
  interior len1 len2 mi mj /\
  (forall a b, interior len1 len2 a b ->
     sc !!! at_ len2 a b <= sc !!! at_ len2 mi mj) /\
  (forall a b, interior len1 len2 a b -> before a b mi mj ->
     sc !!! at_ len2 a b < sc !!! at_ len2 mi mj).

(** ** The traceback walk *)

(** The cells the traceback loop stands on, in order: the start, each cell
    moved to, the last one being the cell at which the loop is left.  It
    follows [Cpu.tb_loop] pass by pass. *)
Fixpoint tb_walk (seq1 seq2 : list ascii) (len2 : nat) (M : Matrix)
    (fuel : nat) (s : Cpu.tb_state) : list (nat * nat) :=
  (Cpu.ti s, Cpu.tj s) ::
  if Cpu.tb_cond s then
    match fuel with
    | O => []
    | S fuel' =>
        match Cpu.tb_body seq1 seq2 len2 M s with
        | Cpu.Stay => []
        | Cpu.Move s' true => [(Cpu.ti s', Cpu.tj s')]
        | Cpu.Move s' false => tb_walk seq1 seq2 len2 M fuel' s'
        end
    end
  else [].

(** ** The columns of an alignment *)

(** A residue: a symbol that is neither of the two gap symbols. *)
Definition residue (c : ascii) : bool :=
  negb (char_eqb c GAP_DASH) && negb (char_eqb c GAP_DOT).

(** An uppercase letter, the residue symbols of the data model. *)
Definition uppercase (c : ascii) : bool :=
  (65 <=? uchar c) && (uchar c <=? 90).

(** A column pushed by the traceback: a residue of [seq1] over a residue of
    [seq2], or a residue over a gap. *)
Definition column (x y : ascii) : Prop :=
  (residue x = true /\ residue y = true) \/
  (residue x = true /\ y = GAP_DASH) \/
  (x = GAP_DASH /\ residue y = true).

(** The alignment has strings of equal length and no column with a gap in
    both. *)
Definition no_double_gap (r : list ascii * list ascii * Z) : Prop :=
  let '(a1, a2, _) := r in
  length a1 = length a2 /\
  forall k, ~ (a1 !! k = Some GAP_DOT /\ a2 !! k = Some GAP_DOT).

(** ** The residue line of the claim *)

(** The padding as the claim has it, before the name. *)
Definition left_padded_line (name al : list ascii) (start end_ : nat)
  : list ascii :=
  Cpu.spaces (12 - length name) ++ name ++ Cpu.residues al start end_.

(** ** Notions used for the programs' further properties *)

(** The symbols of [l] at positions [a .. b - 1]. *)
Definition sublist (a b : nat) (l : list ascii) : list ascii :=
  take (b - a) (drop a l).

(** An aligned string without its gap symbols. *)
Definition degap (a : list ascii) : list ascii :=
  List.filter (fun c => negb (char_eqb c GAP_DOT)) a.

(** A line without its white space. *)
Definition strip_spaces (line : list ascii) : list ascii :=
  List.filter (fun c => negb (CpuProgram.isspace (uchar c))) line.

(** The score of one column of an alignment, and of an alignment. *)
Definition column_score (matchScore mismatchScore gapScore : Z) (x y : ascii) : Z :=
  if char_eqb x GAP_DOT || char_eqb y GAP_DOT then gapScore
  else if char_eqb x y then matchScore else mismatchScore.

Fixpoint pair_sum (f : ascii -> ascii -> Z) (a1 a2 : list ascii) : Z :=
  match a1, a2 with
  | x :: r1, y :: r2 => f x y + pair_sum f r1 r2
  | _, _ => 0
  end.

Definition alignment_score (matchScore mismatchScore gapScore : Z)
    (a1 a2 : list ascii) : Z :=
  pair_sum (column_score matchScore mismatchScore gapScore) a1 a2.

(** The score of a column as the traceback pushes it, the gap being [-]. *)
Definition pushed_score (matchScore mismatchScore gapScore : Z) (x y : ascii) : Z :=
  if char_eqb x GAP_DASH || char_eqb y GAP_DASH then gapScore
  else if char_eqb x y then matchScore else mismatchScore.

(** A gap symbol, or a letter of the nucleic acid alphabet in either case. *)
Definition nucleic (c : ascii) : bool :=
  char_eqb c GAP_DOT ||
  let u := toupper (uchar c) in
  (u =? 65) || (u =? 67) || (u =? 71) || (u =? 84) || (u =? 85) || (u =? 78).

(** ** Paths, data lines, traceback invariants and report blocks *)

(** The symbols that end the directory part of a path. *)
Definition is_separator (c : ascii) : bool :=
  char_eqb c CpuProgram.SLASH || char_eqb c CpuProgram.BACKSLASH.

(** The file name part of a path: nothing before it, or a directory part
    that ends with a separator; no separator in it. *)
Definition splits_path (dir file : list ascii) : Prop :=
  (dir = [] \/ exists d sep, dir = d ++ [sep] /\ is_separator sep = true) /\
  (forall c, c ∈ file -> is_separator c = false).

(** A symbol that is not white space. *)
Definition nonspace (c : ascii) : Prop := CpuProgram.isspace (uchar c) = false.

(** A line of sequence data as [std::getline] delivers it: no line feed in
    it, and not a header. *)
Definition data_line (l : list ascii) : Prop :=
  (CpuProgram.NEWLINE ∉ l) /\ CpuProgram.is_header l = false.

(** A symbol other than the gap symbol of the traceback. *)
Definition not_dash (c : ascii) : bool := negb (char_eqb c GAP_DASH).

(** The residues pushed so far are those between the current cell and the
    cell the traceback started from. *)
Definition covers (seq1 seq2 : list ascii) (i0 j0 : nat) (s : Cpu.tb_state)
  : Prop :=
  (Cpu.ti s <= i0)%nat /\ (Cpu.tj s <= j0)%nat /\
  List.filter not_dash (rev (Cpu.align1 s)) = sublist (Cpu.ti s) i0 seq1 /\
  List.filter not_dash (rev (Cpu.align2 s)) = sublist (Cpu.tj s) j0 seq2.

(** The score of the start cell is the score of the current cell plus the
    scores of the columns pushed so far. *)
Definition paid (len1 len2 : nat) (matchScore mismatchScore gapScore : Z)
    (M : Matrix) (i0 j0 : nat) (s : Cpu.tb_state) : Prop :=
  score M !!! at_ len2 i0 j0 =
    score M !!! at_ len2 (Cpu.ti s) (Cpu.tj s) +
    pair_sum (pushed_score matchScore mismatchScore gapScore)
      (Cpu.align1 s) (Cpu.align2 s) /\
  length (Cpu.align1 s) = length (Cpu.align2 s) /\
  (Cpu.ti s <= len1)%nat /\ (Cpu.tj s <= len2)%nat.

(** The first [m] residues from column [start], a space after every tenth. *)
Fixpoint chunked (al : list ascii) (start m : nat) : list ascii :=
  match m with
  | O => []
  | S m' =>
      chunked al start m' ++ [al !!! (start + m')%nat] ++
      (if (S m' mod 10 =? 0)%nat then [" "%char] else [])
  end.

(** The two sequences a run reads: both file arguments are given and both
    files can be opened; [seq1] and [seq2] are the sequences of their first
    records, before they are uppercased. *)
Definition reads (files : list ascii -> option (list ascii))
    (argv : list (list ascii)) (seq1 seq2 : list ascii) : Prop :=
  (3 <= length argv)%nat /\
  exists name1 name2,
    CpuProgram.readFastaFile (files (argv !!! 1%nat)) = Some (name1, seq1) /\
    CpuProgram.readFastaFile (files (argv !!! 2%nat)) = Some (name2, seq2).

(** The block of the two residue lines for the columns from [start]. *)
Definition report_block (name1 name2 align1 align2 : list ascii) (start : nat)
  : list ascii :=
  let end_ := Nat.min (start + 50) (length align1) in
  Cpu.residue_line name1 align1 start end_ ++ Cpu.nl ++
  Cpu.residue_line name2 align2 start end_ ++ Cpu.nl ++ Cpu.nl.

(** * Properties *)

(** ** Index arithmetic *)

Lemma wrap_int_exact z : INT_MIN <= z <= INT_MAX -> wrap_int z = z.
Proof.
  unfold wrap_int, INT_MIN, INT_MAX. intros H.
  rewrite Z.mod_small; lia.
Qed.

Lemma at_lt len1 len2 a b :
  (a <= len1)%nat -> (b <= len2)%nat ->
  (at_ len2 a b < (len1 + 1) * (len2 + 1))%nat.
Proof. unfold at_. nia. Qed.

Lemma at_inj len2 a b a' b' :
  (b <= len2)%nat -> (b' <= len2)%nat ->
  at_ len2 a b = at_ len2 a' b' -> a = a' /\ b = b'.
Proof.
  unfold at_. intros Hb Hb' Heq.
  destruct (Nat.lt_trichotomy a a') as [Hlt | [-> | Hgt]]; [| lia |].
  - assert ((a + 1) * (len2 + 1) <= a' * (len2 + 1))%nat
      by (apply Nat.mul_le_mono_r; lia).
    lia.
  - assert ((a' + 1) * (len2 + 1) <= a * (len2 + 1))%nat
      by (apply Nat.mul_le_mono_r; lia).
    lia.
Qed.

Lemma at_split len1 len2 k :
  (k < (len1 + 1) * (len2 + 1))%nat ->
  exists a b, (a <= len1)%nat /\ (b <= len2)%nat /\ k = at_ len2 a b.
Proof.
  intros Hk. exists (k / (len2 + 1))%nat, (k mod (len2 + 1))%nat.
  assert (Hpos : (len2 + 1 <> 0)%nat) by lia.
  pose proof (Nat.div_mod k (len2 + 1) Hpos) as Hdm.
  pose proof (Nat.mod_upper_bound k (len2 + 1) Hpos) as Hub.
  unfold at_. split; [|split]; [|lia|lia].
  apply Nat.lt_succ_r. apply Nat.Div0.div_lt_upper_bound. lia.
Qed.

(** ** The recurrence determines the matrices *)

Section Recurrence.
Variables (seq1 seq2 : list ascii) (len1 len2 : nat).
Variables (matchScore mismatchScore gapScore : Z).

#[local] Abbreviation subst_score :=
  (subst_score seq1 seq2 matchScore mismatchScore).
#[local] Abbreviation cand_diag :=
  (cand_diag seq1 seq2 len2 matchScore mismatchScore).
#[local] Abbreviation cand_up := (cand_up len2 gapScore).
#[local] Abbreviation cand_left := (cand_left len2 gapScore).
#[local] Abbreviation new_cell :=
  (new_cell seq1 seq2 len2 matchScore mismatchScore gapScore).
#[local] Abbreviation write_cell :=
  (write_cell seq1 seq2 len2 matchScore mismatchScore gapScore).
#[local] Abbreviation interior := (interior len1 len2).
#[local] Abbreviation rec_at :=
  (rec_at seq1 seq2 len2 matchScore mismatchScore gapScore).
#[local] Abbreviation Inv :=
  (Inv seq1 seq2 len1 len2 matchScore mismatchScore gapScore).
#[local] Abbreviation Filled :=
  (Filled seq1 seq2 len1 len2 matchScore mismatchScore gapScore).

Lemma alloc_inv : Inv (fun _ _ => False) (alloc len1 len2).
Proof.
  split; simpl; try (by rewrite length_replicate); try tauto.
  intros a b Ha Hb _.
  pose proof (at_lt len1 len2 a b Ha Hb).
  by rewrite !lookup_total_replicate_2.
Qed.

Lemma Inv_ext D D' M :
  (forall a b, interior a b -> (D a b <-> D' a b)) -> Inv D M -> Inv D' M.
Proof.
  intros HD [Hls Hld Hb Hr Hc]. split; auto.
  - intros a b Hi Hd. apply Hr; auto. by apply HD.
  - intros a b Hi Hd. apply HD in Hd; auto.
    destruct (Hc a b Hi Hd) as (H1 & H2 & H3).
    repeat split; intros Hi'; apply HD; auto.
Qed.

(** Reading the matrices after one update. *)
Lemma write_cell_other M i j a b :
  (b <= len2)%nat -> (j <= len2)%nat -> (a, b) <> (i, j) ->
  score (write_cell M i j) !!! at_ len2 a b = score M !!! at_ len2 a b /\
  dir (write_cell M i j) !!! at_ len2 a b = dir M !!! at_ len2 a b.
Proof.
  intros Hb Hj Hne. simpl.
  assert (at_ len2 i j <> at_ len2 a b).
  { intros Heq. apply at_inj in Heq; auto. destruct Heq; congruence. }
  by rewrite !list_lookup_total_insert_ne.
Qed.

Lemma write_cell_this D M i j :
  Inv D M -> (i <= len1)%nat -> (j <= len2)%nat ->
  score (write_cell M i j) !!! at_ len2 i j = fst (new_cell M i j) /\
  dir (write_cell M i j) !!! at_ len2 i j = snd (new_cell M i j).
Proof.
  intros HI Hi Hj. simpl.
  pose proof (at_lt len1 len2 i j Hi Hj).
  rewrite !list_lookup_total_insert_eq; auto.
  - by rewrite (inv_len_dir _ _ _ _ _ _ _ _ _ HI).
  - by rewrite (inv_len_score _ _ _ _ _ _ _ _ _ HI).
Qed.

(** The score of a cell that is unchanged by the update: any other cell,
    and the cell itself when the recurrence already held there. *)
Lemma write_cell_score_same D M i j a b :
  Inv D M -> interior i j -> (b <= len2)%nat ->
  ((a, b) <> (i, j) \/ D i j) ->
  score (write_cell M i j) !!! at_ len2 a b = score M !!! at_ len2 a b.
Proof.
  intros HI Hij Hb Hcase.
  destruct (decide ((a, b) = (i, j))) as [Heq | Hne].
  - destruct Hcase as [? | HD]; [done |]. inversion Heq; subst.
    destruct Hij as [? ?].
    destruct (write_cell_this D M i j HI) as [-> _]; [lia | lia |].
    symmetry. by apply (inv_rec _ _ _ _ _ _ _ _ _ HI).
  - apply write_cell_other; auto. destruct Hij; lia.
Qed.

Lemma new_cell_same D M i j a b :
  Inv D M -> interior i j -> interior a b ->
  ((a, b) = (i, j) \/ D a b) ->
  new_cell (write_cell M i j) a b = new_cell M a b.
Proof.
  intros HI Hij Hab Hcase.
  assert (Hpred : forall a' b', (a' <= a)%nat -> (b' <= b)%nat ->
            (a', b') <> (a, b) ->
            (interior a' b' -> (a', b') = (a - 1, b)%nat \/
               (a', b') = (a, b - 1)%nat \/ (a', b') = (a - 1, b - 1)%nat) ->
            score (write_cell M i j) !!! at_ len2 a' b' =
            score M !!! at_ len2 a' b').
  { intros a' b' Ha' Hb' Hne Hshape.
    apply (write_cell_score_same D); auto; [destruct Hab; lia |].
    destruct (decide ((a', b') = (i, j))) as [Heq | ?]; [| by left].
    right. inversion Heq; subst a' b'.
    destruct Hcase as [Hc | HD].
    - inversion Hc; subst. congruence.
    - destruct (inv_closed _ _ _ _ _ _ _ _ _ HI a b Hab HD) as (H1 & H2 & H3).
      destruct (Hshape Hij) as [E | [E | E]]; inversion E; subst; auto. }
  destruct Hab as [[? ?] [? ?]].
  unfold new_cell, cand_diag, cand_up, cand_left.
  rewrite !Hpred; auto; try lia; try (intros E; inversion E; lia).
Qed.

(** One update extends the set of cells on which the recurrence holds. *)
Lemma write_cell_inv D M i j :
  Inv D M -> interior i j ->
  (interior (i - 1) j -> D (i - 1)%nat j) ->
  (interior i (j - 1) -> D i (j - 1)%nat) ->
  (interior (i - 1) (j - 1) -> D (i - 1)%nat (j - 1)%nat) ->
  Inv (fun a b => D a b \/ (a = i /\ b = j)) (write_cell M i j).
Proof.
  intros HI Hij Hu Hl Hd.
  pose proof HI as [Hls Hld Hb Hr Hc].
  split.
  - simpl. by rewrite length_insert.
  - simpl. by rewrite length_insert.
  - intros a b Ha Hbb Hz.
    destruct (write_cell_other M i j a b) as [-> ->]; auto.
    + destruct Hij; lia.
    + intros E; inversion E; subst. destruct Hij; lia.
  - intros a b Hab HD'. unfold rec_at.
    rewrite (new_cell_same D); auto.
    2:{ destruct HD' as [? | [-> ->]]; auto. }
    destruct (decide ((a, b) = (i, j))) as [Heq | Hne].
    + inversion Heq; subst. apply (write_cell_this D); auto; destruct Hij; lia.
    + destruct (write_cell_other M i j a b) as [-> ->]; auto.
      * destruct Hab; lia.
      * destruct Hij; lia.
      * destruct HD' as [HD | [-> ->]]; [| done]. by apply Hr.
  - intros a b Hab [HD | [-> ->]].
    + destruct (Hc a b Hab HD) as (H1 & H2 & H3). auto.
    + auto.
Qed.
(** The recurrence determines the matrices. *)
Lemma Filled_score_eq M1 M2 :
  Filled M1 -> Filled M2 ->
  forall n a b, (a + b <= n)%nat -> (a <= len1)%nat -> (b <= len2)%nat ->
    score M1 !!! at_ len2 a b = score M2 !!! at_ len2 a b.
Proof.
  intros H1 H2. induction n as [| n IH]; intros a b Hn Ha Hb.
  - destruct (inv_border _ _ _ _ _ _ _ _ _ H1 a b) as [-> _]; [lia .. |].
    destruct (inv_border _ _ _ _ _ _ _ _ _ H2 a b) as [-> _]; [lia .. |]. done.
  - destruct (decide (a = 0%nat \/ b = 0%nat)) as [Hz | Hnz].
    + destruct (inv_border _ _ _ _ _ _ _ _ _ H1 a b) as [-> _]; auto.
      destruct (inv_border _ _ _ _ _ _ _ _ _ H2 a b) as [-> _]; auto.
    + assert (Hi : interior a b) by (unfold interior; lia).
      destruct (inv_rec _ _ _ _ _ _ _ _ _ H1 a b Hi I) as [-> _].
      destruct (inv_rec _ _ _ _ _ _ _ _ _ H2 a b Hi I) as [-> _].
      unfold new_cell, cand_diag, cand_up, cand_left.
      rewrite !(IH (a - 1)%nat), !(IH a (b - 1)%nat); auto; lia.
Qed.

Lemma Filled_unique M1 M2 : Filled M1 -> Filled M2 -> M1 = M2.
Proof.
  intros H1 H2.
  assert (Hs : forall a b, (a <= len1)%nat -> (b <= len2)%nat ->
            score M1 !!! at_ len2 a b = score M2 !!! at_ len2 a b).
  { intros a b. by apply (Filled_score_eq M1 M2 H1 H2 (a + b)). }
  assert (Hd : forall a b, (a <= len1)%nat -> (b <= len2)%nat ->
            dir M1 !!! at_ len2 a b = dir M2 !!! at_ len2 a b).
  { intros a b Ha Hb.
    destruct (decide (a = 0%nat \/ b = 0%nat)) as [Hz | Hnz].
    - destruct (inv_border _ _ _ _ _ _ _ _ _ H1 a b) as [_ ->]; auto.
      destruct (inv_border _ _ _ _ _ _ _ _ _ H2 a b) as [_ ->]; auto.
    - assert (Hi : interior a b) by (unfold interior; lia).
      destruct (inv_rec _ _ _ _ _ _ _ _ _ H1 a b Hi I) as [_ ->].
      destruct (inv_rec _ _ _ _ _ _ _ _ _ H2 a b Hi I) as [_ ->].
      unfold new_cell, cand_diag, cand_up, cand_left.
      rewrite !(Hs (a - 1)%nat), !(Hs a (b - 1)%nat); auto; lia. }
  destruct M1 as [s1 d1], M2 as [s2 d2]. simpl in *. f_equal.
  - apply (list_eq_same_length _ _ ((len1 + 1) * (len2 + 1))%nat);
      [apply (inv_len_score _ _ _ _ _ _ _ _ _ H2) | apply (inv_len_score _ _ _ _ _ _ _ _ _ H1) |].
    intros k x y Hk Hx Hy.
    destruct (at_split len1 len2 k Hk) as (a & b & Ha & Hb & ->).
    apply list_lookup_total_correct in Hx, Hy. subst. by apply Hs.
  - apply (list_eq_same_length _ _ ((len1 + 1) * (len2 + 1))%nat);
      [apply (inv_len_dir _ _ _ _ _ _ _ _ _ H2) | apply (inv_len_dir _ _ _ _ _ _ _ _ _ H1) |].
    intros k x y Hk Hx Hy.
    destruct (at_split len1 len2 k Hk) as (a & b & Ha & Hb & ->).
    apply list_lookup_total_correct in Hx, Hy. subst. by apply Hd.
Qed.
End Recurrence.

Lemma fill_cell_write seq1 seq2 len2 m mm g M i j :
  Cpu.fill_cell seq1 seq2 len2 m mm g M i j = write_cell seq1 seq2 len2 m mm g M i j.
Proof.
  unfold Cpu.fill_cell, write_cell, new_cell, cell_rule, cand_diag, cand_up,
    cand_left, subst_score.
  repeat (match goal with |- context [if ?c then _ else _] => destruct c end;
          cbn [fst snd]); reflexivity.
Qed.

Lemma sw_kernel_write seq1 seq2 len2 diag start_i end_i m mm g b bd t M :
  Gpu.sw_kernel seq1 seq2 len2 diag start_i end_i m mm g b bd t M =
  let i := (start_i + (b * bd + t))%nat in
  if (end_i <? i)%nat then M
  else write_cell seq1 seq2 len2 m mm g M i (diag - i).
Proof.
  unfold Gpu.sw_kernel, write_cell, new_cell, cell_rule, cand_diag, cand_up,
    cand_left, subst_score.
  repeat (match goal with |- context [if ?c then _ else _] => destruct c end;
          cbn [fst snd]); reflexivity.
Qed.

(** ** The row-major fill satisfies the recurrence everywhere *)

Section CpuFill.
Variables (seq1 seq2 : list ascii) (len1 len2 : nat).
Variables (matchScore mismatchScore gapScore : Z).

Let inv := Inv seq1 seq2 len1 len2 matchScore mismatchScore gapScore.
Let fill_cell := Cpu.fill_cell seq1 seq2 len2 matchScore mismatchScore gapScore.
Let fill_row := Cpu.fill_row seq1 seq2 len2 matchScore mismatchScore gapScore.
Let cpu_fill := Cpu.fill seq1 seq2 len2 matchScore mismatchScore gapScore.

Lemma fill_row_prefix_inv M i k :
  (1 <= i <= len1)%nat -> (k <= len2)%nat ->
  inv (fun a _ => (a < i)%nat) M ->
  inv (fun a b => (a < i)%nat \/ (a = i /\ (b <= k)%nat))
      (foldl (fun M j => fill_cell M i j) M (seq 1 k)).
Proof.
  intros Hi Hk HM. induction k as [| k IH].
  - simpl. eapply Inv_ext; [| exact HM].
    unfold interior. intros a b ?. lia.
  - rewrite seq_S, foldl_snoc. unfold fill_cell at 1.
    rewrite fill_cell_write.
    eapply Inv_ext; [| apply write_cell_inv; [apply IH; lia | ..]].
    + unfold interior. intros a b ?. simpl. lia.
    + unfold interior. lia.
    + unfold interior. lia.
    + unfold interior. lia.
    + unfold interior. lia.
Qed.

Lemma fill_rows_inv n :
  (n <= len1)%nat ->
  inv (fun a _ => (a <= n)%nat) (foldl fill_row (alloc len1 len2) (seq 1 n)).
Proof.
  intros Hn. induction n as [| n IH].
  - simpl. eapply Inv_ext; [| apply alloc_inv].
    unfold interior. intros a b ?. lia.
  - rewrite seq_S, foldl_snoc. unfold fill_row at 1, Cpu.fill_row.
    eapply Inv_ext; [| apply (fill_row_prefix_inv _ (1 + n) len2)].
    + unfold interior. intros a b ?. simpl. lia.
    + lia.
    + lia.
    + eapply Inv_ext; [| apply IH; lia].
      unfold interior. intros a b ?. simpl. lia.
Qed.

Lemma cpu_fill_Filled :
  Filled seq1 seq2 len1 len2 matchScore mismatchScore gapScore
         (cpu_fill len1 (alloc len1 len2)).
Proof.
  unfold Filled. eapply Inv_ext; [| apply (fill_rows_inv len1); lia].
  unfold interior. intros a b ?. simpl. intuition lia.
Qed.
End CpuFill.

(** ** The wavefront fill satisfies the recurrence everywhere *)

Lemma elem_of_grid blocks blockDim b t :
  (b, t) ∈ Gpu.grid blocks blockDim <-> (b < blocks)%nat /\ (t < blockDim)%nat.
Proof.
  unfold Gpu.grid. rewrite list_elem_of_bind. split.
  - intros (b' & Hin & Hb). apply list_elem_of_bind in Hin.
    destruct Hin as (t' & Hin & Ht).
    apply list_elem_of_singleton in Hin. inversion Hin; subst.
    apply elem_of_seq in Hb, Ht. lia.
  - intros [Hb Ht]. exists b. split; [| apply elem_of_seq; lia].
    apply list_elem_of_bind. exists t. split; [| apply elem_of_seq; lia].
    by apply list_elem_of_singleton.
Qed.

Section GpuFill.
Variables (sched : Gpu.scheduler).
Hypothesis sched_fair : Gpu.fair sched.
Variables (seq1 seq2 : list ascii) (len1 len2 : nat).
Variables (matchScore mismatchScore gapScore : Z).

Let inv := Inv seq1 seq2 len1 len2 matchScore mismatchScore gapScore.

Lemma launch_inv d start_i end_i :
  (1 <= start_i)%nat -> (d - len2 <= start_i)%nat ->
  (end_i <= len1)%nat -> (end_i <= d - 1)%nat ->
  (forall a b, interior len1 len2 a b -> (a + b)%nat = d -> (a <= end_i)%nat) ->
  forall order P M,
    inv (wave d start_i P) M ->
    inv (wave d start_i (P ++ order))
        (Gpu.launch order Gpu.threadsPerBlock
           (Gpu.sw_kernel seq1 seq2 len2 d start_i end_i
                          matchScore mismatchScore gapScore) M).
Proof.
  intros Hs1 Hs2 He1 He2 Hend.
  induction order as [| [bi t] order IH]; intros P M HM.
  - simpl. by rewrite app_nil_r.
  - unfold Gpu.launch. simpl.
    replace (P ++ (bi, t) :: order) with ((P ++ [(bi, t)]) ++ order)
      by (by rewrite <- app_assoc).
    apply IH. rewrite sw_kernel_write. cbv zeta.
    set (i := (start_i + (bi * Gpu.threadsPerBlock + t))%nat).
    destruct (Nat.ltb_spec end_i i) as [Hout | Hin].
    + eapply Inv_ext; [| exact HM].
      intros a b Hab. unfold wave. split.
      * intros [? | (? & bi' & t' & Hel & ->)]; [by left | right].
        split; [done |]. exists bi', t'. split; [| done].
        apply elem_of_app. by left.
      * intros [? | (Hd & bi' & t' & Hel & Ha)]; [by left | right].
        split; [done |]. exists bi', t'. split; [| done].
        apply elem_of_app in Hel. destruct Hel as [? | Hel]; [done |].
        apply list_elem_of_singleton in Hel. inversion Hel; subst bi' t'.
        specialize (Hend a b Hab Hd). fold i in Ha. lia.
    + eapply Inv_ext; [| apply write_cell_inv; [exact HM | ..]].
      * intros a b Hab. unfold wave. split.
        -- intros [[? | (? & bi' & t' & Hel & ->)] | [-> ->]].
           ++ by left.
           ++ right. split; [done |]. exists bi', t'. split; [| done].
              apply elem_of_app. by left.
           ++ right. split; [lia |]. exists bi, t. split; [| done].
              apply elem_of_app. right. by apply list_elem_of_singleton.
        -- intros [? | (Hd & bi' & t' & Hel & Ha)]; [left; by left |].
           apply elem_of_app in Hel. destruct Hel as [? | Hel].
           ++ left. right. split; [done |]. by exists bi', t'.
           ++ apply list_elem_of_singleton in Hel.
              inversion Hel; subst bi' t'. fold i in Ha. right. lia.
      * unfold interior. lia.
      * intros _. left. lia.
      * intros _. left. lia.
      * intros _. left. lia.
Qed.

Lemma diag_step_inv d M :
  (2 <= d)%nat ->
  inv (fun a b => (a + b < d)%nat) M ->
  inv (fun a b => (a + b < S d)%nat)
      (Gpu.diag_step sched seq1 seq2 len1 len2
                     matchScore mismatchScore gapScore M d).
Proof.
  intros Hd HM. unfold Gpu.diag_step.
  set (s0 := (if (len2 + 1 <? d)%nat then (d - (len2 + 1) + 1)%nat else 1%nat)).
  set (start_i := (if (s0 <? 1)%nat then 1%nat else s0)).
  set (e0 := (if (d - 1 <? len1)%nat then (d - 1)%nat else len1)).
  set (end_i := (if (len1 <? e0)%nat then len1 else e0)).
  assert (Hstart : start_i = Nat.max 1 (d - len2)).
  { unfold start_i, s0.
    destruct (Nat.ltb_spec (len2 + 1) d);
      match goal with |- context [(?x <? 1)%nat] =>
        destruct (Nat.ltb_spec x 1) end; lia. }
  assert (Hend : end_i = Nat.min (d - 1) len1).
  { unfold end_i, e0.
    destruct (Nat.ltb_spec (d - 1) len1);
      match goal with |- context [(len1 <? ?x)%nat] =>
        destruct (Nat.ltb_spec len1 x) end; lia. }
  clearbody start_i end_i. clear s0 e0.
  destruct ((len1 <? start_i)%nat || (end_i <? start_i)%nat) eqn:Hgo;
    [rename Hgo into Hskip |].
  - eapply Inv_ext; [| exact HM].
    intros a b [? ?].
    assert (Hs : (len1 < start_i \/ end_i < start_i)%nat).
    { apply orb_true_iff in Hskip.
      destruct Hskip as [H1 | H1]; apply Nat.ltb_lt in H1; auto. }
    lia.
  - apply orb_false_iff in Hgo. destruct Hgo as [H1 H2].
    apply Nat.ltb_ge in H1, H2.
    set (totalCells := (end_i - start_i + 1)%nat).
    set (blocks := ((totalCells + Gpu.threadsPerBlock - 1) / Gpu.threadsPerBlock)%nat).
    set (order := sched d blocks Gpu.threadsPerBlock).
    eapply Inv_ext; [| apply (launch_inv d start_i end_i) with (P := []) (order := order)].
    + intros a b Hab. unfold wave. simpl. split.
      * intros [? | (? & _)]; lia.
      * intros Hlt.
        destruct (decide (a + b < d)%nat) as [? | Hge]; [by left | right].
        split; [lia |].
        destruct Hab as [? ?].
        set (idx := (a - start_i)%nat).
        exists (idx / Gpu.threadsPerBlock)%nat, (idx mod Gpu.threadsPerBlock)%nat.
        assert (Hidx : (idx < totalCells)%nat) by (unfold idx, totalCells; lia).
        assert (Htpb : Gpu.threadsPerBlock = 256%nat) by reflexivity.
        pose proof (Nat.div_mod idx 256 ltac:(lia)) as Hdm.
        pose proof (Nat.mod_upper_bound idx 256 ltac:(lia)) as Hmu.
        split.
        -- unfold order. rewrite (sched_fair d blocks Gpu.threadsPerBlock).
           apply elem_of_grid. rewrite Htpb. split; [| lia].
           unfold blocks. rewrite Htpb.
           apply Nat.Div0.div_lt_upper_bound.
           pose proof (Nat.div_mod (totalCells + 256 - 1) 256 ltac:(lia)) as Hdm'.
           pose proof (Nat.mod_upper_bound (totalCells + 256 - 1) 256 ltac:(lia)).
           lia.
        -- rewrite Htpb. unfold idx in *. lia.
    + lia.
    + lia.
    + lia.
    + lia.
    + intros a b [? ?] ?. lia.
    + eapply Inv_ext; [| exact HM].
      intros a b Hab. unfold wave. split.
      * by left.
      * intros [? | (_ & bi & t & Hel & _)]; [done |].
        by apply elem_of_nil in Hel.
Qed.

Lemma gpu_diags_inv n :
  inv (fun a b => (a + b < 2 + n)%nat)
      (foldl (Gpu.diag_step sched seq1 seq2 len1 len2
                            matchScore mismatchScore gapScore)
             (alloc len1 len2) (seq 2 n)).
Proof.
  induction n as [| n IH].
  - simpl. eapply Inv_ext; [| apply alloc_inv].
    unfold interior. intros a b ?. lia.
  - rewrite seq_S, foldl_snoc.
    replace (2 + S n)%nat with (S (2 + n)) by lia.
    apply diag_step_inv; [lia | exact IH].
Qed.

Lemma gpu_fill_Filled :
  Filled seq1 seq2 len1 len2 matchScore mismatchScore gapScore
         (Gpu.fill sched seq1 seq2 len1 len2
                   matchScore mismatchScore gapScore (alloc len1 len2)).
Proof.
  unfold Filled, Gpu.fill. eapply Inv_ext; [| apply gpu_diags_inv].
  unfold interior. intros a b ?. simpl. intuition lia.
Qed.
End GpuFill.

(** ** Termination of the traceback *)

Section TracebackFacts.
Variables (seq1 seq2 : list ascii) (len2 : nat) (M : Matrix).

Let body := Cpu.tb_body seq1 seq2 len2 M.

(** A pass through the loop body that moves follows the direction stored in
    the current cell. *)
Lemma tb_body_Move s s' stop :
  body s = Cpu.Move s' stop ->
  let d := dir M !!! at_ len2 (Cpu.ti s) (Cpu.tj s) in
  stop = (score M !!! at_ len2 (Cpu.ti s') (Cpu.tj s') =? 0) /\
  ((d = 1 /\
    s' = Cpu.mkTb (Cpu.ti s - 1) (Cpu.tj s - 1)
           (Cpu.align1 s ++ [seq1 !!! (Cpu.ti s - 1)%nat])
           (Cpu.align2 s ++ [seq2 !!! (Cpu.tj s - 1)%nat])) \/
   (d = 2 /\
    s' = Cpu.mkTb (Cpu.ti s - 1) (Cpu.tj s)
           (Cpu.align1 s ++ [seq1 !!! (Cpu.ti s - 1)%nat])
           (Cpu.align2 s ++ [GAP_DASH])) \/
   (d = 3 /\
    s' = Cpu.mkTb (Cpu.ti s) (Cpu.tj s - 1)
           (Cpu.align1 s ++ [GAP_DASH])
           (Cpu.align2 s ++ [seq2 !!! (Cpu.tj s - 1)%nat]))).
Proof.
  intros H. unfold body, Cpu.tb_body in H. cbv zeta in *.
  set (d := dir M !!! at_ len2 (Cpu.ti s) (Cpu.tj s)) in *.
  destruct (Z.eqb_spec d 0); [discriminate |].
  destruct (Z.eqb_spec d 1); [inversion H; subst; auto |].
  destruct (Z.eqb_spec d 2); [inversion H; subst; auto |].
  destruct (Z.eqb_spec d 3); [inversion H; subst; auto 6 |].
  discriminate.
Qed.

Lemma tb_body_decreases s s' stop :
  Cpu.tb_cond s = true -> body s = Cpu.Move s' stop ->
  (Cpu.ti s' + Cpu.tj s' < Cpu.ti s + Cpu.tj s)%nat.
Proof.
  unfold Cpu.tb_cond. intros Hc Hb.
  apply andb_true_iff in Hc. destruct Hc as [H1 H2].
  apply Nat.ltb_lt in H1, H2.
  apply tb_body_Move in Hb. destruct Hb as [_ [[_ ->] | [[_ ->] | [_ ->]]]];
    simpl; lia.
Qed.

(** The loop ends within [ti + tj] passes. *)
Lemma tb_loop_total fuel s :
  (Cpu.ti s + Cpu.tj s <= fuel)%nat ->
  is_Some (Cpu.tb_loop seq1 seq2 len2 M fuel s).
Proof.
  revert s. induction fuel as [| fuel IH]; intros s Hf; simpl.
  - destruct (Cpu.tb_cond s) eqn:Hc; [| eauto].
    unfold Cpu.tb_cond in Hc. apply andb_true_iff in Hc.
    destruct Hc as [H1 H2]. apply Nat.ltb_lt in H1, H2. lia.
  - destruct (Cpu.tb_cond s) eqn:Hc; [| eauto].
    destruct (Cpu.tb_body seq1 seq2 len2 M s) as [| s' [|]] eqn:Hb; eauto.
    apply IH. pose proof (tb_body_decreases s s' false Hc Hb). lia.
Qed.
End TracebackFacts.

Lemma finish_total seq1 seq2 M : is_Some (Cpu.finish seq1 seq2 M).
Proof.
  unfold Cpu.finish.
  destruct (Cpu.locate _ _ _) as [[maxScore max_i] max_j].
  destruct (tb_loop_total seq1 seq2 (length seq2) M (max_i + max_j)
              (Cpu.mkTb max_i max_j [] [])) as [s ->]; simpl; eauto.
Qed.

(** ** Schedulers *)

Lemma fair_in_order : Gpu.fair Gpu.in_order.
Proof. intros d b t. reflexivity. Qed.

Lemma fair_reversed : Gpu.fair Gpu.reversed.
Proof. intros d b t. unfold Gpu.reversed. symmetry. apply Permutation_rev. Qed.

(** ** Equivalence of the two fills *)

(** Within [fits] the [int]s of the source hold the natural numbers of the
    definitions. *)
Lemma fits_bounds len1 len2 :
  fits len1 len2 -> Z.of_nat len1 < INT_MAX /\ Z.of_nat len2 < INT_MAX.
Proof. unfold fits, INT_MAX. nia. Qed.

Lemma int_length_exact s :
  Z.of_nat (length s) <= INT_MAX -> int_length s = Z.of_nat (length s).
Proof.
  intros H. unfold int_length. apply wrap_int_exact. unfold INT_MIN. lia.
Qed.

Lemma cell_count_fits len1 len2 :
  fits len1 len2 ->
  cell_count (Z.of_nat len1) (Z.of_nat len2) =
  (Z.of_nat len1 + 1) * (Z.of_nat len2 + 1).
Proof.
  intros Hfit. pose proof (fits_bounds _ _ Hfit) as [H1 H2].
  unfold fits in Hfit. unfold cell_count, int_mul, int_add.
  rewrite (wrap_int_exact (Z.of_nat len1 + 1)) by (unfold INT_MIN; lia).
  rewrite (wrap_int_exact (Z.of_nat len2 + 1)) by (unfold INT_MIN; lia).
  apply wrap_int_exact. unfold INT_MIN. nia.
Qed.

Lemma cell_count_exact len1 len2 :
  fits len1 len2 ->
  cell_count (Z.of_nat len1) (Z.of_nat len2) =
  Z.of_nat (length (score (alloc len1 len2))) /\
  length (dir (alloc len1 len2)) = length (score (alloc len1 len2)).
Proof.
  intros Hfit. rewrite cell_count_fits by done. simpl.
  rewrite !length_replicate. split; [lia | done].
Qed.

Lemma index_exact len1 len2 i j :
  fits len1 len2 -> (i <= len1)%nat -> (j <= len2)%nat ->
  int_index (Z.of_nat len2) (Z.of_nat i) (Z.of_nat j) = Z.of_nat (at_ len2 i j).
Proof.
  intros Hfit Hi Hj. pose proof (fits_bounds _ _ Hfit) as [H1 H2].
  pose proof (at_lt len1 len2 i j Hi Hj) as Hlt.
  unfold fits in Hfit. unfold at_ in *. unfold int_index, int_mul, int_add.
  rewrite (wrap_int_exact (Z.of_nat len2 + 1)) by (unfold INT_MIN; lia).
  rewrite (wrap_int_exact (Z.of_nat i * _)) by (unfold INT_MIN; nia).
  rewrite wrap_int_exact by (unfold INT_MIN; nia). lia.
Qed.

Lemma smithWaterman_fits seq1 seq2 matchScore mismatchScore gapScore :
  fits (length seq1) (length seq2) ->
  CpuProgram.smithWaterman seq1 seq2 matchScore mismatchScore gapScore =
  match Cpu.smithWaterman seq1 seq2 matchScore mismatchScore gapScore with
  | None => None
  | Some r => Some (Returns r)
  end.
Proof.
  intros Hfit. pose proof (fits_bounds _ _ Hfit) as [H1 H2].
  unfold CpuProgram.smithWaterman.
  rewrite !int_length_exact by lia. rewrite cell_count_fits by done.
  unfold fits in Hfit.
  destruct (Z.ltb_spec ((Z.of_nat (length seq1) + 1) *
                        (Z.of_nat (length seq2) + 1)) 0); [nia |].
  destruct (Z.eqb_spec (Z.of_nat (length seq1)) INT_MAX); [lia |].
  destruct (Z.eqb_spec (Z.of_nat (length seq2)) INT_MAX); [lia |].
  rewrite andb_false_r. cbn [orb].
  destruct (Z.leb_spec ((Z.of_nat (length seq1) + 1) *
                        (Z.of_nat (length seq2) + 1)) INT_MAX); [| lia].
  cbn [orb]. by rewrite !Nat2Z.id, !firstn_all.
Qed.

Lemma align_fits sched seq1 seq2 matchScore mismatchScore gapScore :
  fits (length seq1) (length seq2) ->
  GpuProgram.align sched seq1 seq2 matchScore mismatchScore gapScore =
  match Gpu.align sched seq1 seq2 matchScore mismatchScore gapScore with
  | None => None
  | Some r => Some (Returns r)
  end.
Proof.
  intros Hfit. pose proof (fits_bounds _ _ Hfit) as [H1 H2].
  unfold GpuProgram.align.
  rewrite !int_length_exact by lia. rewrite cell_count_fits by done.
  unfold fits in Hfit.
  destruct (Z.ltb_spec (Z.of_nat (length seq1)) 0); [lia |].
  destruct (Z.ltb_spec (Z.of_nat (length seq2)) 0); [lia |].
  cbn [orb].
  destruct (Z.ltb_spec INT_MAX ((Z.of_nat (length seq1) + 1) *
                                (Z.of_nat (length seq2) + 1) - 1)); [lia |].
  destruct (Z.eqb_spec (Z.of_nat (length seq1) + Z.of_nat (length seq2))
                       INT_MAX); [nia |].
  destruct (Z.ltb_spec ((Z.of_nat (length seq1) + 1) *
                        (Z.of_nat (length seq2) + 1)) 0); [nia |].
  by rewrite !Nat2Z.id, !firstn_all.
Qed.

Lemma gpu_fill_cpu_fill sched seq1 seq2 matchScore mismatchScore gapScore :
  Gpu.fair sched ->
  Gpu.fill_matrix sched seq1 seq2 matchScore mismatchScore gapScore =
  Cpu.fill_matrix seq1 seq2 matchScore mismatchScore gapScore.
Proof.
  intros Hfair. unfold Gpu.fill_matrix, Cpu.fill_matrix.
  eapply Filled_unique; [by apply gpu_fill_Filled | apply cpu_fill_Filled].
Qed.




(** ** The update rule as a maximum *)

(** Case analysis on the innermost comparison of the goal. *)
Ltac case_gtb :=
  match goal with
  | |- context [?x >? ?y] =>
      lazymatch y with
      | context [if _ then _ else _] => fail
      | _ => destruct (Z.gtb_spec x y); cbn [fst snd]
      end
  end.

Lemma cell_rule_best d u l : fst (cell_rule d u l) = spec_best d u l.
Proof.
  unfold cell_rule, spec_best.
  repeat case_gtb; lia.
Qed.

Lemma cell_rule_direction d u l : snd (cell_rule d u l) = spec_direction d u l.
Proof.
  unfold spec_direction. rewrite <- cell_rule_best.
  unfold cell_rule, DIR_NONE, DIR_DIAG, DIR_UP, DIR_LEFT.
  repeat case_gtb;
    repeat match goal with
           | |- context [?x =? ?y] => destruct (Z.eqb_spec x y)
           end; try reflexivity; lia.
Qed.

Section FilledFacts.
Variables (seq1 seq2 : list ascii) (len1 len2 : nat).
Variables (matchScore mismatchScore gapScore : Z).
Variable M : Matrix.
Hypothesis HF : Filled seq1 seq2 len1 len2 matchScore mismatchScore gapScore M.

Let cell (a b : nat) : Z := score M !!! at_ len2 a b.

Lemma Filled_cell a b :
  interior len1 len2 a b ->
  cell a b =
    spec_best (cand_diag seq1 seq2 len2 matchScore mismatchScore M a b)
              (cand_up len2 gapScore M a b) (cand_left len2 gapScore M a b) /\
  dir M !!! at_ len2 a b =
    spec_direction (cand_diag seq1 seq2 len2 matchScore mismatchScore M a b)
                   (cand_up len2 gapScore M a b) (cand_left len2 gapScore M a b).
Proof.
  intros Hi. destruct (inv_rec _ _ _ _ _ _ _ _ _ HF a b Hi I) as [Hs Hd].
  unfold cell. rewrite Hs, Hd. unfold new_cell.
  by rewrite cell_rule_best, cell_rule_direction.
Qed.

Lemma Filled_nonneg a b : (a <= len1)%nat -> (b <= len2)%nat -> 0 <= cell a b.
Proof.
  intros Ha Hb. destruct (decide (a = 0%nat \/ b = 0%nat)) as [Hz | Hnz].
  - unfold cell. destruct (inv_border _ _ _ _ _ _ _ _ _ HF a b) as [-> _]; auto.
    lia.
  - destruct (Filled_cell a b) as [-> _]; [unfold interior; lia |].
    unfold spec_best. lia.
Qed.

(** A positive score and a direction other than NONE go together. *)
Lemma Filled_dir_none a b :
  (a <= len1)%nat -> (b <= len2)%nat ->
  (dir M !!! at_ len2 a b = 0 <-> cell a b = 0).
Proof.
  intros Ha Hb. destruct (decide (a = 0%nat \/ b = 0%nat)) as [Hz | Hnz].
  - unfold cell. destruct (inv_border _ _ _ _ _ _ _ _ _ HF a b) as [-> ->]; auto.
  - destruct (Filled_cell a b) as [-> ->]; [unfold interior; lia |].
    unfold spec_direction, DIR_NONE, DIR_DIAG, DIR_UP, DIR_LEFT.
    repeat match goal with
           | |- context [?x =? ?y] => destruct (Z.eqb_spec x y)
           end; split; intros; try done; lia.
Qed.

Lemma Filled_dir_range a b :
  (a <= len1)%nat -> (b <= len2)%nat -> 0 <= dir M !!! at_ len2 a b <= 3.
Proof.
  intros Ha Hb. destruct (decide (a = 0%nat \/ b = 0%nat)) as [Hz | Hnz].
  - destruct (inv_border _ _ _ _ _ _ _ _ _ HF a b) as [_ ->]; auto. lia.
  - destruct (Filled_cell a b) as [_ ->]; [unfold interior; lia |].
    unfold spec_direction, DIR_NONE, DIR_DIAG, DIR_UP, DIR_LEFT.
    repeat match goal with
           | |- context [?x =? ?y] => destruct (Z.eqb_spec x y)
           end; lia.
Qed.

Section NoOverflow.
Hypothesis Hm : INT_MIN <= matchScore.
Hypothesis Hmm : INT_MIN <= mismatchScore.
Hypothesis Hg : INT_MIN <= gapScore.
Hypothesis Hfit :
  Z.of_nat (len1 + len2) * max_gain matchScore mismatchScore gapScore
  <= INT_MAX.

Let K := max_gain matchScore mismatchScore gapScore.

(** A cell holds at most [(a+b) * K]; with it, no sum of the fill leaves
    the range of [int]. *)
Lemma Filled_bounded n : forall a b,
  (a + b <= n)%nat -> (a <= len1)%nat -> (b <= len2)%nat ->
  0 <= cell a b <= Z.of_nat (a + b) * K.
Proof.
  assert (HK : 0 <= K) by (unfold K, max_gain; lia).
  induction n as [| n IH]; intros a b Hn Ha Hb.
  - unfold cell.
    destruct (inv_border _ _ _ _ _ _ _ _ _ HF a b) as [-> _]; auto; lia.
  - destruct (decide (a = 0%nat \/ b = 0%nat)) as [Hz | Hnz].
    + unfold cell.
      destruct (inv_border _ _ _ _ _ _ _ _ _ HF a b) as [-> _]; auto; nia.
    + destruct (Filled_cell a b) as [-> _]; [unfold interior; lia |].
      unfold cand_diag, cand_up, cand_left, subst_score, int_add.
      pose proof (IH (a - 1)%nat (b - 1)%nat ltac:(lia) ltac:(lia) ltac:(lia)) as Hd.
      pose proof (IH (a - 1)%nat b ltac:(lia) ltac:(lia) ltac:(lia)) as Hu.
      pose proof (IH a (b - 1)%nat ltac:(lia) ltac:(lia) ltac:(lia)) as Hl.
      fold (cell (a - 1) (b - 1)) (cell (a - 1) b) (cell a (b - 1)).
      set (s := if char_eqb _ _ then matchScore else mismatchScore).
      assert (Hs : INT_MIN <= s <= K)
        by (unfold s, K, max_gain; destruct (char_eqb _ _); lia).
      assert (HgK : gapScore <= K) by (unfold K, max_gain; lia).
      assert (Htop : Z.of_nat (a + b) * K <= INT_MAX).
      { etransitivity; [| exact Hfit]. fold K. nia. }
      set (P := Z.of_nat (a + b) * K) in *.
      assert (Hd' : cell (a - 1) (b - 1) <= P - K) by (unfold P; nia).
      assert (Hu' : cell (a - 1) b <= P - K) by (unfold P; nia).
      assert (Hl' : cell a (b - 1) <= P - K) by (unfold P; nia).
      clearbody P s. clear Hfit IH.
      rewrite !wrap_int_exact by lia. unfold spec_best. lia.
Qed.

Lemma Filled_sums_exact a b :
  interior len1 len2 a b ->
  cand_diag seq1 seq2 len2 matchScore mismatchScore M a b =
    cell (a - 1) (b - 1) + subst_score seq1 seq2 matchScore mismatchScore a b /\
  cand_up len2 gapScore M a b = cell (a - 1) b + gapScore /\
  cand_left len2 gapScore M a b = cell a (b - 1) + gapScore.
Proof.
  intros [Ha Hb].
  assert (HK : 0 <= K) by (unfold K, max_gain; lia).
  pose proof (Filled_bounded (a + b) (a - 1)%nat (b - 1)%nat
                ltac:(lia) ltac:(lia) ltac:(lia)) as Hd.
  pose proof (Filled_bounded (a + b) (a - 1)%nat b
                ltac:(lia) ltac:(lia) ltac:(lia)) as Hu.
  pose proof (Filled_bounded (a + b) a (b - 1)%nat
                ltac:(lia) ltac:(lia) ltac:(lia)) as Hl.
  unfold cand_diag, cand_up, cand_left, subst_score, int_add.
  fold (cell (a - 1) (b - 1)) (cell (a - 1) b) (cell a (b - 1)).
  set (s := if char_eqb _ _ then matchScore else mismatchScore).
  assert (Hs : INT_MIN <= s <= K)
    by (unfold s, K, max_gain; destruct (char_eqb _ _); lia).
  assert (HgK : gapScore <= K) by (unfold K, max_gain; lia).
  assert (Htop : Z.of_nat (a + b) * K <= INT_MAX).
  { etransitivity; [| exact Hfit]. fold K. nia. }
  set (P := Z.of_nat (a + b) * K) in *.
  assert (Hd' : cell (a - 1) (b - 1) <= P - K) by (unfold P; nia).
  assert (Hu' : cell (a - 1) b <= P - K) by (unfold P; nia).
  assert (Hl' : cell a (b - 1) <= P - K) by (unfold P; nia).
  clearbody P s. clear Hfit.
  rewrite !wrap_int_exact by lia. done.
Qed.
End NoOverflow.
End FilledFacts.

Lemma write_cell_spec_update seq1 seq2 len2 m mm g M i j :
  write_cell seq1 seq2 len2 m mm g M i j = spec_update seq1 seq2 len2 m mm g M i j.
Proof.
  unfold write_cell, spec_update, new_cell.
  by rewrite cell_rule_best, cell_rule_direction.
Qed.

(** C2. For every cell [(i, j)] with [1 <= i <= len1] and [1 <= j <= len2]:
    the update of the CPU loop and the update of a kernel thread both store
    [max(0, diag, up, left)] and the first of DIAG, UP, LEFT whose candidate
    equals that maximum (NONE when it is 0); in the filled matrix the cell
    holds this value with [diag = cell(i-1,j-1) + score(seq1[i-1], seq2[j-1])],
    [up = cell(i-1,j) + gap], [left = cell(i,j-1) + gap], the sums being
    those of [int]; and the sums are exact integer sums whenever
    [(len1 + len2) * max(0, match, mismatch, gap)] fits in an [int]. *)
Theorem update_is_max_with_tie_break
    (seq1 seq2 : list ascii) (matchScore mismatchScore gapScore : Z) (i j : nat) :
  (1 <= i <= length seq1)%nat -> (1 <= j <= length seq2)%nat ->
  let len1 := length seq1 in
  let len2 := length seq2 in
  let M := Cpu.fill_matrix seq1 seq2 matchScore mismatchScore gapScore in
  let cell a b := score M !!! at_ len2 a b in
  let s := if char_eqb (seq1 !!! (i - 1)%nat) (seq2 !!! (j - 1)%nat)
           then matchScore else mismatchScore in
  let diag := int_add (cell (i - 1)%nat (j - 1)%nat) s in
  let up := int_add (cell (i - 1)%nat j) gapScore in
  let left := int_add (cell i (j - 1)%nat) gapScore in
  (forall M0,
     Cpu.fill_cell seq1 seq2 len2 matchScore mismatchScore gapScore M0 i j =
     spec_update seq1 seq2 len2 matchScore mismatchScore gapScore M0 i j) /\
  (forall M0 d start_i end_i blockIdx blockDim threadIdx,
     (start_i + (blockIdx * blockDim + threadIdx))%nat = i ->
     (i <= end_i)%nat -> (d - i)%nat = j ->
     Gpu.sw_kernel seq1 seq2 len2 d start_i end_i
                   matchScore mismatchScore gapScore
                   blockIdx blockDim threadIdx M0 =
     spec_update seq1 seq2 len2 matchScore mismatchScore gapScore M0 i j) /\
  cell i j = Z.max 0 (Z.max diag (Z.max up left)) /\
  dir M !!! at_ len2 i j = spec_direction diag up left /\
  (INT_MIN <= matchScore -> INT_MIN <= mismatchScore -> INT_MIN <= gapScore ->
   Z.of_nat (len1 + len2) * max_gain matchScore mismatchScore gapScore <= INT_MAX ->
   diag = cell (i - 1)%nat (j - 1)%nat + s /\
   up = cell (i - 1)%nat j + gapScore /\
   left = cell i (j - 1)%nat + gapScore).
Proof.
  intros Hi Hj len1 len2 M cell s diag up left.
  assert (HF : Filled seq1 seq2 len1 len2 matchScore mismatchScore gapScore M)
    by apply cpu_fill_Filled.
  assert (Hint : interior len1 len2 i j) by (split; assumption).
  split; [| split; [| split; [| split]]].
  - intros M0. by rewrite fill_cell_write, write_cell_spec_update.
  - intros M0 d start_i end_i b bd t Hidx Hend Hd.
    rewrite sw_kernel_write. cbv zeta. rewrite Hidx, Hd.
    destruct (Nat.ltb_spec end_i i); [lia |].
    apply write_cell_spec_update.
  - apply (Filled_cell _ _ _ _ _ _ _ _ HF i j Hint).
  - apply (Filled_cell _ _ _ _ _ _ _ _ HF i j Hint).
  - intros Hm Hmm Hg Hfit.
    apply (Filled_sums_exact _ _ _ _ _ _ _ _ HF Hm Hmm Hg Hfit i j Hint).
Qed.

Lemma update_is_max_with_tie_break_witness :
  (1 <= 8 <= length (str "ACACACTA"))%nat /\
  (1 <= 8 <= length (str "AGCACACA"))%nat /\
  let seq1 := str "ACACACTA" in
  let seq2 := str "AGCACACA" in
  let M := Cpu.fill_matrix seq1 seq2 2 (-1) (-1) in
  let cell a b := score M !!! at_ 8 a b in
  let diag := int_add (cell 7%nat 7%nat) 2 in
  let up := int_add (cell 7%nat 8%nat) (-1) in
  let left := int_add (cell 8%nat 7%nat) (-1) in
  cell 8%nat 8%nat = Z.max 0 (Z.max diag (Z.max up left)) /\
  dir M !!! at_ 8 8 8 = spec_direction diag up left.
Proof.
  assert (H1 : (1 <= 8 <= length (str "ACACACTA"))%nat) by (vm_compute; lia).
  assert (H2 : (1 <= 8 <= length (str "AGCACACA"))%nat) by (vm_compute; lia).
  split; [exact H1 | split; [exact H2 |]].
  pose proof (update_is_max_with_tie_break (str "ACACACTA") (str "AGCACACA")
                2 (-1) (-1) 8 8 H1 H2) as H.
  cbv zeta in H. destruct H as (_ & _ & Hs & Hd & _).
  split; [exact Hs | exact Hd].
Defined.

(** ** The checksum *)

Lemma Zsum_app l1 l2 : Zsum (l1 ++ l2) = Zsum l1 + Zsum l2.
Proof. unfold Zsum. induction l1 as [| x l1 IH]; simpl; lia. Qed.

Lemma uchar_range c : 0 <= uchar c <= 255.
Proof.
  unfold uchar. pose proof (N_ascii_bounded c). lia.
Qed.

Lemma toupper_range z : 0 <= z <= 255 -> 0 <= toupper z <= 255.
Proof.
  unfold toupper. intros H.
  destruct (Z.leb_spec 97 z), (Z.leb_spec z 122); simpl; lia.
Qed.

Lemma spec_term_range s i : 0 <= spec_term s i <= 14535.
Proof.
  unfold spec_term.
  pose proof (toupper_range _ (uchar_range (s !!! i))).
  pose proof (Nat.mod_upper_bound i 57 ltac:(lia)). nia.
Qed.

Lemma wrap_long_exact z : - 2 ^ 63 <= z <= LONG_MAX -> wrap_long z = z.
Proof.
  unfold wrap_long, LONG_MAX. intros H. rewrite Z.mod_small; lia.
Qed.

(** The accumulation loop of [gcgChecksum] computes the sum exactly. *)
Lemma gcg_loop_sum s n :
  Z.of_nat n <= INT_MAX ->
  foldl (fun check i =>
           let c := toupper (uchar (s !!! i)) in
           long_add check (int_mul (wrap_int (Z.of_nat (i mod 57) + 1)) c))
        0 (seq 0 n)
  = Zsum (map (spec_term s) (seq 0 n)) /\
  0 <= Zsum (map (spec_term s) (seq 0 n)) <= Z.of_nat n * 14535.
Proof.
  induction n as [| n IH]; intros Hn.
  - simpl. lia.
  - destruct IH as [IH Hb]; [lia |].
    rewrite seq_S, foldl_snoc, map_app, Zsum_app, IH.
    change (0 + n)%nat with n. cbv zeta.
    change (Zsum (map (spec_term s) [n])) with (spec_term s n + 0).
    rewrite Z.add_0_r.
    pose proof (spec_term_range s n) as Ht.
    pose proof (toupper_range _ (uchar_range (s !!! n))) as Hu.
    pose proof (Nat.mod_upper_bound n 57 ltac:(lia)) as Hmod.
    unfold int_mul, long_add.
    rewrite (wrap_int_exact (Z.of_nat (n mod 57) + 1))
      by (unfold INT_MIN, INT_MAX; lia).
    fold (spec_term s n).
    rewrite (wrap_int_exact (spec_term s n)) by (unfold INT_MIN, INT_MAX; lia).
    unfold INT_MAX in Hn.
    rewrite wrap_long_exact by (unfold LONG_MAX; lia).
    split; lia.
Qed.

Lemma gcgChecksum_spec s :
  Z.of_nat (length s) <= INT_MAX ->
  Cpu.gcgChecksum s = spec_checksum s /\ 0 <= Cpu.gcgChecksum s <= 9999.
Proof.
  intros Hlen. unfold Cpu.gcgChecksum, spec_checksum.
  destruct (gcg_loop_sum s (length s) Hlen) as [Heq Hb].
  cbv zeta in Heq |- *. rewrite Heq.
  rewrite Z.rem_mod_nonneg by lia.
  pose proof (Z.mod_pos_bound (Zsum (map (spec_term s) (seq 0 (length s)))) 10000
                ltac:(lia)).
  rewrite wrap_int_exact by (unfold INT_MIN, INT_MAX; lia).
  split; [reflexivity | lia].
Qed.



(** ** The scan for the best cell *)

Section Locate.
Variables (len1 len2 : nat) (sc : list Z).

#[local] Abbreviation cell a b := (sc !!! at_ len2 a b).
#[local] Abbreviation scanned := (scanned len2 sc).

Lemma scanned_ext P P' acc :
  (forall a b, P a b <-> P' a b) -> scanned P acc -> scanned P' acc.
Proof.
  destruct acc as [[mx mi] mj]. intros HP [Hle Hcase]. split.
  - intros a b Hab. apply Hle. by apply HP.
  - destruct Hcase as [? | (? & ? & ? & Hb)]; [by left | right].
    repeat split; auto; [by apply HP |].
    intros a b Hab. apply Hb. by apply HP.
Qed.

Lemma locate_row_scanned i k acc :
  scanned (fun a b => (1 <= a < i)%nat /\ (1 <= b <= len2)%nat) acc ->
  scanned (fun a b => ((1 <= a < i)%nat /\ (1 <= b <= len2)%nat) \/
                      (a = i /\ (1 <= b <= k)%nat))
          (foldl (fun '(maxScore, max_i, max_j) j =>
                    let val := sc !!! at_ len2 i j in
                    if val >? maxScore then (val, i, j)
                    else (maxScore, max_i, max_j))
                 acc (seq 1 k)).
Proof.
  intros Hacc. induction k as [| k IH].
  - simpl. eapply scanned_ext; [| exact Hacc]. intros a b. simpl. lia.
  - rewrite seq_S, foldl_snoc.
    destruct (foldl _ acc (seq 1 k)) as [[mx mi] mj].
    change (1 + k)%nat with (S k). cbv zeta.
    destruct IH as [Hle Hcase].
    destruct (Z.gtb_spec (cell i (S k)) mx) as [Hgt | Hngt].
    + split.
      * intros a b [Hab | [-> Hb]].
        -- specialize (Hle a b (or_introl Hab)). lia.
        -- destruct (decide (b = S k)) as [-> | ?]; [lia |].
           assert (cell i b <= mx) by (apply Hle; right; lia). lia.
      * right. split; [destruct Hcase as [? | ?]; lia |].
        split; [right; lia |]. split; [done |].
        intros a b Hab Hbef.
        assert (cell a b <= mx); [| lia].
        apply Hle. destruct Hab as [? | [-> ?]]; [by left | right].
        unfold before in Hbef. lia.
    + split.
      * intros a b [Hab | [-> Hb]].
        -- apply Hle. by left.
        -- destruct (decide (b = S k)) as [-> | ?]; [lia |].
           apply Hle. right. lia.
      * destruct Hcase as [? | (Hpos & HP & Hc & Hb)]; [by left | right].
        split; [done |]. split; [destruct HP as [? | [-> ?]]; [by left | right; lia] |].
        split; [done |].
        intros a b Hab Hbef. apply Hb; [| done].
        destruct Hab as [? | [-> ?]]; [by left | right].
        split; [done |].
        destruct (decide (b = S k)) as [-> | ?]; [| lia].
        unfold before in Hbef. destruct HP as [? | [-> ?]]; lia.
Qed.

Lemma locate_rows_scanned n :
  scanned (fun a b => (1 <= a <= n)%nat /\ (1 <= b <= len2)%nat)
          (foldl (Cpu.locate_row len2 sc) (0, 0%nat, 0%nat) (seq 1 n)).
Proof.
  induction n as [| n IH].
  - simpl. split; [intros a b ?; lia | by left].
  - rewrite seq_S, foldl_snoc. unfold Cpu.locate_row at 1.
    eapply scanned_ext; [| apply (locate_row_scanned (1 + n) len2)].
    + intros a b. simpl. lia.
    + eapply scanned_ext; [| exact IH]. intros a b. simpl. lia.
Qed.

Lemma locate_scanned :
  scanned (interior len1 len2) (Cpu.locate len1 len2 sc).
Proof.
  unfold Cpu.locate. eapply scanned_ext; [| apply locate_rows_scanned].
  intros a b. unfold interior. reflexivity.
Qed.
End Locate.

Lemma locate_positive len1 len2 sc :
  (exists a b, interior len1 len2 a b /\ 0 < sc !!! at_ len2 a b) ->
  exists mi mj,
    Cpu.locate len1 len2 sc = (sc !!! at_ len2 mi mj, mi, mj) /\
    first_maximum len1 len2 sc mi mj /\ 0 < sc !!! at_ len2 mi mj.
Proof.
  intros (a & b & Hab & Hpos).
  pose proof (locate_scanned len1 len2 sc) as Hs.
  destruct (Cpu.locate len1 len2 sc) as [[mx mi] mj].
  destruct Hs as [Hle [(-> & _) | (Hmx & Hint & Hc & Hbef)]].
  - specialize (Hle a b Hab). lia.
  - exists mi, mj. rewrite Hc. split; [done |]. split; [| lia].
    split; [done |]. split.
    + intros a' b' H'. rewrite Hc. by apply Hle.
    + intros a' b' H' Hb'. rewrite Hc. by apply Hbef.
Qed.

Lemma locate_none len1 len2 sc :
  (forall a b, interior len1 len2 a b -> sc !!! at_ len2 a b <= 0) ->
  Cpu.locate len1 len2 sc = (0, 0%nat, 0%nat).
Proof.
  intros Hz.
  pose proof (locate_scanned len1 len2 sc) as Hs.
  destruct (Cpu.locate len1 len2 sc) as [[mx mi] mj].
  destruct Hs as [Hle [(-> & -> & ->) | (Hmx & Hint & Hc & Hbef)]]; [done |].
  specialize (Hz mi mj Hint). lia.
Qed.

Lemma finish_none seq1 seq2 M :
  Cpu.locate (length seq1) (length seq2) (score M) = (0, 0%nat, 0%nat) ->
  Cpu.finish seq1 seq2 M = Some ([], [], 0).
Proof. unfold Cpu.finish. intros ->. reflexivity. Qed.

(** C6, as amended.  When some cell [(i, j)] with [1 <= i <= len1] and
    [1 <= j <= len2] holds a positive score, the scan returns the coordinate
    of the maximum over these cells, the first one in row-major order, and
    that maximum as the best score.  When every such cell is 0 it returns the
    border coordinate [(0, 0)] with best score 0, and the alignment returned
    has empty aligned strings and score 0. *)
Theorem locate_first_maximum_or_border
    (seq1 seq2 : list ascii) (matchScore mismatchScore gapScore : Z) :
  let len1 := length seq1 in
  let len2 := length seq2 in
  let sc := score (Cpu.fill_matrix seq1 seq2 matchScore mismatchScore gapScore) in
  ((exists a b, interior len1 len2 a b /\ 0 < sc !!! at_ len2 a b) ->
   exists max_i max_j,
     Cpu.locate len1 len2 sc = (sc !!! at_ len2 max_i max_j, max_i, max_j) /\
     first_maximum len1 len2 sc max_i max_j) /\
  ((forall a b, interior len1 len2 a b -> sc !!! at_ len2 a b = 0) ->
   Cpu.locate len1 len2 sc = (0, 0%nat, 0%nat) /\
   Cpu.smithWaterman seq1 seq2 matchScore mismatchScore gapScore =
     Some ([], [], 0)).
Proof.
  intros len1 len2 sc. split.
  - intros Hpos. destruct (locate_positive len1 len2 sc Hpos)
      as (mi & mj & Hloc & Hfirst & _).
    by exists mi, mj.
  - intros Hz.
    assert (Hloc : Cpu.locate len1 len2 sc = (0, 0%nat, 0%nat)).
    { apply locate_none. intros a b Hab. rewrite (Hz a b Hab). lia. }
    split; [done |]. by apply finish_none.
Qed.

(** The claim as stated fails on the sequences "A" and "C": every cell with
    [1 <= i <= len1], [1 <= j <= len2] is 0, and the coordinate returned,
    [(0, 0)], is not one of these cells. *)
Lemma locate_all_zero_counterexample :
  let sc := score (Cpu.fill_matrix (str "A") (str "C") 2 (-1) (-1)) in
  Cpu.locate 1 1 sc = (0, 0%nat, 0%nat) /\
  ~ first_maximum 1 1 sc 0 0 /\
  first_maximum 1 1 sc 1 1.
Proof.
  cbv zeta. split; [reflexivity |]. split.
  - intros [[? _] _]. lia.
  - split; [unfold interior; lia |]. split.
    + intros a b [? ?]. assert (a = 1%nat) by lia. assert (b = 1%nat) by lia.
      subst. reflexivity.
    + intros a b [? ?] Hb. unfold before in Hb. lia.
Qed.

Lemma locate_first_maximum_or_border_witness :
  (exists max_i max_j,
     let sc := score (Cpu.fill_matrix (str "ACACACTA") (str "AGCACACA") 2 (-1) (-1)) in
     Cpu.locate 8 8 sc = (sc !!! at_ 8 max_i max_j, max_i, max_j) /\
     first_maximum 8 8 sc max_i max_j) /\
  Cpu.smithWaterman (str "A") (str "C") 2 (-1) (-1) = Some ([], [], 0).
Proof.
  split.
  - apply (locate_first_maximum_or_border (str "ACACACTA") (str "AGCACACA") 2 (-1) (-1)).
    exists 1%nat, 1%nat. split; [unfold interior; simpl; lia | vm_compute; reflexivity].
  - apply (locate_first_maximum_or_border (str "A") (str "C") 2 (-1) (-1)).
    intros a b [Ha Hb]. simpl in Ha, Hb.
    assert (a = 1%nat) by lia. assert (b = 1%nat) by lia. subst. reflexivity.
Defined.

(** ** The traceback walk *)

Section Walk.
Variables (seq1 seq2 : list ascii) (len1 len2 : nat).
Variables (matchScore mismatchScore gapScore : Z).
Variable M : Matrix.
Hypothesis HF : Filled seq1 seq2 len1 len2 matchScore mismatchScore gapScore M.

#[local] Abbreviation cell_at c := (score M !!! at_ len2 (fst c) (snd c)).

(** The loop ends on the last cell of the walk. *)
Lemma tb_loop_ends_walk fuel s s' :
  Cpu.tb_loop seq1 seq2 len2 M fuel s = Some s' ->
  last (tb_walk seq1 seq2 len2 M fuel s) = Some (Cpu.ti s', Cpu.tj s').
Proof.
  revert s. induction fuel as [| fuel IH]; intros s; simpl.
  - destruct (Cpu.tb_cond s); [discriminate |]. by intros [= ->].
  - destruct (Cpu.tb_cond s); [| by intros [= ->]].
    destruct (Cpu.tb_body seq1 seq2 len2 M s) as [| s1 [|]].
    + by intros [= ->].
    + by intros [= ->].
    + intros H. apply IH in H.
      destruct (tb_walk seq1 seq2 len2 M fuel s1) eqn:Hw; [done |].
      by rewrite last_cons, H.
Qed.

(** From a cell with a positive score, the walk goes through cells with
    positive scores and ends on its first cell with score 0. *)
Lemma tb_walk_positive fuel s :
  (Cpu.ti s <= len1)%nat -> (Cpu.tj s <= len2)%nat ->
  (Cpu.ti s + Cpu.tj s <= fuel)%nat ->
  0 < score M !!! at_ len2 (Cpu.ti s) (Cpu.tj s) ->
  exists pre stop,
    tb_walk seq1 seq2 len2 M fuel s = pre ++ [stop] /\
    Forall (fun c => 0 < cell_at c) pre /\ cell_at stop = 0.
Proof.
  revert s. induction fuel as [| fuel IH]; intros s Hi Hj Hfuel Hpos.
  - assert (Cpu.ti s = 0%nat) by lia.
    destruct (inv_border _ _ _ _ _ _ _ _ _ HF (Cpu.ti s) (Cpu.tj s)) as [Hz _];
      auto; lia.
  - assert (Hin : interior len1 len2 (Cpu.ti s) (Cpu.tj s)).
    { destruct (decide (Cpu.ti s = 0%nat \/ Cpu.tj s = 0%nat)) as [Hz | ?];
        [| unfold interior; lia].
      destruct (inv_border _ _ _ _ _ _ _ _ _ HF (Cpu.ti s) (Cpu.tj s)) as [Hz' _];
        auto; lia. }
    destruct Hin as [[? ?] [? ?]].
    assert (Hc : Cpu.tb_cond s = true).
    { unfold Cpu.tb_cond. apply andb_true_iff. split; apply Nat.ltb_lt; lia. }
    pose proof (Filled_dir_none _ _ _ _ _ _ _ _ HF (Cpu.ti s) (Cpu.tj s) Hi Hj) as Hnone.
    pose proof (Filled_dir_range _ _ _ _ _ _ _ _ HF (Cpu.ti s) (Cpu.tj s) Hi Hj) as Hrange.
    simpl. rewrite Hc.
    destruct (Cpu.tb_body seq1 seq2 len2 M s) as [| s1 stop] eqn:Hb.
    + exfalso. unfold Cpu.tb_body in Hb.
      set (d := dir M !!! at_ len2 (Cpu.ti s) (Cpu.tj s)) in *.
      destruct (Z.eqb_spec d 0); [lia |].
      destruct (Z.eqb_spec d 1); [discriminate |].
      destruct (Z.eqb_spec d 2); [discriminate |].
      destruct (Z.eqb_spec d 3); [discriminate |]. lia.
    + pose proof (tb_body_Move _ _ _ _ _ _ _ Hb) as [Hstop Hmove].
      cbv zeta in Hmove.
      assert (Hr1 : (Cpu.ti s1 <= len1)%nat /\ (Cpu.tj s1 <= len2)%nat /\
                    (Cpu.ti s1 + Cpu.tj s1 <= fuel)%nat).
      { destruct Hmove as [[_ ->] | [[_ ->] | [_ ->]]]; simpl; lia. }
      destruct Hr1 as (Hi1 & Hj1 & Hf1).
      destruct stop.
      * exists [(Cpu.ti s, Cpu.tj s)], (Cpu.ti s1, Cpu.tj s1).
        split; [done |]. split; [by constructor |].
        symmetry in Hstop. by apply Z.eqb_eq in Hstop.
      * symmetry in Hstop. apply Z.eqb_neq in Hstop.
        pose proof (Filled_nonneg _ _ _ _ _ _ _ _ HF _ _ Hi1 Hj1) as Hnn.
        destruct (IH s1 Hi1 Hj1 Hf1 ltac:(lia)) as (pre & last & Hw & Hpre & Hlast).
        exists ((Cpu.ti s, Cpu.tj s) :: pre), last.
        rewrite Hw. split; [done |]. split; [by constructor | done].
Qed.
End Walk.

(** C7. After the fill, every score of the matrix, border included, is at
    least 0, and the border cells are [(0, NONE)].  The traceback walk, from
    the located cell, stands only on cells with a positive score until it
    reaches the cell at which the loop is left, and that cell has score 0. *)
Theorem scores_nonnegative_walk_positive
    (seq1 seq2 : list ascii) (matchScore mismatchScore gapScore : Z) :
  let len1 := length seq1 in
  let len2 := length seq2 in
  let M := Cpu.fill_matrix seq1 seq2 matchScore mismatchScore gapScore in
  (forall k, (k < length (score M))%nat -> 0 <= score M !!! k) /\
  (forall a b, (a <= len1)%nat -> (b <= len2)%nat -> a = 0%nat \/ b = 0%nat ->
     score M !!! at_ len2 a b = 0 /\ dir M !!! at_ len2 a b = DIR_NONE) /\
  exists maxScore max_i max_j pre stop final,
    Cpu.locate len1 len2 (score M) = (maxScore, max_i, max_j) /\
    tb_walk seq1 seq2 len2 M (max_i + max_j) (Cpu.mkTb max_i max_j [] [])
      = pre ++ [stop] /\
    Forall (fun c => 0 < score M !!! at_ len2 (fst c) (snd c)) pre /\
    score M !!! at_ len2 (fst stop) (snd stop) = 0 /\
    Cpu.tb_loop seq1 seq2 len2 M (max_i + max_j) (Cpu.mkTb max_i max_j [] [])
      = Some final /\
    (Cpu.ti final, Cpu.tj final) = stop.
Proof.
  intros len1 len2 M.
  assert (HF : Filled seq1 seq2 len1 len2 matchScore mismatchScore gapScore M)
    by apply cpu_fill_Filled.
  split; [| split].
  - intros k Hk. rewrite (inv_len_score _ _ _ _ _ _ _ _ _ HF) in Hk.
    destruct (at_split len1 len2 k Hk) as (a & b & Ha & Hb & ->).
    by apply (Filled_nonneg _ _ _ _ _ _ _ _ HF).
  - intros a b Ha Hb Hz. by apply (inv_border _ _ _ _ _ _ _ _ _ HF).
  - pose proof (locate_scanned len1 len2 (score M)) as Hs.
    destruct (Cpu.locate len1 len2 (score M)) as [[mx mi] mj].
    destruct Hs as [_ [(-> & -> & ->) | (Hmx & [[? ?] [? ?]] & Hc & _)]].
    + exists 0, 0%nat, 0%nat, [], (0%nat, 0%nat), (Cpu.mkTb 0 0 [] []).
      repeat split; try done.
      by apply (inv_border _ _ _ _ _ _ _ _ _ HF 0%nat 0%nat); [lia | lia | left].
    + set (s := Cpu.mkTb mi mj [] []).
      destruct (tb_walk_positive _ _ _ _ _ _ _ _ HF (mi + mj) s)
        as (pre & stop & Hw & Hpre & Hstop); simpl; try lia.
      destruct (tb_loop_total seq1 seq2 len2 M (mi + mj) s) as [final Hfin];
        [simpl; lia |].
      exists mx, mi, mj, pre, stop, final.
      repeat split; try done.
      apply tb_loop_ends_walk in Hfin. rewrite Hw, last_snoc in Hfin.
      by inversion Hfin.
Qed.

(** ** The columns of the alignment *)

Lemma uppercase_residue c : uppercase c = true -> residue c = true.
Proof.
  unfold uppercase, residue, char_eqb. intros H.
  apply andb_true_iff in H. destruct H as [H1 H2].
  apply Z.leb_le in H1, H2.
  destruct (Ascii.eqb_spec c GAP_DASH) as [-> | _];
    [vm_compute in H1; contradiction |].
  destruct (Ascii.eqb_spec c GAP_DOT) as [-> | _];
    [vm_compute in H1; contradiction |].
  reflexivity.
Qed.

Lemma uppercase_residues s :
  forallb uppercase s = true -> forallb residue s = true.
Proof.
  rewrite !forallb_forall. intros H c Hc. apply uppercase_residue. by apply H.
Qed.

Lemma residue_lookup l k : forallb residue l = true -> residue (l !!! k) = true.
Proof.
  intros Hall. rewrite list_lookup_total_alt.
  destruct (l !! k) as [c |] eqn:Hk; [| reflexivity]. simpl.
  apply list_elem_of_lookup_2, list_elem_of_In in Hk.
  rewrite forallb_forall in Hall. by apply Hall.
Qed.

Section Columns.
Variables (seq1 seq2 : list ascii) (len2 : nat) (M : Matrix).
Hypothesis Hres1 : forallb residue seq1 = true.
Hypothesis Hres2 : forallb residue seq2 = true.

Lemma tb_loop_columns fuel s s' :
  Forall2 column (Cpu.align1 s) (Cpu.align2 s) ->
  Cpu.tb_loop seq1 seq2 len2 M fuel s = Some s' ->
  Forall2 column (Cpu.align1 s') (Cpu.align2 s').
Proof.
  assert (Hstep : forall s s1 stop,
            Forall2 column (Cpu.align1 s) (Cpu.align2 s) ->
            Cpu.tb_body seq1 seq2 len2 M s = Cpu.Move s1 stop ->
            Forall2 column (Cpu.align1 s1) (Cpu.align2 s1)).
  { intros s0 s1 stop Hinv Hb. apply tb_body_Move in Hb.
    pose proof (residue_lookup seq1 (Cpu.ti s0 - 1) Hres1) as Hr1.
    pose proof (residue_lookup seq2 (Cpu.tj s0 - 1) Hres2) as Hr2.
    destruct Hb as [_ [[_ ->] | [[_ ->] | [_ ->]]]]; simpl;
      (apply Forall2_app; [exact Hinv |]); constructor; try constructor;
      unfold column; tauto. }
  revert s. induction fuel as [| fuel IH]; intros s Hinv; simpl.
  - destruct (Cpu.tb_cond s); [discriminate |]. by intros [= <-].
  - destruct (Cpu.tb_cond s); [| by intros [= <-]].
    destruct (Cpu.tb_body seq1 seq2 len2 M s) as [| s1 [|]] eqn:Hb.
    + by intros [= <-].
    + intros [= <-]. by eapply Hstep.
    + apply IH. by eapply Hstep.
Qed.
End Columns.

Lemma Forall2_rev_columns {A} (R : A -> A -> Prop) l1 l2 :
  Forall2 R l1 l2 -> Forall2 R (rev l1) (rev l2).
Proof.
  induction 1 as [| x y l1 l2 Hxy H IH]; simpl; [constructor |].
  apply Forall2_app; [exact IH | by constructor].
Qed.

Lemma dots_columns l1 l2 :
  Forall2 column l1 l2 ->
  Forall2 (fun x y => ~ (x = GAP_DOT /\ y = GAP_DOT)) (Cpu.dots l1) (Cpu.dots l2).
Proof.
  assert (Hres : forall c, residue c = true ->
            (if char_eqb c GAP_DASH then GAP_DOT else c) <> GAP_DOT).
  { intros c Hc. unfold residue, char_eqb in *.
    apply andb_true_iff in Hc. destruct Hc as [H1 H2].
    apply negb_true_iff in H1, H2. rewrite H1.
    by apply Ascii.eqb_neq in H2. }
  induction 1 as [| x y l1 l2 Hxy H IH]; simpl; constructor; [| exact IH].
  intros [Hx Hy].
  destruct Hxy as [[Hrx _] | [[Hrx _] | [_ Hry]]].
  - by apply (Hres x).
  - by apply (Hres x).
  - by apply (Hres y).
Qed.

Lemma finish_no_double_gap seq1 seq2 M :
  forallb residue seq1 = true -> forallb residue seq2 = true ->
  exists r, Cpu.finish seq1 seq2 M = Some r /\ no_double_gap r.
Proof.
  intros H1 H2. unfold Cpu.finish.
  destruct (Cpu.locate _ _ _) as [[mx mi] mj].
  destruct (tb_loop_total seq1 seq2 (length seq2) M (mi + mj)
              (Cpu.mkTb mi mj [] [])) as [s Hs]; [simpl; lia |].
  rewrite Hs. eexists. split; [reflexivity |].
  pose proof (tb_loop_columns seq1 seq2 (length seq2) M H1 H2 _
                (Cpu.mkTb mi mj [] []) s (Forall2_nil_2 _ _ column) Hs) as Hcol.
  apply Forall2_rev_columns, dots_columns in Hcol.
  split; [by eapply Forall2_length |].
  intros k [Hk1 Hk2].
  by apply (Forall2_lookup_lr _ _ _ _ _ _ Hcol Hk1 Hk2).
Qed.

Lemma tb_loop_lengths seq1 seq2 len2 M fuel : forall s s',
  length (Cpu.align1 s) = length (Cpu.align2 s) ->
  Cpu.tb_loop seq1 seq2 len2 M fuel s = Some s' ->
  length (Cpu.align1 s') = length (Cpu.align2 s').
Proof.
  assert (Hstep : forall s s1 stop,
            length (Cpu.align1 s) = length (Cpu.align2 s) ->
            Cpu.tb_body seq1 seq2 len2 M s = Cpu.Move s1 stop ->
            length (Cpu.align1 s1) = length (Cpu.align2 s1)).
  { intros s0 s1 stop Hinv Hb. apply tb_body_Move in Hb.
    destruct Hb as [_ [[_ ->] | [[_ ->] | [_ ->]]]]; simpl;
      rewrite !length_app; simpl; lia. }
  induction fuel as [| fuel IH]; intros s s' Hinv; simpl.
  - destruct (Cpu.tb_cond s); [discriminate |]. by intros [= <-].
  - destruct (Cpu.tb_cond s); [| by intros [= <-]].
    destruct (Cpu.tb_body seq1 seq2 len2 M s) as [| s1 [|]] eqn:Hb.
    + by intros [= <-].
    + intros [= <-]. by eapply Hstep.
    + apply IH. by eapply Hstep.
Qed.

Lemma finish_equal_length seq1 seq2 M a1 a2 best :
  Cpu.finish seq1 seq2 M = Some (a1, a2, best) -> length a1 = length a2.
Proof.
  unfold Cpu.finish.
  destruct (Cpu.locate _ _ _) as [[mx mi] mj].
  destruct (Cpu.tb_loop _ _ _ _ _ _) as [s |] eqn:Hs; [| discriminate].
  intros [= <- <- _]. unfold Cpu.dots. rewrite !length_map, !length_rev.
  eapply tb_loop_lengths; [| exact Hs]. reflexivity.
Qed.

Lemma finish_gaps_apart seq1 seq2 M :
  exists a1 a2 best,
    Cpu.finish seq1 seq2 M = Some (a1, a2, best) /\
    length a1 = length a2 /\
    (forallb residue seq1 = true -> forallb residue seq2 = true ->
     no_double_gap (a1, a2, best)).
Proof.
  destruct (finish_total seq1 seq2 M) as [[[a1 a2] best] Hr].
  exists a1, a2, best. split; [done |]. split.
  - by eapply finish_equal_length.
  - intros H1 H2.
    destruct (finish_no_double_gap seq1 seq2 M H1 H2) as (r & Hr' & Hn).
    rewrite Hr in Hr'. by inversion Hr'; subst.
Qed.

(** C8, as amended.  The alignment returned by the CPU program and the one
    returned by the CUDA program, under any scheduler, have two aligned
    strings of equal length; and when neither input sequence holds one of
    the symbols [-] and [.], at no index do both aligned strings hold the
    gap symbol. *)
Theorem aligned_strings_no_double_gap
    (sched : Gpu.scheduler) (seq1 seq2 : list ascii)
    (matchScore mismatchScore gapScore : Z) :
  (exists align1 align2 maxScore,
     Cpu.smithWaterman seq1 seq2 matchScore mismatchScore gapScore =
       Some (align1, align2, maxScore) /\
     length align1 = length align2 /\
     (forallb residue seq1 = true -> forallb residue seq2 = true ->
      no_double_gap (align1, align2, maxScore))) /\
  (exists align1 align2 maxScore,
     Gpu.align sched seq1 seq2 matchScore mismatchScore gapScore =
       Some (align1, align2, maxScore) /\
     length align1 = length align2 /\
     (forallb residue seq1 = true -> forallb residue seq2 = true ->
      no_double_gap (align1, align2, maxScore))).
Proof.
  split; apply finish_gaps_apart.
Qed.

(** The claim as stated fails on the sequence "A-C-GT" aligned with itself:
    the symbol [-] of the input is aligned like any other symbol and written
    as [.], so that the columns 1 and 3 hold the gap symbol in both
    strings. *)
Lemma double_gap_counterexample :
  Cpu.smithWaterman (str "A-C-GT") (str "A-C-GT") 2 (-1) (-1) =
    Some (str "A.C.GT", str "A.C.GT", 12) /\
  str "A.C.GT" !! 1%nat = Some GAP_DOT /\
  ~ no_double_gap (str "A.C.GT", str "A.C.GT", 12).
Proof.
  split; [reflexivity |]. split; [reflexivity |].
  intros [_ H]. by apply (H 1%nat).
Qed.

(** ** Scenario A *)

(** C4. For [seq1 = "ACACACTA"], [seq2 = "AGCACACA"] and the scores
    match = 2, mismatch = -1, gap = -1: the best score is 12, found at the
    last cell; the traceback builds the aligned pair "A-CACACTA" over
    "AGCACAC-A"; the alignment returned, by the CPU program and by the CUDA
    program alike, is that pair with each gap written as a dot; and the
    serializer prints the dots in its residue lines. *)
Theorem scenario_A_score_12 :
  let seq1 := str "ACACACTA" in
  let seq2 := str "AGCACACA" in
  let M := Cpu.fill_matrix seq1 seq2 2 (-1) (-1) in
  Cpu.locate 8 8 (score M) = (12, 8%nat, 8%nat) /\
  option_map (fun s => (rev (Cpu.align1 s), rev (Cpu.align2 s)))
             (Cpu.tb_loop seq1 seq2 8 M 16 (Cpu.mkTb 8 8 [] []))
    = Some (str "A-CACACTA", str "AGCACAC-A") /\
  Cpu.smithWaterman seq1 seq2 2 (-1) (-1)
    = Some (str "A.CACACTA", str "AGCACAC.A", 12) /\
  Gpu.align Gpu.in_order seq1 seq2 2 (-1) (-1)
    = Some (str "A.CACACTA", str "AGCACAC.A", 12) /\
  Cpu.residue_line (str "seq1") (str "A.CACACTA") 0 9
    = str "seq1        A.CACACTA" /\
  Cpu.residue_line (str "seq2") (str "AGCACAC.A") 0 9
    = str "seq2        AGCACAC.A".
Proof. cbv zeta. repeat split; vm_compute; reflexivity. Qed.

(** ** The report *)

Lemma print_blocks_done fuel name1 name2 align1 align2 alignLen start :
  (alignLen <= start)%nat ->
  Cpu.print_blocks fuel name1 name2 align1 align2 alignLen start = Some [].
Proof.
  intros H. destruct fuel; simpl;
    destruct (Nat.ltb_spec start alignLen); try reflexivity; lia.
Qed.

(** The block loop ends within [alignLen] passes. *)
Lemma print_blocks_total fuel name1 name2 align1 align2 alignLen start :
  (alignLen <= start + fuel)%nat ->
  is_Some (Cpu.print_blocks fuel name1 name2 align1 align2 alignLen start).
Proof.
  revert start. induction fuel as [| fuel IH]; intros start H; simpl.
  - destruct (Nat.ltb_spec start alignLen); [lia | eauto].
  - destruct (Nat.ltb_spec start alignLen); [| eauto].
    destruct (IH (start + Cpu.colsPerLine)%nat) as [rest ->]; [| eauto].
    unfold Cpu.colsPerLine. lia.
Qed.

(** The report of an alignment that fits one block of 50 columns is the
    header followed by the two residue lines. *)
Lemma printMSFAlignment_one_block name1 name2 align1 align2 maxScore :
  (0 < length align1 <= 50)%nat ->
  Cpu.printMSFAlignment name1 name2 align1 align2 maxScore =
  Some (Cpu.print_header name1 name2 align1 align2 maxScore ++
        Cpu.residue_line name1 align1 0 (length align1) ++ Cpu.nl ++
        Cpu.residue_line name2 align2 0 (length align1) ++ Cpu.nl ++ Cpu.nl).
Proof.
  intros Hlen. unfold Cpu.printMSFAlignment.
  destruct (length align1) as [| n] eqn:Hn; [lia |].
  cbn [Cpu.print_blocks].
  destruct (Nat.ltb_spec 0 (S n)); [| lia].
  change (0 + Cpu.colsPerLine)%nat with 50%nat.
  destruct (Nat.ltb_spec 50 (S n)); [lia |].
  rewrite print_blocks_done by lia. by rewrite <- !app_assoc, app_nil_r.
Qed.

(** C9, as amended.  In every residue line the sequence name, as the C
    string [printf] reads, comes first and is followed by the padding: spaces
    up to a field of 12 characters when the name is shorter, none when the
    name has 12 characters or more, in which case the name is printed whole
    and the residue columns begin after it. *)
Theorem residue_line_name_then_padding
    (name al : list ascii) (start end_ : nat) :
  Cpu.residue_line name al start end_ =
    Cpu.c_str name ++ Cpu.spaces (12 - length (Cpu.c_str name)) ++
    Cpu.residues al start end_ /\
  length (Cpu.printf_m12s name) = Nat.max 12 (length (Cpu.c_str name)) /\
  (forall name2 align2 maxScore,
     (0 < length al <= 50)%nat ->
     Cpu.printMSFAlignment name name2 al align2 maxScore =
     Some (Cpu.print_header name name2 al align2 maxScore ++
           Cpu.residue_line name al 0 (length al) ++ Cpu.nl ++
           Cpu.residue_line name2 align2 0 (length al) ++ Cpu.nl ++ Cpu.nl)).
Proof.
  split; [| split].
  - unfold Cpu.residue_line, Cpu.printf_m12s. by rewrite <- app_assoc.
  - unfold Cpu.printf_m12s, Cpu.spaces.
    rewrite length_app, length_replicate. lia.
  - intros name2 align2 maxScore Hlen.
    by apply printMSFAlignment_one_block.
Qed.

(** The claim as stated fails on the name "1aab": the line printed starts
    with the name, the line of the claim with eight spaces. *)
Lemma residue_line_counterexample :
  Cpu.residue_line (str "1aab") (str "A.CACACTA") 0 9
    = str "1aab        A.CACACTA" /\
  left_padded_line (str "1aab") (str "A.CACACTA") 0 9
    = str "        1aabA.CACACTA" /\
  Cpu.residue_line (str "1aab") (str "A.CACACTA") 0 9
    <> left_padded_line (str "1aab") (str "A.CACACTA") 0 9.
Proof.
  split; [vm_compute; reflexivity |]. split; [vm_compute; reflexivity |].
  vm_compute. discriminate.
Qed.

(** C10. For the empty alignment (both aligned strings empty, score 0) the
    serializer returns a complete report: both checksums and the pairwise
    checksum are 0, the type letter is N, the block loop prints nothing, and
    the report is the header with length 0 and the three checksums 0. *)
Theorem empty_alignment_report (name1 name2 : list ascii) :
  Cpu.gcgChecksum [] = 0 /\
  Cpu.globalCheck (Cpu.gcgChecksum []) (Cpu.gcgChecksum []) = 0 /\
  Cpu.determineSequenceType [] [] = "N"%char /\
  Cpu.print_blocks 0 name1 name2 [] [] 0 0 = Some [] /\
  Cpu.printMSFAlignment name1 name2 [] [] 0 =
    Some (str "Alignment score: 0" ++ Cpu.nl ++ Cpu.nl ++
          str "PileUp" ++ Cpu.nl ++ Cpu.nl ++
          str "   MSF:   0  Type: N    Check:     0   .." ++ Cpu.nl ++ Cpu.nl ++
          str " Name: " ++ Cpu.c_str name1 ++
            str " oo  Len:   0  Check:     0  Weight:  10.0" ++ Cpu.nl ++
          str " Name: " ++ Cpu.c_str name2 ++
            str " oo  Len:   0  Check:     0  Weight:  10.0" ++ Cpu.nl ++ Cpu.nl ++
          str "//" ++ Cpu.nl ++ Cpu.nl).
Proof.
  repeat split; try reflexivity.
  unfold Cpu.printMSFAlignment. cbn [length Cpu.print_blocks Nat.ltb Nat.leb].
  rewrite app_nil_r. reflexivity.
Qed.

(** ** A sequence aligned with itself *)

Lemma tb_loop_cond_false seq1 seq2 len2 M fuel s :
  Cpu.tb_cond s = false -> Cpu.tb_loop seq1 seq2 len2 M fuel s = Some s.
Proof. intros H. destruct fuel; simpl; by rewrite H. Qed.

Lemma dots_residues s : forallb residue s = true -> Cpu.dots s = s.
Proof.
  unfold Cpu.dots. induction s as [| c s IH]; simpl; [done |].
  intros H. apply andb_true_iff in H. destruct H as [Hc Hs].
  rewrite IH by done. unfold residue in Hc.
  apply andb_true_iff in Hc. destruct Hc as [Hc _].
  apply negb_true_iff in Hc. by rewrite Hc.
Qed.

Section SelfAlignment.
Variable s : list ascii.
Let n := length s.
Hypothesis Hfit : Z.of_nat (n + n) * 2 <= INT_MAX.

Let M := Cpu.fill_matrix s s 2 (-1) (-1).
#[local] Abbreviation cell a b := (score M !!! at_ n a b).

Lemma self_Filled : Filled s s n n 2 (-1) (-1) M.
Proof. apply cpu_fill_Filled. Qed.

Lemma self_cell a b :
  interior n n a b ->
  cell a b = spec_best (cell (a - 1) (b - 1) + subst_score s s 2 (-1) a b)
                       (cell (a - 1) b + -1) (cell a (b - 1) + -1) /\
  dir M !!! at_ n a b =
    spec_direction (cell (a - 1) (b - 1) + subst_score s s 2 (-1) a b)
                   (cell (a - 1) b + -1) (cell a (b - 1) + -1).
Proof.
  intros Hab.
  assert (Hm : INT_MIN <= 2) by (unfold INT_MIN; lia).
  assert (Hg : INT_MIN <= -1) by (unfold INT_MIN; lia).
  destruct (Filled_sums_exact _ _ _ _ _ _ _ _ self_Filled Hm Hg Hg Hfit a b Hab)
    as (Hd & Hu & Hl).
  destruct (Filled_cell _ _ _ _ _ _ _ _ self_Filled a b Hab) as [Hc Hdir].
  rewrite Hd, Hu, Hl in Hc, Hdir. by split.
Qed.

Lemma subst_score_le a b : subst_score s s 2 (-1) a b <= 2.
Proof. unfold subst_score. destruct (char_eqb _ _); lia. Qed.

Lemma subst_score_same a : subst_score s s 2 (-1) a a = 2.
Proof. unfold subst_score, char_eqb. by rewrite Ascii.eqb_refl. Qed.

(** No cell exceeds twice the smaller of its coordinates. *)
Lemma self_cell_le k : forall a b,
  (a + b <= k)%nat -> (a <= n)%nat -> (b <= n)%nat ->
  cell a b <= 2 * Z.of_nat (Nat.min a b).
Proof.
  induction k as [| k IH]; intros a b Hk Ha Hb.
  - destruct (inv_border _ _ _ _ _ _ _ _ _ self_Filled a b) as [-> _]; auto; lia.
  - destruct (decide (a = 0%nat \/ b = 0%nat)) as [Hz | Hnz].
    + destruct (inv_border _ _ _ _ _ _ _ _ _ self_Filled a b) as [-> _]; auto; lia.
    + destruct (self_cell a b) as [-> _]; [unfold interior; lia |].
      pose proof (IH (a - 1)%nat (b - 1)%nat ltac:(lia) ltac:(lia) ltac:(lia)).
      pose proof (IH (a - 1)%nat b ltac:(lia) ltac:(lia) ltac:(lia)).
      pose proof (IH a (b - 1)%nat ltac:(lia) ltac:(lia) ltac:(lia)).
      pose proof (subst_score_le a b).
      unfold spec_best. lia.
Qed.

(** On the main diagonal the score is twice the coordinate. *)
Lemma self_diagonal a : (a <= n)%nat -> cell a a = 2 * Z.of_nat a.
Proof.
  induction a as [| a IH]; intros Ha.
  - destruct (inv_border _ _ _ _ _ _ _ _ _ self_Filled 0%nat 0%nat) as [-> _];
      auto; lia.
  - destruct (self_cell (S a) (S a)) as [-> _]; [unfold interior; lia |].
    rewrite subst_score_same.
    replace (S a - 1)%nat with a by lia. rewrite IH by lia.
    pose proof (self_cell_le (a + S a) a (S a) ltac:(lia) ltac:(lia) ltac:(lia)).
    pose proof (self_cell_le (S a + a) (S a) a ltac:(lia) ltac:(lia) ltac:(lia)).
    unfold spec_best. lia.
Qed.

Lemma self_direction a :
  (1 <= a <= n)%nat -> dir M !!! at_ n a a = DIR_DIAG.
Proof.
  intros Ha.
  destruct (self_cell a a) as [Hc ->]; [unfold interior; lia |].
  rewrite self_diagonal in Hc by lia.
  unfold spec_direction. rewrite <- Hc.
  destruct (Z.eqb_spec (2 * Z.of_nat a) 0); [lia |].
  rewrite subst_score_same, self_diagonal by lia.
  destruct (Z.eqb_spec (2 * Z.of_nat (a - 1) + 2) (2 * Z.of_nat a)); [done | lia].
Qed.

Lemma self_locate :
  (1 <= n)%nat -> Cpu.locate n n (score M) = (2 * Z.of_nat n, n, n).
Proof.
  intros Hn.
  destruct (locate_positive n n (score M)) as (mi & mj & Hloc & Hfirst & Hpos).
  { exists n, n. split; [unfold interior; lia |]. rewrite self_diagonal; lia. }
  destruct Hfirst as ([[? ?] [? ?]] & Hmax & _).
  pose proof (Hmax n n ltac:(unfold interior; lia)) as Hge.
  rewrite self_diagonal in Hge by lia.
  pose proof (self_cell_le (mi + mj) mi mj ltac:(lia) ltac:(lia) ltac:(lia)).
  assert (mi = n) by lia. assert (mj = n) by lia. subst mi mj.
  rewrite Hloc. by rewrite self_diagonal.
Qed.

(** From a diagonal cell the traceback runs down the diagonal to the
    corner, pushing the symbols of the prefix from last to first. *)
Lemma self_traceback a : forall fuel acc1 acc2,
  (a <= n)%nat -> (a <= fuel)%nat ->
  Cpu.tb_loop s s n M fuel (Cpu.mkTb a a acc1 acc2) =
  Some (Cpu.mkTb 0 0 (acc1 ++ rev (take a s)) (acc2 ++ rev (take a s))).
Proof.
  induction a as [| a IH]; intros fuel acc1 acc2 Ha Hf.
  - rewrite tb_loop_cond_false by reflexivity. simpl. by rewrite !app_nil_r.
  - destruct fuel as [| fuel]; [lia |].
    assert (Htake : rev (take (S a) s) = s !!! a :: rev (take a s)).
    { rewrite (take_S_r s a (s !!! a)).
      - by rewrite rev_unit.
      - apply list_lookup_lookup_total_lt. fold n. lia. }
    cbn [Cpu.tb_loop]. unfold Cpu.tb_cond. cbn [Cpu.ti Cpu.tj].
    change ((0 <? S a)%nat && (0 <? S a)%nat) with true. cbv iota.
    unfold Cpu.tb_body. cbn [Cpu.ti Cpu.tj Cpu.align1 Cpu.align2].
    rewrite self_direction by lia. unfold DIR_DIAG.
    change (1 =? 0) with false. change (1 =? 1) with true. cbv iota.
    replace (S a - 1)%nat with a by lia.
    cbn [Cpu.ti Cpu.tj]. rewrite self_diagonal by lia.
    destruct (Z.eqb_spec (2 * Z.of_nat a) 0) as [Hz | Hnz].
    + assert (a = 0%nat) by lia. subst a. by rewrite Htake.
    + rewrite IH by lia. rewrite Htake. by rewrite <- !app_assoc.
Qed.

Lemma self_alignment :
  (1 <= n)%nat ->
  Cpu.smithWaterman s s 2 (-1) (-1) =
  Some (Cpu.dots s, Cpu.dots s, 2 * Z.of_nat n).
Proof.
  intros Hn. unfold Cpu.smithWaterman, Cpu.finish.
  fold n. fold M. rewrite self_locate by done.
  rewrite self_traceback by lia.
  cbn [Cpu.align1 Cpu.align2 app].
  rewrite rev_involutive. unfold n. by rewrite firstn_all.
Qed.
End SelfAlignment.

(** C5, as amended.  For every sequence [s] of length 20, aligning [s]
    with itself under match = 2, mismatch = -1, gap = -1 returns the best
    score 40 and two aligned strings with equal checksums, each being [s]
    with every [-] written as [.]; when [s] holds neither [-] nor [.], each
    aligned string is [s] itself and holds no gap symbol. *)
Theorem identical_sequences_length_20 (s : list ascii) :
  length s = 20%nat ->
  exists align1 align2,
    Cpu.smithWaterman s s 2 (-1) (-1) = Some (align1, align2, 40) /\
    align1 = Cpu.dots s /\ align2 = Cpu.dots s /\
    Cpu.gcgChecksum align1 = Cpu.gcgChecksum align2 /\
    (forallb residue s = true ->
     align1 = s /\ align2 = s /\ (GAP_DOT ∉ align1) /\ (GAP_DOT ∉ align2)).
Proof.
  intros Hlen. exists (Cpu.dots s), (Cpu.dots s).
  split.
  - rewrite self_alignment.
    + rewrite Hlen. reflexivity.
    + rewrite Hlen. unfold INT_MAX. lia.
    + lia.
  - repeat split; try done; rewrite dots_residues by done; try done;
      intros Hin; apply list_elem_of_In in Hin;
      rewrite forallb_forall in H; specialize (H _ Hin); discriminate.
Qed.

Lemma identical_sequences_length_20_witness :
  length (str "ACDEFGHIK-LMNPQRSTVW") = 20%nat /\
  exists align1 align2,
    Cpu.smithWaterman (str "ACDEFGHIK-LMNPQRSTVW") (str "ACDEFGHIK-LMNPQRSTVW")
                      2 (-1) (-1) = Some (align1, align2, 40) /\
    align1 = Cpu.dots (str "ACDEFGHIK-LMNPQRSTVW") /\
    align2 = Cpu.dots (str "ACDEFGHIK-LMNPQRSTVW") /\
    Cpu.gcgChecksum align1 = Cpu.gcgChecksum align2 /\
    (forallb residue (str "ACDEFGHIK-LMNPQRSTVW") = true ->
     align1 = str "ACDEFGHIK-LMNPQRSTVW" /\ align2 = str "ACDEFGHIK-LMNPQRSTVW" /\
     (GAP_DOT ∉ align1) /\ (GAP_DOT ∉ align2)).
Proof.
  split; [reflexivity |].
  exact (identical_sequences_length_20 (str "ACDEFGHIK-LMNPQRSTVW") eq_refl).
Defined.

(** The claim as stated fails on the 20 symbols "ACDEFGHIK-LMNPQRSTVW",
    which the program reads and aligns as any other sequence: the aligned
    strings are not the sequence, and they hold the gap symbol. *)
Lemma identical_sequences_counterexample :
  length (str "ACDEFGHIK-LMNPQRSTVW") = 20%nat /\
  Cpu.smithWaterman (str "ACDEFGHIK-LMNPQRSTVW") (str "ACDEFGHIK-LMNPQRSTVW")
                    2 (-1) (-1) =
    Some (str "ACDEFGHIK.LMNPQRSTVW", str "ACDEFGHIK.LMNPQRSTVW", 40) /\
  str "ACDEFGHIK.LMNPQRSTVW" <> str "ACDEFGHIK-LMNPQRSTVW" /\
  str "ACDEFGHIK.LMNPQRSTVW" !! 9%nat = Some GAP_DOT.
Proof.
  split; [reflexivity |]. split; [vm_compute; reflexivity |].
  split; [discriminate | reflexivity].
Qed.

(** * Further properties of the programs *)

(** ** Names *)

Lemma find_from_absent x s i : x ∉ s -> CpuProgram.find_from x s i = None.
Proof.
  revert i. induction s as [| c s IH]; intros i Hx; simpl; [done |].
  apply not_elem_of_cons in Hx. destruct Hx as [Hne Hx].
  unfold char_eqb. destruct (Ascii.eqb_spec c x); [congruence | by apply IH].
Qed.

Lemma find_from_first x p r i :
  x ∉ p -> CpuProgram.find_from x (p ++ x :: r) i = Some (i + length p)%nat.
Proof.
  revert i. induction p as [| c p IH]; intros i Hx; simpl.
  - unfold char_eqb. rewrite Ascii.eqb_refl. f_equal. lia.
  - apply not_elem_of_cons in Hx. destruct Hx as [Hne Hx].
    unfold char_eqb. destruct (Ascii.eqb_spec c x); [congruence |].
    rewrite IH by done. f_equal. lia.
Qed.

(** X1. [stripPrefix] leaves a name without underscore unchanged, leaves a
    name that starts with an underscore unchanged, and otherwise returns
    what follows the first underscore, further underscores included. *)
Theorem stripPrefix_cases :
  (forall name, CpuProgram.UNDERSCORE ∉ name -> CpuProgram.stripPrefix name = name) /\
  (forall rest,
     CpuProgram.stripPrefix (CpuProgram.UNDERSCORE :: rest) =
     CpuProgram.UNDERSCORE :: rest) /\
  (forall prefix rest,
     prefix <> [] -> CpuProgram.UNDERSCORE ∉ prefix ->
     CpuProgram.stripPrefix (prefix ++ CpuProgram.UNDERSCORE :: rest) = rest).
Proof.
  unfold CpuProgram.stripPrefix, CpuProgram.find. split; [| split].
  - intros name Hx. by rewrite find_from_absent.
  - intros rest. reflexivity.
  - intros prefix rest Hne Hx. rewrite find_from_first by done.
    destruct prefix as [| c prefix]; [done |]. simpl.
    unfold CpuProgram.substr_from.
    replace (length prefix + 1)%nat with (S (length prefix)) by lia.
    simpl. rewrite cons_middle, app_assoc.
    apply drop_app_length'. rewrite length_app. simpl. lia.
Qed.

Lemma find_last_from_app p l1 l2 i found :
  CpuProgram.find_last_from p (l1 ++ l2) i found =
  CpuProgram.find_last_from p l2 (i + length l1)
    (CpuProgram.find_last_from p l1 i found).
Proof.
  revert i found. induction l1 as [| c l1 IH]; intros i found; simpl.
  - by rewrite Nat.add_0_r.
  - rewrite IH. f_equal. lia.
Qed.

Lemma find_last_from_absent p l i found :
  (forall c, c ∈ l -> p c = false) ->
  CpuProgram.find_last_from p l i found = found.
Proof.
  revert i found. induction l as [| c l IH]; intros i found H; simpl; [done |].
  rewrite (H c) by left. apply IH. intros c' Hc'. apply H. by right.
Qed.

Lemma find_last_from_bound p l i found k :
  CpuProgram.find_last_from p l i found = Some k ->
  found = Some k \/ (i <= k < i + length l)%nat.
Proof.
  revert i found. induction l as [| c l IH]; intros i found H; simpl in *.
  - by left.
  - apply IH in H. destruct H as [H | H]; [| right; lia].
    destruct (p c); [| by left]. inversion H; subst. right. lia.
Qed.

Lemma extractBaseName_start dir file :
  splits_path dir file ->
  match CpuProgram.find_last_of is_separator (dir ++ file) with
  | None => 0%nat
  | Some k => (k + 1)%nat
  end = length dir.
Proof.
  intros [Hdir Hfile]. unfold CpuProgram.find_last_of.
  rewrite find_last_from_app, (find_last_from_absent _ file) by done.
  destruct Hdir as [-> | (d & sep & -> & Hsep)]; [reflexivity |].
  rewrite find_last_from_app. simpl. rewrite Hsep.
  rewrite length_app. simpl. lia.
Qed.

(** X2. For a path made of a directory part and a file name,
    [extractBaseName] returns the file name when it has no dot, the part
    before its last dot when that part is not empty, and the whole file name
    when its only dot is its first symbol; dots of the directory part do not
    count. *)
Theorem extractBaseName_cases (dir file : list ascii) :
  splits_path dir file ->
  (CpuProgram.DOT ∉ file -> CpuProgram.extractBaseName (dir ++ file) = file) /\
  (forall stem ext,
     file = stem ++ CpuProgram.DOT :: ext -> CpuProgram.DOT ∉ ext ->
     CpuProgram.extractBaseName (dir ++ file) =
     match stem with [] => file | _ => stem end).
Proof.
  intros Hsplit. pose proof (extractBaseName_start dir file Hsplit) as Hstart.
  unfold CpuProgram.extractBaseName. fold is_separator.
  change (fun c => char_eqb c CpuProgram.SLASH || char_eqb c CpuProgram.BACKSLASH)
    with is_separator.
  rewrite Hstart. clear Hstart.
  set (isdot := fun c => char_eqb c CpuProgram.DOT).
  assert (Hnodot : forall l : list ascii,
            CpuProgram.DOT ∉ l -> forall c, c ∈ l -> isdot c = false).
  { intros l Hl c Hc. unfold isdot, char_eqb.
    destruct (Ascii.eqb_spec c CpuProgram.DOT); [congruence | done]. }
  split.
  - intros Hdot. unfold CpuProgram.find_last_of.
    rewrite find_last_from_app, (find_last_from_absent _ file) by eauto.
    assert (Hend : match CpuProgram.find_last_from isdot dir 0 None with
                   | Some d => if (d <=? length dir)%nat
                               then length (dir ++ file) else d
                   | None => length (dir ++ file)
                   end = length (dir ++ file)).
    { destruct (CpuProgram.find_last_from isdot dir 0 None) as [d |] eqn:Hd;
        [| done].
      apply find_last_from_bound in Hd. destruct Hd as [? | ?]; [done |].
      destruct (Nat.leb_spec d (length dir)); [done | lia]. }
    rewrite Hend. unfold CpuProgram.substr.
    rewrite drop_app_length, length_app.
    apply take_ge. lia.
  - intros stem ext -> Hext. unfold CpuProgram.find_last_of.
    rewrite find_last_from_app.
    rewrite (find_last_from_app isdot stem (CpuProgram.DOT :: ext)).
    cbn [CpuProgram.find_last_from].
    change (isdot CpuProgram.DOT) with true. cbv iota.
    rewrite (find_last_from_absent _ ext) by eauto.
    unfold CpuProgram.substr. rewrite drop_app_length.
    destruct stem as [| c stem].
    + simpl. rewrite Nat.add_0_r.
      destruct (Nat.leb_spec (length dir) (length dir)); [| lia].
      rewrite length_app. apply take_ge. simpl. lia.
    + destruct (Nat.leb_spec (0 + length dir + length (c :: stem)) (length dir))
        as [Hle | _]; [simpl in Hle; lia |].
      replace (0 + length dir + length (c :: stem) - length dir)%nat
        with (length (c :: stem)) by lia.
      by rewrite take_app_length.
Qed.

Lemma extractBaseName_cases_witness :
  splits_path (str "data/set.1/") (str "BB11001_1aab.fasta") /\
  CpuProgram.extractBaseName (str "data/set.1/" ++ str "BB11001_1aab.fasta") =
    str "BB11001_1aab".
Proof.
  assert (H : splits_path (str "data/set.1/") (str "BB11001_1aab.fasta")).
  { split.
    - right. exists (str "data/set.1"), "/"%char. split; reflexivity.
    - intros c Hc. apply list_elem_of_In in Hc. simpl in Hc.
      repeat (destruct Hc as [<- | Hc]; [reflexivity |]). destruct Hc. }
  split; [exact H |].
  exact (proj2 (extractBaseName_cases _ _ H) (str "BB11001_1aab") (str "fasta")
           eq_refl ltac:(intros Hc; apply list_elem_of_In in Hc; simpl in Hc;
                         repeat (destruct Hc as [Hc | Hc]; [discriminate |]);
                         destruct Hc)).
Defined.

(** ** Letter case *)

Lemma uchar_to_char z : 0 <= z <= 255 -> uchar (CpuProgram.to_char z) = z.
Proof.
  intros Hz. unfold uchar, CpuProgram.to_char.
  rewrite N_ascii_embedding by lia. lia.
Qed.

Lemma to_char_uchar c : CpuProgram.to_char (uchar c) = c.
Proof.
  unfold uchar, CpuProgram.to_char. rewrite N2Z.id. apply ascii_N_embedding.
Qed.

Lemma toupper_idempotent z : toupper (toupper z) = toupper z.
Proof.
  assert (Hcase : (97 <= z <= 122 /\ toupper z = z - 32) \/
                  (~ (97 <= z <= 122) /\ toupper z = z)).
  { unfold toupper.
    destruct (Z.leb_spec 97 z), (Z.leb_spec z 122); simpl;
      [left | right | right | right]; split; (reflexivity || lia). }
  destruct Hcase as [[Hz ->] | [Hz Heq]].
  - unfold toupper. destruct (Z.leb_spec 97 (z - 32)); [lia | reflexivity].
  - by rewrite !Heq.
Qed.

Lemma toupper_not_lower z : ~ (97 <= toupper z <= 122).
Proof.
  unfold toupper.
  destruct (Z.leb_spec 97 z), (Z.leb_spec z 122); simpl; lia.
Qed.

Lemma uchar_upper c :
  uchar (CpuProgram.to_char (toupper (uchar c))) = toupper (uchar c).
Proof. apply uchar_to_char, toupper_range, uchar_range. Qed.

Lemma toUpperCase_lookup s i :
  (i < length s)%nat ->
  CpuProgram.toUpperCase s !!! i = CpuProgram.to_char (toupper (uchar (s !!! i))).
Proof.
  intros Hi. unfold CpuProgram.toUpperCase.
  apply list_lookup_total_correct.
  change (map ?f s) with (f <$> s). rewrite list_lookup_fmap.
  by rewrite (list_lookup_lookup_total_lt s i Hi).
Qed.

(** X3. [toUpperCase] keeps the length of the sequence, leaves no lowercase
    letter in it, changes no symbol that is not a lowercase letter, and
    applying it twice is applying it once. *)
Theorem toUpperCase_uppercases (seq : list ascii) :
  length (CpuProgram.toUpperCase seq) = length seq /\
  Forall (fun c => ~ (97 <= uchar c <= 122)) (CpuProgram.toUpperCase seq) /\
  (forall i, (i < length seq)%nat -> ~ (97 <= uchar (seq !!! i) <= 122) ->
     CpuProgram.toUpperCase seq !!! i = seq !!! i) /\
  CpuProgram.toUpperCase (CpuProgram.toUpperCase seq) = CpuProgram.toUpperCase seq.
Proof.
  split; [| split; [| split]].
  - unfold CpuProgram.toUpperCase. apply length_map.
  - unfold CpuProgram.toUpperCase. apply Forall_forall. intros c Hc.
    apply list_elem_of_In, in_map_iff in Hc. destruct Hc as (c0 & <- & _).
    rewrite uchar_upper. apply toupper_not_lower.
  - intros i Hi Hlow. rewrite toUpperCase_lookup by done.
    unfold toupper.
    destruct (Z.leb_spec 97 (uchar (seq !!! i))),
             (Z.leb_spec (uchar (seq !!! i)) 122); simpl;
      try apply to_char_uchar. lia.
  - unfold CpuProgram.toUpperCase. rewrite map_map. apply map_ext.
    intros c. by rewrite uchar_upper, toupper_idempotent.
Qed.

Lemma foldl_ext_seq {A} (f g : A -> nat -> A) a start n :
  (forall x i, (start <= i < start + n)%nat -> f x i = g x i) ->
  foldl f a (seq start n) = foldl g a (seq start n).
Proof.
  revert a start. induction n as [| n IH]; intros a start H; simpl; [done |].
  rewrite H by lia. apply IH. intros x i Hi. apply H. lia.
Qed.

Lemma scan_type_forallb l :
  Cpu.scan_type l true = forallb nucleic l.
Proof.
  induction l as [| c l IH]; simpl; [done |].
  unfold nucleic at 1.
  destruct (char_eqb c GAP_DOT); simpl; [exact IH |].
  set (u := toupper (uchar c)).
  destruct (u =? 65), (u =? 67), (u =? 71), (u =? 84), (u =? 85), (u =? 78);
    simpl; try exact IH; reflexivity.
Qed.

Lemma nucleic_upper c :
  nucleic (CpuProgram.to_char (toupper (uchar c))) = nucleic c.
Proof.
  unfold nucleic. rewrite uchar_upper, toupper_idempotent.
  f_equal. unfold char_eqb.
  destruct (Ascii.eqb_spec c GAP_DOT) as [-> | Hne]; [reflexivity |].
  destruct (Ascii.eqb_spec (CpuProgram.to_char (toupper (uchar c))) GAP_DOT)
    as [Heq | _]; [| reflexivity].
  exfalso. apply (f_equal uchar) in Heq. rewrite uchar_upper in Heq.
  change (uchar GAP_DOT) with 46 in Heq.
  unfold toupper in Heq.
  destruct (Z.leb_spec 97 (uchar c)), (Z.leb_spec (uchar c) 122);
    simpl in Heq; try lia;
    apply Hne; rewrite <- (to_char_uchar c), Heq; reflexivity.
Qed.

(** X4. The checksum and the sequence type do not depend on letter case:
    they are the same for a string and for its uppercased copy. *)
Theorem checksum_and_type_ignore_case (s s2 : list ascii) :
  Cpu.gcgChecksum (CpuProgram.toUpperCase s) = Cpu.gcgChecksum s /\
  Cpu.determineSequenceType (CpuProgram.toUpperCase s) (CpuProgram.toUpperCase s2) =
    Cpu.determineSequenceType s s2.
Proof.
  split.
  - unfold Cpu.gcgChecksum. f_equal. f_equal.
    assert (Hlen : length (CpuProgram.toUpperCase s) = length s)
      by apply length_map.
    rewrite Hlen. apply foldl_ext_seq. intros x i Hi. cbv zeta.
    rewrite toUpperCase_lookup by lia.
    by rewrite uchar_upper, toupper_idempotent.
  - unfold Cpu.determineSequenceType. rewrite !scan_type_forallb.
    unfold CpuProgram.toUpperCase. rewrite <- map_app.
    assert (Hall : forall l : list ascii,
              forallb nucleic
                (map (fun c => CpuProgram.to_char (toupper (uchar c))) l) =
              forallb nucleic l).
    { induction l as [| c l IH]; simpl; [done |].
      by rewrite nucleic_upper, IH. }
    by rewrite Hall.
Qed.

(** X5. [determineSequenceType] answers N exactly when every symbol of the
    two strings is a gap symbol or one of A, C, G, T, U, N in either case,
    and P otherwise; the order of the two strings does not matter. *)
Theorem determineSequenceType_nucleic (align1 align2 : list ascii) :
  Cpu.determineSequenceType align1 align2 =
    (if forallb nucleic align1 && forallb nucleic align2
     then "N"%char else "P"%char) /\
  Cpu.determineSequenceType align1 align2 =
    Cpu.determineSequenceType align2 align1.
Proof.
  unfold Cpu.determineSequenceType. rewrite !scan_type_forallb, !forallb_app.
  split; [reflexivity |]. by rewrite andb_comm.
Qed.

(** ** Reading a sequence file *)

Lemma getlines_line cur line rest :
  CpuProgram.NEWLINE ∉ line ->
  CpuProgram.getlines cur (line ++ CpuProgram.NEWLINE :: rest) =
  (cur ++ line) :: CpuProgram.getlines [] rest.
Proof.
  revert cur. induction line as [| c line IH]; intros cur Hnl; simpl.
  - by rewrite app_nil_r.
  - apply not_elem_of_cons in Hnl. destruct Hnl as [Hne Hnl].
    unfold char_eqb. destruct (Ascii.eqb_spec c CpuProgram.NEWLINE); [done |].
    rewrite IH by done. by rewrite <- app_assoc.
Qed.

Lemma getlines_lines ls rest :
  Forall data_line ls ->
  CpuProgram.getlines [] (flat_map (fun l => l ++ [CpuProgram.NEWLINE]) ls ++ rest) =
  ls ++ CpuProgram.getlines [] rest.
Proof.
  induction 1 as [| l ls [Hnl _] _ IH]; simpl; [done |].
  rewrite <- !app_assoc. simpl. rewrite getlines_line by done.
  by rewrite IH.
Qed.

Lemma getlines_started cur content :
  cur <> [] ->
  exists l more, CpuProgram.getlines cur content = (cur ++ l) :: more.
Proof.
  revert cur. induction content as [| c content IH]; intros cur Hcur; simpl.
  - destruct cur; [done |]. exists [], []. by rewrite app_nil_r.
  - destruct (char_eqb c CpuProgram.NEWLINE).
    + exists [], (CpuProgram.getlines [] content). by rewrite app_nil_r.
    + destruct (IH (cur ++ [c])) as (l & more & ->); [by destruct cur |].
      exists (c :: l), more. by rewrite <- app_assoc.
Qed.

Lemma strip_line_foldl line seq :
  foldl (fun seq c => if CpuProgram.isspace (uchar c) then seq else seq ++ [c])
        seq line = seq ++ strip_spaces line.
Proof.
  revert seq. induction line as [| c line IH]; intros seq; simpl.
  - by rewrite app_nil_r.
  - rewrite IH. destruct (CpuProgram.isspace (uchar c)); simpl; [done |].
    by rewrite <- app_assoc.
Qed.

Lemma read_sequence_lines ls more seq :
  Forall data_line ls ->
  CpuProgram.read_sequence (ls ++ more) seq =
  CpuProgram.read_sequence more (seq ++ flat_map strip_spaces ls).
Proof.
  intros H. revert seq. induction H as [| l ls [_ Hh] _ IH]; intros seq; simpl.
  - by rewrite app_nil_r.
  - rewrite Hh, strip_line_foldl, IH. by rewrite <- app_assoc.
Qed.

Lemma read_sequence_stops tail seq :
  tail = [] \/ (exists t, tail = CpuProgram.GT :: t) ->
  CpuProgram.read_sequence (CpuProgram.getlines [] tail) seq = seq.
Proof.
  intros [-> | [t ->]]; [reflexivity |]. simpl.
  destruct (getlines_started [CpuProgram.GT] t) as (l & more & ->); [done |].
  reflexivity.
Qed.

Lemma header_name_stops name descr acc :
  Forall nonspace name ->
  descr = [] \/ (exists c d, descr = c :: d /\ CpuProgram.isspace (uchar c) = true) ->
  CpuProgram.header_name (name ++ descr) acc = acc ++ name.
Proof.
  intros Hname Hdescr. revert acc.
  induction Hname as [| c name Hc _ IH]; intros acc; simpl.
  - destruct Hdescr as [-> | (c & d & -> & Hc)]; simpl.
    + by rewrite app_nil_r.
    + rewrite Hc. by rewrite app_nil_r.
  - unfold nonspace in Hc. rewrite Hc, IH. by rewrite <- app_assoc.
Qed.

(** X6. A file that holds a header line, [>] then a name without white
    space then nothing or a description set off by white space, followed by
    lines of sequence data and then by nothing or by a further record, is
    read as that name and the data lines joined with their white space
    removed; the further record is not read. *)
Theorem readFastaFile_first_record
    (name descr : list ascii) (ls : list (list ascii)) (tail : list ascii) :
  Forall nonspace name ->
  descr = [] \/ (exists c d, descr = c :: d /\ CpuProgram.isspace (uchar c) = true) ->
  CpuProgram.NEWLINE ∉ descr ->
  Forall data_line ls ->
  tail = [] \/ (exists t, tail = CpuProgram.GT :: t) ->
  CpuProgram.readFastaFile
    (Some (CpuProgram.GT :: name ++ descr ++ [CpuProgram.NEWLINE] ++
           flat_map (fun l => l ++ [CpuProgram.NEWLINE]) ls ++ tail)) =
  Some (name, flat_map strip_spaces ls).
Proof.
  intros Hname Hdescr Hnl Hls Htail. unfold CpuProgram.readFastaFile.
  assert (Hline : CpuProgram.NEWLINE ∉ CpuProgram.GT :: name ++ descr).
  { intros Hin. apply elem_of_cons in Hin. destruct Hin as [? | Hin]; [done |].
    apply elem_of_app in Hin. destruct Hin as [Hin | Hin]; [| done].
    rewrite Forall_forall in Hname. by specialize (Hname _ Hin). }
  replace (CpuProgram.GT :: name ++ descr ++ [CpuProgram.NEWLINE] ++
           flat_map (fun l => l ++ [CpuProgram.NEWLINE]) ls ++ tail)
    with ((CpuProgram.GT :: name ++ descr) ++ CpuProgram.NEWLINE ::
          (flat_map (fun l => l ++ [CpuProgram.NEWLINE]) ls ++ tail))
    by (simpl; by rewrite <- !app_assoc).
  rewrite getlines_line by done.
  rewrite getlines_lines by done.
  cbn [app CpuProgram.is_header]. change (char_eqb CpuProgram.GT CpuProgram.GT) with true.
  cbv iota. cbn [drop]. change (drop 0 (name ++ descr)) with (name ++ descr).
  rewrite header_name_stops by done.
  rewrite read_sequence_lines by done.
  by rewrite read_sequence_stops.
Qed.

Lemma readFastaFile_first_record_witness :
  Forall nonspace (str "1aab_") /\
  CpuProgram.readFastaFile
    (Some (CpuProgram.GT :: str "1aab_" ++ str " high mobility" ++
           [CpuProgram.NEWLINE] ++
           flat_map (fun l => l ++ [CpuProgram.NEWLINE]) [str "GKG DPK"; str "kp"] ++
           str ">next")) =
  Some (str "1aab_", flat_map strip_spaces [str "GKG DPK"; str "kp"]).
Proof.
  assert (Hname : Forall nonspace (str "1aab_"))
    by (repeat constructor).
  split; [exact Hname |].
  apply (readFastaFile_first_record (str "1aab_") (str " high mobility")
           [str "GKG DPK"; str "kp"] (str ">next") Hname).
  - right. by exists " "%char, (str "high mobility").
  - intros Hin. apply list_elem_of_In in Hin. simpl in Hin.
    repeat (destruct Hin as [Hin | Hin]; [discriminate |]). destruct Hin.
  - repeat constructor; intros Hin; apply list_elem_of_In in Hin; simpl in Hin;
      repeat (destruct Hin as [Hin | Hin]; [discriminate |]); destruct Hin.
  - right. by exists (str "next").
Defined.

(** X7. A file whose first line is not a header loses that line: the name
    read is empty and the sequence is made of the following data lines
    only. *)
Theorem readFastaFile_headerless_first_line_dropped
    (first : list ascii) (ls : list (list ascii)) (tail : list ascii) :
  data_line first ->
  Forall data_line ls ->
  tail = [] \/ (exists t, tail = CpuProgram.GT :: t) ->
  CpuProgram.readFastaFile
    (Some (first ++ [CpuProgram.NEWLINE] ++
           flat_map (fun l => l ++ [CpuProgram.NEWLINE]) ls ++ tail)) =
  Some ([], flat_map strip_spaces ls).
Proof.
  intros [Hnl Hh] Hls Htail. unfold CpuProgram.readFastaFile.
  change (first ++ [CpuProgram.NEWLINE] ++
          flat_map (fun l => l ++ [CpuProgram.NEWLINE]) ls ++ tail)
    with (first ++ CpuProgram.NEWLINE ::
          (flat_map (fun l => l ++ [CpuProgram.NEWLINE]) ls ++ tail)).
  rewrite getlines_line by done.
  rewrite getlines_lines by done.
  cbn [app]. rewrite Hh.
  rewrite read_sequence_lines by done.
  by rewrite read_sequence_stops.
Qed.

Lemma readFastaFile_headerless_first_line_dropped_witness :
  data_line (str "ACGT") /\
  CpuProgram.readFastaFile
    (Some (str "ACGT" ++ [CpuProgram.NEWLINE] ++
           flat_map (fun l => l ++ [CpuProgram.NEWLINE]) [str "TTGA"] ++ [])) =
  Some ([], flat_map strip_spaces [str "TTGA"]).
Proof.
  assert (H : forall s : string,
            forallb (fun c => negb (char_eqb c CpuProgram.NEWLINE)) (str s) = true ->
            CpuProgram.is_header (str s) = false -> data_line (str s)).
  { intros s Hs Hh. split; [| done]. intros Hin. apply list_elem_of_In in Hin.
    rewrite forallb_forall in Hs. specialize (Hs _ Hin).
    unfold char_eqb in Hs. by rewrite Ascii.eqb_refl in Hs. }
  assert (H1 : data_line (str "ACGT")) by (by apply H).
  split; [exact H1 |].
  apply (readFastaFile_headerless_first_line_dropped (str "ACGT") [str "TTGA"] [] H1).
  - constructor; [by apply H | constructor].
  - by left.
Defined.

Lemma header_name_nonspace line acc :
  Forall nonspace acc -> Forall nonspace (CpuProgram.header_name line acc).
Proof.
  revert acc. induction line as [| c line IH]; intros acc Hacc; simpl; [done |].
  destruct (CpuProgram.isspace (uchar c)) eqn:Hc; [done |].
  apply IH. apply Forall_app. split; [done |]. by constructor.
Qed.

Lemma read_sequence_nonspace lines seq :
  Forall nonspace seq -> Forall nonspace (CpuProgram.read_sequence lines seq).
Proof.
  revert seq. induction lines as [| l lines IH]; intros seq Hseq; simpl; [done |].
  destruct (CpuProgram.is_header l); [done |].
  apply IH. rewrite strip_line_foldl. apply Forall_app. split; [done |].
  unfold strip_spaces. apply Forall_forall. intros c Hc.
  apply list_elem_of_In, filter_In in Hc. destruct Hc as [_ Hc].
  by apply negb_true_iff in Hc.
Qed.

(** X8. [readFastaFile] fails exactly when the file cannot be opened: no
    content makes it fail, and an empty file gives an empty name and an
    empty sequence.  The name and the sequence it returns never hold white
    space (space, tab, line feed, carriage return, vertical tab, form
    feed). *)
Theorem readFastaFile_never_fails_on_content (file : option (list ascii)) :
  (CpuProgram.readFastaFile file = None <-> file = None) /\
  CpuProgram.readFastaFile (Some []) = Some ([], []) /\
  (forall name seq,
     CpuProgram.readFastaFile file = Some (name, seq) ->
     Forall nonspace name /\ Forall nonspace seq).
Proof.
  split; [| split].
  - destruct file as [content |]; simpl; [| done].
    destruct (CpuProgram.getlines [] content); split; discriminate.
  - reflexivity.
  - intros name seq. destruct file as [content |]; simpl; [| discriminate].
    destruct (CpuProgram.getlines [] content) as [| line rest].
    + intros [= <- <-]. split; constructor.
    + intros [= <- <-]. split.
      * destruct (CpuProgram.is_header line); [| constructor].
        apply header_name_nonspace. constructor.
      * apply read_sequence_nonspace. constructor.
Qed.

(** ** What the alignment is made of *)

Lemma sublist_cons a b (l : list ascii) :
  (a < b)%nat -> (b <= length l)%nat ->
  sublist a b l = l !!! a :: sublist (S a) b l.
Proof.
  intros Hab Hb. unfold sublist.
  rewrite (drop_S l (l !!! a) a) by (apply list_lookup_lookup_total_lt; lia).
  replace (b - a)%nat with (S (b - S a)) by lia. reflexivity.
Qed.

Lemma residue_not_dash c : residue c = true -> char_eqb c GAP_DASH = false.
Proof.
  unfold residue. intros H. apply andb_true_iff in H. destruct H as [H _].
  by apply negb_true_iff in H.
Qed.

Lemma residue_not_dot c : residue c = true -> char_eqb c GAP_DOT = false.
Proof.
  unfold residue. intros H. apply andb_true_iff in H. destruct H as [_ H].
  by apply negb_true_iff in H.
Qed.

Section Substrings.
Variables (seq1 seq2 : list ascii) (len2 : nat) (M : Matrix).
Hypothesis Hres1 : forallb residue seq1 = true.
Hypothesis Hres2 : forallb residue seq2 = true.
Variables (i0 j0 : nat).
Hypothesis Hi0 : (i0 <= length seq1)%nat.
Hypothesis Hj0 : (j0 <= length seq2)%nat.

Lemma tb_body_covers s s' stop :
  Cpu.tb_cond s = true -> covers seq1 seq2 i0 j0 s ->
  Cpu.tb_body seq1 seq2 len2 M s = Cpu.Move s' stop ->
  covers seq1 seq2 i0 j0 s'.
Proof.
  unfold Cpu.tb_cond. intros Hc (Hi & Hj & H1 & H2) Hb.
  apply andb_true_iff in Hc. destruct Hc as [Hti Htj].
  apply Nat.ltb_lt in Hti, Htj.
  pose proof (residue_not_dash _ (residue_lookup seq1 (Cpu.ti s - 1) Hres1)) as Hr1.
  pose proof (residue_not_dash _ (residue_lookup seq2 (Cpu.tj s - 1) Hres2)) as Hr2.
  assert (Hs1 : sublist (Cpu.ti s - 1) i0 seq1 =
                seq1 !!! (Cpu.ti s - 1)%nat :: sublist (Cpu.ti s) i0 seq1).
  { rewrite sublist_cons by lia. do 2 f_equal. lia. }
  assert (Hs2 : sublist (Cpu.tj s - 1) j0 seq2 =
                seq2 !!! (Cpu.tj s - 1)%nat :: sublist (Cpu.tj s) j0 seq2).
  { rewrite sublist_cons by lia. do 2 f_equal. lia. }
  apply tb_body_Move in Hb.
  assert (Hn1 : not_dash (seq1 !!! (Cpu.ti s - 1)%nat) = true)
    by (unfold not_dash; by rewrite Hr1).
  assert (Hn2 : not_dash (seq2 !!! (Cpu.tj s - 1)%nat) = true)
    by (unfold not_dash; by rewrite Hr2).
  destruct Hb as [_ [[_ ->] | [[_ ->] | [_ ->]]]]; unfold covers; simpl;
    rewrite !rev_unit; simpl; rewrite ?Hn1, ?Hn2, ?H1, ?H2, ?Hs1, ?Hs2;
    repeat split; (done || lia).
Qed.

Lemma tb_loop_covers fuel s s' :
  covers seq1 seq2 i0 j0 s ->
  Cpu.tb_loop seq1 seq2 len2 M fuel s = Some s' ->
  covers seq1 seq2 i0 j0 s'.
Proof.
  revert s. induction fuel as [| fuel IH]; intros s Hinv; simpl.
  - destruct (Cpu.tb_cond s); [discriminate |]. by intros [= <-].
  - destruct (Cpu.tb_cond s) eqn:Hc; [| by intros [= <-]].
    destruct (Cpu.tb_body seq1 seq2 len2 M s) as [| s1 [|]] eqn:Hb.
    + by intros [= <-].
    + intros [= <-]. by eapply tb_body_covers.
    + apply IH. by eapply tb_body_covers.
Qed.
End Substrings.

Lemma degap_dots l :
  Forall (fun c => residue c = true \/ c = GAP_DASH) l ->
  degap (Cpu.dots l) = List.filter not_dash l.
Proof.
  unfold degap, Cpu.dots.
  induction 1 as [| c l Hc _ IH]; simpl; [done |].
  destruct Hc as [Hc | ->].
  - rewrite (residue_not_dash c Hc). unfold not_dash.
    rewrite (residue_not_dot c Hc), (residue_not_dash c Hc). simpl.
    by rewrite IH.
  - simpl. exact IH.
Qed.

Lemma column_sides l1 l2 :
  Forall2 column l1 l2 ->
  Forall (fun c => residue c = true \/ c = GAP_DASH) l1 /\
  Forall (fun c => residue c = true \/ c = GAP_DASH) l2.
Proof.
  induction 1 as [| x y l1 l2 Hxy _ [IH1 IH2]]; [by split |].
  destruct Hxy as [[? ?] | [[? ?] | [? ?]]]; split; constructor; auto.
Qed.

Lemma locate_in_range len1 len2 sc mx mi mj :
  Cpu.locate len1 len2 sc = (mx, mi, mj) -> (mi <= len1)%nat /\ (mj <= len2)%nat.
Proof.
  intros Hloc. pose proof (locate_scanned len1 len2 sc) as Hs.
  rewrite Hloc in Hs.
  destruct Hs as [_ [(_ & -> & ->) | (_ & [[? ?] [? ?]] & _)]]; lia.
Qed.



(** ** The score of the alignment *)

Lemma pair_sum_snoc f a b x y :
  length a = length b ->
  pair_sum f (a ++ [x]) (b ++ [y]) = pair_sum f a b + f x y.
Proof.
  revert b. induction a as [| c a IH]; intros [| d b] Hlen; simpl in *;
    try discriminate; [lia |].
  rewrite IH by lia. lia.
Qed.

Lemma pair_sum_rev f a b :
  length a = length b -> pair_sum f (rev a) (rev b) = pair_sum f a b.
Proof.
  revert b. induction a as [| c a IH]; intros [| d b] Hlen; simpl in *;
    try discriminate; [done |].
  rewrite pair_sum_snoc by (rewrite !length_rev; lia).
  rewrite IH by lia. lia.
Qed.

Lemma pair_sum_dots m mm g a b :
  Forall2 column a b ->
  pair_sum (column_score m mm g) (Cpu.dots a) (Cpu.dots b) =
  pair_sum (pushed_score m mm g) a b.
Proof.
  induction 1 as [| x y a b Hxy _ IH]; simpl; [done |].
  rewrite IH. f_equal. unfold column_score, pushed_score.
  destruct Hxy as [[Hx Hy] | [[Hx ->] | [-> Hy]]].
  - by rewrite (residue_not_dash x Hx), (residue_not_dash y Hy),
      (residue_not_dot x Hx), (residue_not_dot y Hy).
  - rewrite (residue_not_dash x Hx). simpl. by rewrite orb_true_r.
  - reflexivity.
Qed.

Section AlignmentScore.
Variables (seq1 seq2 : list ascii) (len1 len2 : nat).
Variables (matchScore mismatchScore gapScore : Z).
Variable M : Matrix.
Hypothesis HF : Filled seq1 seq2 len1 len2 matchScore mismatchScore gapScore M.
Hypothesis Hm : INT_MIN <= matchScore.
Hypothesis Hmm : INT_MIN <= mismatchScore.
Hypothesis Hg : INT_MIN <= gapScore.
Hypothesis Hfit :
  Z.of_nat (len1 + len2) * max_gain matchScore mismatchScore gapScore <= INT_MAX.
Hypothesis Hres1 : forallb residue seq1 = true.
Hypothesis Hres2 : forallb residue seq2 = true.

#[local] Abbreviation cell a b := (score M !!! at_ len2 a b).
#[local] Abbreviation pushed := (pushed_score matchScore mismatchScore gapScore).

(** In a filled matrix the direction of a cell names the predecessor its
    score was computed from. *)
Lemma Filled_direction a b :
  interior len1 len2 a b ->
  let d := dir M !!! at_ len2 a b in
  (d = 1 -> cell a b =
     cell (a - 1) (b - 1) + subst_score seq1 seq2 matchScore mismatchScore a b) /\
  (d = 2 -> cell a b = cell (a - 1) b + gapScore) /\
  (d = 3 -> cell a b = cell a (b - 1) + gapScore).
Proof.
  intros Hab.
  destruct (Filled_cell _ _ _ _ _ _ _ _ HF a b Hab) as [Hc Hd].
  destruct (Filled_sums_exact _ _ _ _ _ _ _ _ HF Hm Hmm Hg Hfit a b Hab)
    as (Hed & Heu & Hel).
  cbv zeta. rewrite Hd, Hc. rewrite <- Hed, <- Heu, <- Hel.
  unfold spec_direction, DIR_NONE, DIR_DIAG, DIR_UP, DIR_LEFT.
  repeat match goal with
         | |- context [?x =? ?y] => destruct (Z.eqb_spec x y)
         end; repeat split; intros; try lia; try congruence.
  unfold spec_best in *. lia.
Qed.

Variables (i0 j0 : nat).

Lemma tb_body_paid s s' stop :
  Cpu.tb_cond s = true ->
  paid len1 len2 matchScore mismatchScore gapScore M i0 j0 s ->
  Cpu.tb_body seq1 seq2 len2 M s = Cpu.Move s' stop ->
  paid len1 len2 matchScore mismatchScore gapScore M i0 j0 s'.
Proof.
  unfold Cpu.tb_cond. intros Hc (Hsum & Hlen & Hi & Hj) Hb.
  apply andb_true_iff in Hc. destruct Hc as [Hti Htj].
  apply Nat.ltb_lt in Hti, Htj.
  assert (Hint : interior len1 len2 (Cpu.ti s) (Cpu.tj s)) by (unfold interior; lia).
  destruct (Filled_direction _ _ Hint) as (Hd1 & Hd2 & Hd3).
  pose proof (residue_not_dash _ (residue_lookup seq1 (Cpu.ti s - 1) Hres1)) as Hr1.
  pose proof (residue_not_dash _ (residue_lookup seq2 (Cpu.tj s - 1) Hres2)) as Hr2.
  apply tb_body_Move in Hb.
  destruct Hb as [_ [[Hd ->] | [[Hd ->] | [Hd ->]]]]; unfold paid; simpl;
    rewrite pair_sum_snoc by done; rewrite !length_app; simpl;
    (split; [| split; [lia | lia]]).
  - rewrite Hsum, (Hd1 Hd). unfold pushed_score, subst_score.
    rewrite Hr1, Hr2. simpl. lia.
  - rewrite Hsum, (Hd2 Hd). unfold pushed_score.
    rewrite orb_true_r. lia.
  - rewrite Hsum, (Hd3 Hd). unfold pushed_score. simpl. lia.
Qed.

Lemma tb_loop_paid fuel s s' :
  paid len1 len2 matchScore mismatchScore gapScore M i0 j0 s ->
  Cpu.tb_loop seq1 seq2 len2 M fuel s = Some s' ->
  paid len1 len2 matchScore mismatchScore gapScore M i0 j0 s' /\
  cell (Cpu.ti s') (Cpu.tj s') = 0.
Proof.
  revert s. induction fuel as [| fuel IH]; intros s Hinv; simpl.
  - destruct (Cpu.tb_cond s) eqn:Hc; [discriminate |]. intros [= <-].
    split; [done |]. destruct Hinv as (_ & _ & Hi & Hj).
    apply (inv_border _ _ _ _ _ _ _ _ _ HF); [done | done |].
    unfold Cpu.tb_cond in Hc. apply andb_false_iff in Hc.
    destruct Hc as [Hc | Hc]; apply Nat.ltb_ge in Hc; lia.
  - destruct (Cpu.tb_cond s) eqn:Hc.
    2:{ intros [= <-]. split; [done |]. destruct Hinv as (_ & _ & Hi & Hj).
        apply (inv_border _ _ _ _ _ _ _ _ _ HF); [done | done |].
        unfold Cpu.tb_cond in Hc. apply andb_false_iff in Hc.
        destruct Hc as [Hc | Hc]; apply Nat.ltb_ge in Hc; lia. }
    destruct (Cpu.tb_body seq1 seq2 len2 M s) as [| s1 stop] eqn:Hb.
    + intros [= <-]. split; [done |]. destruct Hinv as (_ & _ & Hi & Hj).
      apply (Filled_dir_none _ _ _ _ _ _ _ _ HF _ _ Hi Hj).
      pose proof (Filled_dir_range _ _ _ _ _ _ _ _ HF _ _ Hi Hj) as Hrange.
      unfold Cpu.tb_body in Hb.
      set (d := dir M !!! at_ len2 (Cpu.ti s) (Cpu.tj s)) in *.
      destruct (Z.eqb_spec d 0); [done |].
      destruct (Z.eqb_spec d 1); [discriminate |].
      destruct (Z.eqb_spec d 2); [discriminate |].
      destruct (Z.eqb_spec d 3); [discriminate |]. lia.
    + pose proof (tb_body_paid _ _ _ Hc Hinv Hb) as Hinv1.
      apply tb_body_Move in Hb. destruct Hb as [Hstop _].
      destruct stop.
      * intros [= <-]. split; [done |].
        symmetry in Hstop. by apply Z.eqb_eq in Hstop.
      * by apply IH.
Qed.
End AlignmentScore.



(** ** Bounds and symmetry of the best score *)

Lemma spec_best_swap d u l : spec_best d u l = spec_best d l u.
Proof. unfold spec_best. lia. Qed.

Lemma subst_score_swap seq1 seq2 m mm a b :
  subst_score seq1 seq2 m mm a b = subst_score seq2 seq1 m mm b a.
Proof. unfold subst_score, char_eqb. by rewrite Ascii.eqb_sym. Qed.

(** The matrix of the swapped sequences is the transposed matrix. *)
Lemma Filled_transpose seq1 seq2 len1 len2 m mm g M M' :
  Filled seq1 seq2 len1 len2 m mm g M ->
  Filled seq2 seq1 len2 len1 m mm g M' ->
  forall n a b, (a + b <= n)%nat -> (a <= len1)%nat -> (b <= len2)%nat ->
    score M !!! at_ len2 a b = score M' !!! at_ len1 b a.
Proof.
  intros HF HF'. induction n as [| n IH]; intros a b Hn Ha Hb.
  - destruct (inv_border _ _ _ _ _ _ _ _ _ HF a b) as [-> _]; [lia .. |].
    destruct (inv_border _ _ _ _ _ _ _ _ _ HF' b a) as [-> _]; [lia .. |]. done.
  - destruct (decide (a = 0%nat \/ b = 0%nat)) as [Hz | Hnz].
    + destruct (inv_border _ _ _ _ _ _ _ _ _ HF a b) as [-> _]; auto.
      destruct (inv_border _ _ _ _ _ _ _ _ _ HF' b a) as [-> _]; auto. tauto.
    + assert (Hi : interior len1 len2 a b) by (unfold interior; lia).
      assert (Hi' : interior len2 len1 b a) by (unfold interior; lia).
      destruct (Filled_cell _ _ _ _ _ _ _ _ HF a b Hi) as [-> _].
      destruct (Filled_cell _ _ _ _ _ _ _ _ HF' b a Hi') as [-> _].
      rewrite spec_best_swap.
      unfold cand_diag, cand_up, cand_left.
      rewrite (subst_score_swap seq2 seq1).
      rewrite !(IH (a - 1)%nat), !(IH a (b - 1)%nat); auto; lia.
Qed.

Lemma locate_is_maximum len1 len2 sc mx mi mj :
  Cpu.locate len1 len2 sc = (mx, mi, mj) ->
  0 <= mx /\
  (forall a b, interior len1 len2 a b -> sc !!! at_ len2 a b <= mx) /\
  (mx = 0 \/ exists a b, interior len1 len2 a b /\ sc !!! at_ len2 a b = mx).
Proof.
  intros Hloc. pose proof (locate_scanned len1 len2 sc) as Hs.
  rewrite Hloc in Hs. destruct Hs as [Hle Hcase].
  split; [| split; [exact Hle |]].
  - destruct Hcase as [(-> & _) | (? & _)]; lia.
  - destruct Hcase as [(-> & _) | (_ & Hint & Hc & _)]; [by left | right].
    by exists mi, mj.
Qed.


Section ScoreBound.
Variables (seq1 seq2 : list ascii) (len1 len2 : nat).
Variables (matchScore mismatchScore gapScore : Z).
Variable M : Matrix.
Hypothesis HF : Filled seq1 seq2 len1 len2 matchScore mismatchScore gapScore M.
Hypothesis Hm : 0 <= matchScore.
Hypothesis Hmm : INT_MIN <= mismatchScore <= matchScore.
Hypothesis Hg : INT_MIN <= gapScore <= 0.
Hypothesis Hfit : Z.of_nat (len1 + len2) * matchScore <= INT_MAX.

Lemma Filled_le_matches n : forall a b,
  (a + b <= n)%nat -> (a <= len1)%nat -> (b <= len2)%nat ->
  score M !!! at_ len2 a b <= matchScore * Z.of_nat (Nat.min a b).
Proof.
  assert (Hgain : max_gain matchScore mismatchScore gapScore = matchScore)
    by (unfold max_gain; lia).
  assert (Hm' : INT_MIN <= matchScore) by (unfold INT_MIN; lia).
  induction n as [| n IH]; intros a b Hn Ha Hb.
  - destruct (inv_border _ _ _ _ _ _ _ _ _ HF a b) as [-> _]; auto; lia.
  - destruct (decide (a = 0%nat \/ b = 0%nat)) as [Hz | Hnz].
    + destruct (inv_border _ _ _ _ _ _ _ _ _ HF a b) as [-> _]; auto. nia.
    + assert (Hi : interior len1 len2 a b) by (unfold interior; lia).
      destruct (Filled_cell _ _ _ _ _ _ _ _ HF a b Hi) as [-> _].
      destruct (Filled_sums_exact _ _ _ _ _ _ _ _ HF Hm' (proj1 Hmm) (proj1 Hg)
                  ltac:(by rewrite Hgain) a b Hi) as (-> & -> & ->).
      pose proof (IH (a - 1)%nat (b - 1)%nat ltac:(lia) ltac:(lia) ltac:(lia)) as Hd.
      pose proof (IH (a - 1)%nat b ltac:(lia) ltac:(lia) ltac:(lia)) as Hu.
      pose proof (IH a (b - 1)%nat ltac:(lia) ltac:(lia) ltac:(lia)) as Hl.
      assert (Hs : subst_score seq1 seq2 matchScore mismatchScore a b <= matchScore)
        by (unfold subst_score; destruct (char_eqb _ _); lia).
      set (k := Nat.min a b) in *.
      assert (Hk1 : Nat.min (a - 1) (b - 1) = (k - 1)%nat) by lia.
      assert (Hk2 : (Nat.min (a - 1) b <= k)%nat) by lia.
      assert (Hk3 : (Nat.min a (b - 1) <= k)%nat) by lia.
      assert (Hk : (1 <= k)%nat) by lia.
      rewrite Hk1 in Hd.
      assert (matchScore * Z.of_nat (Nat.min (a - 1) b) <= matchScore * Z.of_nat k)
        by (apply Z.mul_le_mono_nonneg_l; lia).
      assert (matchScore * Z.of_nat (Nat.min a (b - 1)) <= matchScore * Z.of_nat k)
        by (apply Z.mul_le_mono_nonneg_l; lia).
      assert (matchScore * Z.of_nat (k - 1) + matchScore = matchScore * Z.of_nat k)
        by (replace (Z.of_nat k) with (Z.of_nat (k - 1) + 1) by lia; lia).
      unfold spec_best. nia.
Qed.
End ScoreBound.



(** ** Alignments that are empty *)

Lemma Filled_all_zero seq1 seq2 len1 len2 m mm g M :
  Filled seq1 seq2 len1 len2 m mm g M ->
  INT_MIN <= mm <= 0 -> INT_MIN <= g <= 0 ->
  (forall a b, interior len1 len2 a b ->
     char_eqb (seq1 !!! (a - 1)%nat) (seq2 !!! (b - 1)%nat) = false) ->
  forall n a b, (a + b <= n)%nat -> (a <= len1)%nat -> (b <= len2)%nat ->
    score M !!! at_ len2 a b = 0.
Proof.
  intros HF Hmm Hg Hdiff. induction n as [| n IH]; intros a b Hn Ha Hb.
  - by apply (inv_border _ _ _ _ _ _ _ _ _ HF); [| | lia].
  - destruct (decide (a = 0%nat \/ b = 0%nat)) as [Hz | Hnz].
    + by apply (inv_border _ _ _ _ _ _ _ _ _ HF).
    + assert (Hi : interior len1 len2 a b) by (unfold interior; lia).
      destruct (Filled_cell _ _ _ _ _ _ _ _ HF a b Hi) as [-> _].
      unfold cand_diag, cand_up, cand_left, subst_score, int_add.
      rewrite (Hdiff a b Hi).
      rewrite !(IH (a - 1)%nat), !(IH a (b - 1)%nat) by lia.
      rewrite !Z.add_0_l, !wrap_int_exact by (unfold INT_MAX; lia).
      unfold spec_best. lia.
Qed.




(** ** What a launch leaves untouched *)

Lemma launch_frame seq1 seq2 len2 d start_i end_i m mm g order :
  (d - len2 <= start_i)%nat -> (end_i <= d - 1)%nat -> (1 <= d)%nat ->
  forall M,
    let M' := Gpu.launch order Gpu.threadsPerBlock
                (Gpu.sw_kernel seq1 seq2 len2 d start_i end_i m mm g) M in
    length (score M') = length (score M) /\
    length (dir M') = length (dir M) /\
    forall a b, (b <= len2)%nat -> (a + b)%nat <> d ->
      score M' !!! at_ len2 a b = score M !!! at_ len2 a b /\
      dir M' !!! at_ len2 a b = dir M !!! at_ len2 a b.
Proof.
  intros Hs He Hd. induction order as [| [bi t] order IH]; intros M.
  - simpl. by repeat split.
  - unfold Gpu.launch. simpl.
    set (M1 := Gpu.sw_kernel seq1 seq2 len2 d start_i end_i m mm g bi
                 Gpu.threadsPerBlock t M).
    destruct (IH M1) as (Hl1 & Hl2 & Hsame). cbv zeta in *.
    unfold Gpu.launch in Hl1, Hl2, Hsame.
    assert (Hstep : length (score M1) = length (score M) /\
                    length (dir M1) = length (dir M) /\
                    forall a b, (b <= len2)%nat -> (a + b)%nat <> d ->
                      score M1 !!! at_ len2 a b = score M !!! at_ len2 a b /\
                      dir M1 !!! at_ len2 a b = dir M !!! at_ len2 a b).
    { unfold M1. rewrite sw_kernel_write. cbv zeta.
      set (i := (start_i + (bi * Gpu.threadsPerBlock + t))%nat).
      destruct (Nat.ltb_spec end_i i); [by repeat split |].
      split; [simpl; by rewrite length_insert |].
      split; [simpl; by rewrite length_insert |].
      intros a b Hb Hab. apply write_cell_other; [done | lia |].
      intros E. inversion E; subst. lia. }
    destruct Hstep as (Hs1 & Hs2 & Hs3).
    split; [by rewrite Hl1 |]. split; [by rewrite Hl2 |].
    intros a b Hb Hab.
    destruct (Hsame a b Hb Hab) as [-> ->]. by apply Hs3.
Qed.

(** X15. Whatever the scheduler, the launch for anti-diagonal [d] keeps
    the size of the two matrices and changes no cell off that
    anti-diagonal: a kernel thread writes only its own cell [(i, d - i)],
    and a thread past the end of the anti-diagonal writes nothing. *)
Theorem diag_step_writes_only_its_diagonal
    (sched : Gpu.scheduler) (seq1 seq2 : list ascii) (len1 len2 : nat)
    (matchScore mismatchScore gapScore : Z) (M : Matrix) (d : nat) :
  let M' := Gpu.diag_step sched seq1 seq2 len1 len2
              matchScore mismatchScore gapScore M d in
  length (score M') = length (score M) /\
  length (dir M') = length (dir M) /\
  forall a b, (b <= len2)%nat -> (a + b)%nat <> d ->
    score M' !!! at_ len2 a b = score M !!! at_ len2 a b /\
    dir M' !!! at_ len2 a b = dir M !!! at_ len2 a b.
Proof.
  unfold Gpu.diag_step.
  set (s0 := (if (len2 + 1 <? d)%nat then (d - (len2 + 1) + 1)%nat else 1%nat)).
  set (start_i := (if (s0 <? 1)%nat then 1%nat else s0)).
  set (e0 := (if (d - 1 <? len1)%nat then (d - 1)%nat else len1)).
  set (end_i := (if (len1 <? e0)%nat then len1 else e0)).
  assert (Hstart : start_i = Nat.max 1 (d - len2)).
  { unfold start_i, s0.
    destruct (Nat.ltb_spec (len2 + 1) d);
      match goal with |- context [(?x <? 1)%nat] =>
        destruct (Nat.ltb_spec x 1) end; lia. }
  assert (Hend : end_i = Nat.min (d - 1) len1).
  { unfold end_i, e0.
    destruct (Nat.ltb_spec (d - 1) len1);
      match goal with |- context [(len1 <? ?x)%nat] =>
        destruct (Nat.ltb_spec len1 x) end; lia. }
  clearbody start_i end_i. clear s0 e0.
  destruct ((len1 <? start_i)%nat || (end_i <? start_i)%nat) eqn:Hgo;
    [by repeat split |].
  apply orb_false_iff in Hgo. destruct Hgo as [H1 H2].
  apply Nat.ltb_ge in H1, H2.
  apply launch_frame; lia.
Qed.

(** ** The layout of a residue line *)

(** Facts on the quotients and remainders by [d] of the goal. *)
Ltac div_facts d :=
  repeat match goal with
  | |- context [(?a / d)%nat] =>
      lazymatch goal with
      | _ : a = (d * (a / d) + a mod d)%nat |- _ => fail
      | _ => pose proof (Nat.div_mod_eq a d);
             pose proof (Nat.mod_upper_bound a d ltac:(lia))
      end
  | _ : context [(?a / d)%nat] |- _ =>
      lazymatch goal with
      | _ : a = (d * (a / d) + a mod d)%nat |- _ => fail
      | _ => pose proof (Nat.div_mod_eq a d);
             pose proof (Nat.mod_upper_bound a d ltac:(lia))
      end
  | |- context [(?a mod d)%nat] =>
      lazymatch goal with
      | _ : a = (d * (a / d) + a mod d)%nat |- _ => fail
      | _ => pose proof (Nat.div_mod_eq a d);
             pose proof (Nat.mod_upper_bound a d ltac:(lia))
      end
  | _ : context [(?a mod d)%nat] |- _ =>
      lazymatch goal with
      | _ : a = (d * (a / d) + a mod d)%nat |- _ => fail
      | _ => pose proof (Nat.div_mod_eq a d);
             pose proof (Nat.mod_upper_bound a d ltac:(lia))
      end
  end.

Section Layout.
Variables (al : list ascii) (start : nat).

Lemma chunked_length m : length (chunked al start m) = (m + m / 10)%nat.
Proof.
  induction m as [| m IH]; [reflexivity |].
  cbn [chunked]. rewrite !length_app, IH.
  destruct (Nat.eqb_spec (S m mod 10) 0); cbn [length]; div_facts 10%nat; lia.
Qed.

Lemma chunked_residue m p :
  (p < m)%nat ->
  chunked al start m !! (p + p / 10)%nat = Some (al !!! (start + p)%nat).
Proof.
  induction m as [| m IH]; intros Hp; [lia |].
  cbn [chunked]. destruct (decide (p = m)) as [-> | Hne].
  - rewrite lookup_app_r by (rewrite chunked_length; lia).
    rewrite chunked_length, Nat.sub_diag. reflexivity.
  - rewrite lookup_app_l by (rewrite chunked_length; div_facts 10%nat; lia).
    apply IH. lia.
Qed.

Lemma chunked_space m q :
  (10 * (q + 1) <= m)%nat ->
  chunked al start m !! (11 * q + 10)%nat = Some " "%char.
Proof.
  induction m as [| m IH]; intros Hq; [lia |].
  cbn [chunked]. destruct (decide (10 * (q + 1) = S m)%nat) as [Heq | Hne].
  - rewrite lookup_app_r by (rewrite chunked_length; div_facts 10%nat; lia).
    rewrite chunked_length.
    replace (11 * q + 10 - (m + m / 10))%nat with 1%nat
      by (div_facts 10%nat; lia).
    destruct (Nat.eqb_spec (S m mod 10) 0) as [_ | Hmod]; [reflexivity |].
    exfalso. apply Hmod. rewrite <- Heq.
    rewrite Nat.mul_comm. apply Nat.Div0.mod_mul.
  - rewrite lookup_app_l by (rewrite chunked_length; div_facts 10%nat; lia).
    apply IH. lia.
Qed.

Variable end_ : nat.

Lemma residues_prefix m :
  (start + m < end_)%nat ->
  foldl (fun '(out, count) k =>
           let out := out ++ [al !!! k] in
           let count := (count + 1)%nat in
           if ((count mod 10 =? 0) && (k <? end_ - 1))%nat
           then (out ++ [" "%char], count)
           else (out, count))
        ([], 0%nat) (seq start m) = (chunked al start m, m).
Proof.
  induction m as [| m IH]; intros Hm; [reflexivity |].
  rewrite seq_S, foldl_snoc, IH by lia. cbv zeta.
  replace (m + 1)%nat with (S m) by lia.
  destruct (Nat.ltb_spec (start + m) (end_ - 1)); [| lia].
  cbn [chunked]. rewrite andb_true_r.
  destruct (S m mod 10 =? 0)%nat; by rewrite <- ?app_assoc, ?app_nil_r.
Qed.

Lemma residues_chunked :
  (start < end_)%nat ->
  Cpu.residues al start end_ =
  chunked al start (end_ - start - 1) ++ [al !!! (end_ - 1)%nat].
Proof.
  intros Hse. unfold Cpu.residues.
  replace (end_ - start)%nat with (S (end_ - start - 1)) by lia.
  rewrite seq_S, foldl_snoc, residues_prefix by lia. cbv zeta.
  replace (start + (end_ - start - 1))%nat with (end_ - 1)%nat by lia.
  destruct (Nat.ltb_spec (end_ - 1) (end_ - 1)); [lia |].
  rewrite andb_false_r. cbn [fst].
  by replace (S (end_ - start - 1) - 1)%nat with (end_ - start - 1)%nat by lia.
Qed.
End Layout.

(** X16. The residues of columns [start .. end_ - 1] are printed in groups
    of ten separated by one space, with no space after the last residue:
    the text has [n + (n - 1) / 10] symbols for [n] columns, residue number
    [p] stands at position [p + p / 10], and the positions [10], [21], [32],
    ... before the end hold the spaces. *)
Theorem residues_in_groups_of_ten (al : list ascii) (start end_ : nat) :
  (start < end_)%nat ->
  let n := (end_ - start)%nat in
  let text := Cpu.residues al start end_ in
  length text = (n + (n - 1) / 10)%nat /\
  (forall p, (p < n)%nat ->
     text !! (p + p / 10)%nat = Some (al !!! (start + p)%nat)) /\
  (forall q, (10 * (q + 1) < n)%nat ->
     text !! (11 * q + 10)%nat = Some " "%char).
Proof.
  intros Hse n text. unfold text. rewrite residues_chunked by done.
  fold n. split; [| split].
  - rewrite length_app, chunked_length. simpl. lia.
  - intros p Hp. destruct (decide (p = n - 1)%nat) as [-> | Hne].
    + rewrite lookup_app_r by (rewrite chunked_length; lia).
      rewrite chunked_length, Nat.sub_diag. simpl. do 2 f_equal. lia.
    + rewrite lookup_app_l by (rewrite chunked_length; div_facts 10%nat; lia).
      apply chunked_residue. lia.
  - intros q Hq.
    rewrite lookup_app_l by (rewrite chunked_length; div_facts 10%nat; lia).
    apply chunked_space. lia.
Qed.

Lemma residues_in_groups_of_ten_witness :
  (0 < 25)%nat /\
  length (Cpu.residues (str "ACGTACGTACGTACGTACGTACGTA") 0 25) = (25 + 24 / 10)%nat /\
  Cpu.residues (str "ACGTACGTACGTACGTACGTACGTA") 0 25 !! (11 * 1 + 10)%nat =
    Some " "%char.
Proof.
  assert (H : (0 < 25)%nat) by lia.
  split; [exact H |].
  destruct (residues_in_groups_of_ten (str "ACGTACGTACGTACGTACGTACGTA") 0 25 H)
    as (Hlen & _ & Hsp).
  split; [exact Hlen |]. apply Hsp. lia.
Defined.

(** ** The blocks of the report *)

Lemma flat_map_seq_S {A} (f : nat -> list A) a n :
  flat_map f (seq (S a) n) = flat_map (fun q => f (S q)) (seq a n).
Proof.
  revert a. induction n as [| n IH]; intros a; simpl; [done |].
  by rewrite IH.
Qed.

Lemma print_blocks_closed name1 name2 align1 align2 fuel : forall start,
  (length align1 <= start + fuel)%nat ->
  Cpu.print_blocks fuel name1 name2 align1 align2 (length align1) start =
  Some (flat_map (fun q => report_block name1 name2 align1 align2 (start + 50 * q))
                 (seq 0 ((length align1 - start + 49) / 50))).
Proof.
  induction fuel as [| fuel IH]; intros start Hf.
  - rewrite print_blocks_done by lia.
    replace ((length align1 - start + 49) / 50)%nat with 0%nat
      by (div_facts 50%nat; lia).
    reflexivity.
  - cbn [Cpu.print_blocks]. unfold Cpu.colsPerLine.
    destruct (Nat.ltb_spec start (length align1)) as [Hlt | Hge].
    + rewrite IH by lia.
      replace ((length align1 - start + 49) / 50)%nat
        with (S ((length align1 - (start + 50) + 49) / 50))
        by (div_facts 50%nat; lia).
      cbn [seq flat_map]. rewrite flat_map_seq_S.
      f_equal. f_equal.
      * unfold report_block. rewrite Nat.mul_0_r, Nat.add_0_r.
        destruct (Nat.ltb_spec (start + 50) (length align1));
          [rewrite Nat.min_l by lia | rewrite Nat.min_r by lia];
          reflexivity.
      * apply flat_map_ext. intros q. f_equal. lia.
    + replace ((length align1 - start + 49) / 50)%nat with 0%nat
        by (div_facts 50%nat; lia).
      reflexivity.
Qed.

(** X17. [printMSFAlignment] always returns a report: the header followed,
    for an alignment of [n] columns, by [(n + 49) / 50] blocks, block number
    [q] holding the residue lines of the two sequences for the columns
    [50 q] up to [min (50 q + 50, n)], each line followed by a line feed and
    the block by an empty line. *)
Theorem report_is_header_and_blocks
    (name1 name2 align1 align2 : list ascii) (maxScore : Z) :
  Cpu.printMSFAlignment name1 name2 align1 align2 maxScore =
  Some (Cpu.print_header name1 name2 align1 align2 maxScore ++
        flat_map (fun q => report_block name1 name2 align1 align2 (50 * q))
                 (seq 0 ((length align1 + 49) / 50))).
Proof.
  unfold Cpu.printMSFAlignment.
  rewrite print_blocks_closed by lia.
  by rewrite Nat.sub_0_r.
Qed.

(** ** The two programs *)

Lemma toUpperCase_nil seq : CpuProgram.toUpperCase seq = [] <-> seq = [].
Proof. destruct seq; simpl; split; (done || discriminate). Qed.

Lemma report_total name1 name2 align1 align2 maxScore :
  is_Some (Cpu.printMSFAlignment name1 name2 align1 align2 maxScore).
Proof.
  unfold Cpu.printMSFAlignment.
  destruct (print_blocks_total (length align1) name1 name2 align1 align2
              (length align1) 0) as [blocks ->]; [lia | eauto].
Qed.

Lemma gpu_align_cpu sched seq1 seq2 m mm g :
  Gpu.fair sched ->
  Gpu.align sched seq1 seq2 m mm g = Cpu.smithWaterman seq1 seq2 m mm g.
Proof.
  intros Hfair. unfold Gpu.align, Cpu.smithWaterman.
  by rewrite gpu_fill_cpu_fill.
Qed.

Lemma smithWaterman_returns seq1 seq2 m mm g :
  is_Some (Cpu.smithWaterman seq1 seq2 m mm g).
Proof. apply finish_total. Qed.

Lemma sized_smithWaterman_total seq1 seq2 m mm g :
  is_Some (CpuProgram.smithWaterman seq1 seq2 m mm g).
Proof.
  unfold CpuProgram.smithWaterman.
  destruct (_ <? 0); [eauto |].
  destruct (_ || _ && _); [eauto |].
  destruct (_ || _); [| eauto].
  match goal with
  | |- context [Cpu.smithWaterman ?a ?b m mm g] =>
      destruct (smithWaterman_returns a b m mm g) as [r ->]
  end.
  eauto.
Qed.

(** Beyond [fits], for sequences whose lengths are within [int], the CPU
    function does not return. *)
Lemma sized_smithWaterman_overflow seq1 seq2 m mm g :
  seq1 <> [] -> seq2 <> [] ->
  Z.of_nat (length seq1) <= INT_MAX -> Z.of_nat (length seq2) <= INT_MAX ->
  ~ fits (length seq1) (length seq2) ->
  CpuProgram.smithWaterman seq1 seq2 m mm g = Some Throws \/
  CpuProgram.smithWaterman seq1 seq2 m mm g = Some Undefined.
Proof.
  intros Hn1 Hn2 H1 H2 Hfit. unfold CpuProgram.smithWaterman.
  rewrite !int_length_exact by done.
  destruct (_ <? 0); [by left |]. right.
  destruct (_ || _ && _); [done |].
  assert (0 < length seq1)%nat by (destruct seq1; [done | simpl; lia]).
  assert (0 < length seq2)%nat by (destruct seq2; [done | simpl; lia]).
  unfold fits in Hfit.
  destruct (Z.leb_spec ((Z.of_nat (length seq1) + 1) *
                        (Z.of_nat (length seq2) + 1)) INT_MAX); [done |].
  destruct (Z.ltb_spec (Z.of_nat (length seq1)) 1); [lia |].
  destruct (Z.ltb_spec (Z.of_nat (length seq2)) 1); [lia |].
  reflexivity.
Qed.

Lemma toUpperCase_length seq :
  length (CpuProgram.toUpperCase seq) = length seq.
Proof. unfold CpuProgram.toUpperCase. by rewrite length_map. Qed.

Lemma reads_functional files argv seq1 seq2 seq1' seq2' :
  reads files argv seq1 seq2 -> reads files argv seq1' seq2' ->
  seq1' = seq1 /\ seq2' = seq2.
Proof.
  intros (_ & n1 & n2 & H1 & H2) (_ & n1' & n2' & H1' & H2').
  rewrite H1 in H1'. rewrite H2 in H2'. by inversion H1'; inversion H2'.
Qed.

Lemma input_cases files argv :
  (exists seq1 seq2, reads files argv seq1 seq2 /\ seq1 <> [] /\ seq2 <> []) \/
  ~ (exists seq1 seq2, reads files argv seq1 seq2 /\ seq1 <> [] /\ seq2 <> []).
Proof.
  unfold reads.
  destruct (Nat.ltb_spec (length argv) 3) as [Hargc | Hargc].
  { right. intros (? & ? & (? & _) & _). lia. }
  destruct (CpuProgram.readFastaFile (files (argv !!! 1%nat)))
    as [[name1 seq1] |] eqn:Hr1.
  2:{ right. by intros (? & ? & (_ & ? & ? & ? & _) & _). }
  destruct (CpuProgram.readFastaFile (files (argv !!! 2%nat)))
    as [[name2 seq2] |] eqn:Hr2.
  2:{ right. by intros (? & ? & (_ & ? & ? & _ & ?) & _). }
  destruct seq1 as [| c1 seq1].
  { right. intros (? & ? & (_ & ? & ? & [= _ <-] & _) & ? & _). done. }
  destruct seq2 as [| c2 seq2].
  { right. intros (? & ? & (_ & ? & ? & _ & [= _ <-]) & _ & ?). done. }
  left. exists (c1 :: seq1), (c2 :: seq2). split; [| done].
  split; [done |]. by exists name1, name2.
Qed.

Lemma main_rejects files argv :
  ~ (exists seq1 seq2, reads files argv seq1 seq2 /\ seq1 <> [] /\ seq2 <> []) ->
  exists msg,
    CpuProgram.main files argv = Some (Returns (CpuProgram.mkOutcome 1 [] msg)).
Proof.
  intros Hbad. unfold CpuProgram.main.
  destruct (Nat.ltb_spec (length argv) 3) as [Hargc | Hargc]; [by eexists |].
  destruct (CpuProgram.readFastaFile (files (argv !!! 1%nat)))
    as [[name1 seq1] |] eqn:Hr1; [| by eexists].
  destruct (CpuProgram.readFastaFile (files (argv !!! 2%nat)))
    as [[name2 seq2] |] eqn:Hr2; [| by eexists].
  cbv zeta.
  destruct seq1 as [| c1 seq1]; [by eexists |].
  destruct seq2 as [| c2 seq2]; [by eexists |].
  exfalso. apply Hbad. exists (c1 :: seq1), (c2 :: seq2). split; [| done].
  split; [done |]. by exists name1, name2.
Qed.

Lemma main_runs files argv seq1 seq2 :
  reads files argv seq1 seq2 -> seq1 <> [] -> seq2 <> [] ->
  exists c,
    CpuProgram.smithWaterman (CpuProgram.toUpperCase seq1)
      (CpuProgram.toUpperCase seq2) 2 (-1) (-1) = Some c /\
    match c with
    | Returns _ =>
        exists out,
          CpuProgram.main files argv =
          Some (Returns (CpuProgram.mkOutcome 0 out []))
    | Throws => CpuProgram.main files argv = Some Throws
    | Undefined => CpuProgram.main files argv = Some Undefined
    end.
Proof.
  intros (Hargc & name1 & name2 & Hr1 & Hr2) Hn1 Hn2.
  destruct (sized_smithWaterman_total (CpuProgram.toUpperCase seq1)
              (CpuProgram.toUpperCase seq2) 2 (-1) (-1)) as [c Hc].
  exists c. split; [done |].
  unfold CpuProgram.main.
  destruct (Nat.ltb_spec (length argv) 3) as [? | _]; [lia |].
  rewrite Hr1, Hr2. cbv zeta. rewrite Hc.
  destruct seq1 as [| c1 seq1]; [done |].
  destruct seq2 as [| c2 seq2]; [done |].
  cbn [CpuProgram.toUpperCase map].
  destruct c as [[[a1 a2] best] | |]; [| done | done].
  match goal with
  | |- context [Cpu.printMSFAlignment ?n1 ?n2 a1 a2 best] =>
      destruct (report_total n1 n2 a1 a2 best) as [out ->]
  end.
  by exists out.
Qed.

(** X18. The CPU program ends with status 1, and has then written nothing to
    the standard output, exactly when fewer than two file arguments are
    given, a file cannot be opened, or a sequence is empty.  Otherwise, when
    the matrix of the two sequences has at most [INT_MAX] cells, it ends with
    status 0 and has written no error message; and when the matrix has more
    cells (the lengths being within [int]), it does not return from [main]:
    the cell count of line 86 has wrapped around, and the vector constructor
    throws or an index leaves the vectors. *)
Theorem main_status (files : list ascii -> option (list ascii))
    (argv : list (list ascii)) :
  exists r,
    CpuProgram.main files argv = Some r /\
    (forall o, r = Returns o ->
       (CpuProgram.status o = 0 /\ CpuProgram.message o = []) \/
       (CpuProgram.status o = 1 /\ CpuProgram.stdout o = [])) /\
    ((exists o, r = Returns o /\ CpuProgram.status o = 1) <->
     ~ (exists seq1 seq2,
          reads files argv seq1 seq2 /\ seq1 <> [] /\ seq2 <> [])) /\
    (forall seq1 seq2,
       reads files argv seq1 seq2 -> seq1 <> [] -> seq2 <> [] ->
       (fits (length seq1) (length seq2) ->
        exists o, r = Returns o /\ CpuProgram.status o = 0) /\
       (Z.of_nat (length seq1) <= INT_MAX ->
        Z.of_nat (length seq2) <= INT_MAX ->
        ~ fits (length seq1) (length seq2) ->
        r = Throws \/ r = Undefined)).
Proof.
  destruct (input_cases files argv) as [(seq1 & seq2 & Hreads & Hn1 & Hn2) | Hbad].
  - assert (Hgood : exists s1 s2, reads files argv s1 s2 /\ s1 <> [] /\ s2 <> [])
      by (by exists seq1, seq2).
    destruct (main_runs files argv seq1 seq2 Hreads Hn1 Hn2) as (c & Hc & Hmain).
    assert (Hfits : fits (length seq1) (length seq2) -> exists res, c = Returns res).
    { intros Hfit. rewrite smithWaterman_fits in Hc
        by (by rewrite !toUpperCase_length).
      destruct (Cpu.smithWaterman _ _ _ _ _) as [res |]; [| done].
      exists res. congruence. }
    assert (Hover : Z.of_nat (length seq1) <= INT_MAX ->
                    Z.of_nat (length seq2) <= INT_MAX ->
                    ~ fits (length seq1) (length seq2) ->
                    c = Throws \/ c = Undefined).
    { intros H1 H2 Hfit.
      destruct (sized_smithWaterman_overflow (CpuProgram.toUpperCase seq1)
                  (CpuProgram.toUpperCase seq2) 2 (-1) (-1)) as [H | H];
        rewrite ?toUpperCase_length, ?toUpperCase_nil; try done;
        rewrite Hc in H; [left | right]; congruence. }
    destruct c as [res | |].
    + destruct Hmain as [out Hmain]. eexists. split; [exact Hmain |].
      split; [| split].
      * intros o [= <-]. by left.
      * split; [| done]. intros (o & [= <-] & Hs). discriminate.
      * intros s1 s2 Hr _ _.
        destruct (reads_functional _ _ _ _ _ _ Hreads Hr) as [-> ->].
        split; [by eexists |].
        intros H1 H2 Hfit. by destruct (Hover H1 H2 Hfit).
    + eexists. split; [exact Hmain |]. split; [| split].
      * intros o [=].
      * split; [| done]. by intros (o & [=] & _).
      * intros s1 s2 Hr _ _.
        destruct (reads_functional _ _ _ _ _ _ Hreads Hr) as [-> ->].
        split; [| by left]. intros Hfit. by destruct (Hfits Hfit).
    + eexists. split; [exact Hmain |]. split; [| split].
      * intros o [=].
      * split; [| done]. by intros (o & [=] & _).
      * intros s1 s2 Hr _ _.
        destruct (reads_functional _ _ _ _ _ _ Hreads Hr) as [-> ->].
        split; [| by right]. intros Hfit. by destruct (Hfits Hfit).
  - destruct (main_rejects files argv Hbad) as [msg Hmain].
    eexists. split; [exact Hmain |]. split; [| split].
    + intros o [= <-]. by right.
    + split; [done |]. intros _. by eexists.
    + intros s1 s2 Hr H1 H2. exfalso. apply Hbad. by exists s1, s2.
Qed.

(** X19. When the matrix of the sequences read has at most [INT_MAX] cells,
    then under every fair scheduler the CUDA program returns from [main]
    with the same status and the same standard output as the CPU program,
    for all arguments and files. *)
Theorem gpu_program_prints_what_cpu_program_prints
    (sched : Gpu.scheduler) (files : list ascii -> option (list ascii))
    (argv : list (list ascii)) :
  Gpu.fair sched ->
  (forall seq1 seq2,
     reads files argv seq1 seq2 -> fits (length seq1) (length seq2)) ->
  exists o o',
    CpuProgram.main files argv = Some (Returns o) /\
    GpuProgram.main sched files argv = Some (Returns o') /\
    CpuProgram.status o' = CpuProgram.status o /\
    CpuProgram.stdout o' = CpuProgram.stdout o.
Proof.
  intros Hfair Hfits. unfold CpuProgram.main, GpuProgram.main.
  destruct (Nat.ltb_spec (length argv) 3) as [? | Hargc]; [by eexists _, _ |].
  destruct (CpuProgram.readFastaFile (files (argv !!! 1%nat)))
    as [[name1 seq1] |] eqn:Hr1; [| by eexists _, _].
  destruct (CpuProgram.readFastaFile (files (argv !!! 2%nat)))
    as [[name2 seq2] |] eqn:Hr2; [| by eexists _, _].
  cbv zeta.
  assert (Hfit : fits (length (CpuProgram.toUpperCase seq1))
                      (length (CpuProgram.toUpperCase seq2))).
  { rewrite !toUpperCase_length. apply Hfits.
    split; [done |]. by exists name1, name2. }
  pose proof (fits_bounds _ _ Hfit) as [Hb1 Hb2].
  rewrite !int_length_exact by lia.
  rewrite smithWaterman_fits, align_fits by done.
  rewrite gpu_align_cpu by done.
  destruct (CpuProgram.toUpperCase seq1) as [| c1 u1]; [by eexists _, _ |].
  destruct (CpuProgram.toUpperCase seq2) as [| c2 u2].
  { rewrite orb_true_r. by eexists _, _. }
  destruct (Z.eqb_spec (Z.of_nat (length (c1 :: u1))) 0); [simpl in *; lia |].
  destruct (Z.eqb_spec (Z.of_nat (length (c2 :: u2))) 0); [simpl in *; lia |].
  cbn [orb].
  destruct (smithWaterman_returns (c1 :: u1) (c2 :: u2) 2 (-1) (-1))
    as [[[a1 a2] best] ->].
  match goal with
  | |- context [Cpu.printMSFAlignment ?n1 ?n2 a1 a2 best] =>
      destruct (report_total n1 n2 a1 a2 best) as [out ->]
  end.
  by eexists _, _.
Qed.

Lemma gpu_program_prints_what_cpu_program_prints_witness :
  Gpu.fair Gpu.reversed /\
  (forall seq1 seq2,
     reads (fun _ => Some (str ">s" ++ [CpuProgram.NEWLINE] ++ str "acgt"))
       [str "sw"; str "a.fa"; str "b.fa"] seq1 seq2 ->
     fits (length seq1) (length seq2)) /\
  exists o o',
    CpuProgram.main (fun _ => Some (str ">s" ++ [CpuProgram.NEWLINE] ++ str "acgt"))
      [str "sw"; str "a.fa"; str "b.fa"] = Some (Returns o) /\
    GpuProgram.main Gpu.reversed
      (fun _ => Some (str ">s" ++ [CpuProgram.NEWLINE] ++ str "acgt"))
      [str "sw"; str "a.fa"; str "b.fa"] = Some (Returns o') /\
    CpuProgram.status o' = CpuProgram.status o /\
    CpuProgram.stdout o' = CpuProgram.stdout o.
Proof.
  assert (Hfits : forall seq1 seq2,
            reads (fun _ => Some (str ">s" ++ [CpuProgram.NEWLINE] ++ str "acgt"))
              [str "sw"; str "a.fa"; str "b.fa"] seq1 seq2 ->
            fits (length seq1) (length seq2)).
  { intros seq1 seq2 (_ & name1 & name2 & H1 & H2).
    vm_compute in H1, H2. inversion H1; inversion H2; subst.
    unfold fits, INT_MAX. simpl. lia. }
  split; [exact fair_reversed | split; [exact Hfits |]].
  exact (gpu_program_prints_what_cpu_program_prints Gpu.reversed
           (fun _ => Some (str ">s" ++ [CpuProgram.NEWLINE] ++ str "acgt"))
           [str "sw"; str "a.fa"; str "b.fa"] fair_reversed Hfits).
Defined.
